(** * Vector-space search engine: index construction and query retrieval

    A shallow embedding of [indexer_fixed.py] (class [IndexerFixed]) and
    [search.py] (class [SearchEngine]), followed by the properties of the
    natural-language specification that were checked against the code.

    Conventions of the embedding.
    - Python [int] is [Z]; Python [float] is idealised as a real number
      ([R]): rounding, overflow, infinities and NaN are not modelled.
    - A Python [dict] that is only looked up and updated is a [gmap]; a
      [dict] whose insertion order fixes a later result ([term_freq],
      [query_vector]) is an association list in insertion order.
    - A Python [set] is a [gset]; the order in which a [for] loop walks a
      set is not fixed by the language and is a parameter ([set_iter]).
    - [self.postings] is a [defaultdict(dict)]: subscripting it with an
      absent key inserts an empty dictionary under that key.
    - Methods that mutate [self] take the state and return the new state.
    - Exceptions are values of [exn] inside [result].
    - The tokenizer, stop-word filter and stemmer ([utils], [stop_words],
      [porterstemmer]) are not part of the sources: they are parameters. *)

From Stdlib Require Import Reals Lra Ascii.
From stdpp Require Import gmap strings pretty list fin_maps sorting.

Local Open Scope Z_scope.

(** ** Python run-time helpers *)

Module Py.

(** Exceptions that the modelled methods can raise. *)
Inductive exn := KeyError | ValueError.

Inductive result (A : Type) :=
  | Ok (a : A)
  | Raise (e : exn).
Arguments Ok {A} a.
Arguments Raise {A} e.

Definition bind {A B} (r : result A) (k : A → result B) : result B :=
  match r with
  | Ok a => k a
  | Raise e => Raise e
  end.

(** [str.isspace] on ASCII characters: TAB, LF, VT, FF, CR, FS, GS, RS, US
    and the blank. *)
Definition is_space (c : ascii) : bool :=
  let n := nat_of_ascii c in
  ((9 <=? n)%nat && (n <=? 13)%nat) || ((28 <=? n)%nat && (n <=? 32)%nat).

Fixpoint lstrip (s : string) : string :=
  match s with
  | EmptyString => EmptyString
  | String c s' => if is_space c then lstrip s' else s
  end.

Fixpoint rstrip (s : string) : string :=
  match s with
  | EmptyString => EmptyString
  | String c s' =>
      match rstrip s' with
      | EmptyString => if is_space c then EmptyString else String c EmptyString
      | r => String c r
      end
  end.

(** [s.strip()] *)
Definition strip (s : string) : string := lstrip (rstrip s).

(** [s.split(sep)] for a one-character separator: always at least one
    field. *)
Fixpoint split (sep : ascii) (s : string) : list string :=
  match s with
  | EmptyString => [EmptyString]
  | String c s' =>
      if decide (c = sep) then EmptyString :: split sep s'
      else match split sep s' with
           | f :: fs => String c f :: fs
           | [] => [String c EmptyString]
           end
  end.

(** [s.count(c)] for a character [c]. *)
Fixpoint count_char (c : ascii) (s : string) : nat :=
  match s with
  | EmptyString => 0%nat
  | String c' s' => ((if decide (c' = c) then 1 else 0) + count_char c s')%nat
  end.

Definition comma : ascii := ","%char.
Definition newline : string := String (ascii_of_nat 10) EmptyString.

(** [math.log x]: domain error outside the positive reals. *)
Definition log (x : R) : result R :=
  if Rlt_dec 0 x then Ok (ln x) else Raise ValueError.

(** Sum of squares, [sum(w * w for w in ws)]. *)
Definition sum_squares (ws : list R) : R :=
  foldl (λ acc w, (acc + w * w)%R) 0%R ws.

(** [l[:k]] for an integer [k]: a negative [k] counts from the end. *)
Definition slice_to {A} (k : Z) (l : list A) : list A :=
  if decide (k < 0) then take (Z.to_nat (Z.of_nat (length l) + k)) l
  else take (Z.to_nat k) l.

(** [l.sort(key=key, reverse=True)]: a stable sort into descending key
    order; elements with equal keys keep their original relative order.
    [insert_desc x l] places [x] in front of the first element whose key is
    not greater than the key of [x]. *)
Section Sort.
Context {A : Type} (key : A → R).

Fixpoint insert_desc (x : A) (l : list A) : list A :=
  match l with
  | [] => [x]
  | y :: l' =>
      if Rlt_dec (key x) (key y) then y :: insert_desc x l'
      else x :: y :: l'
  end.

Fixpoint sort_desc (l : list A) : list A :=
  match l with
  | [] => []
  | x :: l' => insert_desc x (sort_desc l')
  end.

(** [desc x y]: [x] may stand before [y] in descending key order. *)
Definition desc (x y : A) : Prop := (key y <= key x)%R.
End Sort.

(** The comparison [x == y] of two numbers. *)
#[global] Instance R_eq_dec : EqDecision R := Req_dec_T.

(** [d[k] += 1] on an insertion-ordered [defaultdict(int)]. *)
Fixpoint incr {K} `{EqDecision K} (k : K) (d : list (K * Z)) : list (K * Z) :=
  match d with
  | [] => [(k, 1)]
  | (k', n) :: d' =>
      if decide (k = k') then (k', n + 1) :: d' else (k', n) :: incr k d'
  end.

(** [d[k]] on the [defaultdict(dict)] holding the postings: the new
    dictionary and the value found or created. *)
Definition getitem_default {V} (d : gmap Z (gmap Z V)) (k : Z)
    : gmap Z (gmap Z V) * gmap Z V :=
  match d !! k with
  | Some v => (d, v)
  | None => (<[k := ∅]> d, ∅)
  end.

(** The built-ins whose behaviour on arbitrary text is not modelled here:
    [int(s)], [float(s)], [str(n)] as used by an f-string, the format
    [f"{x:.6f}"], and the iteration order of a set of integers. *)
Class Builtins := {
  int_of_str : string → option Z;
  float_of_str : string → option R;
  str_of_int : Z → string;
  format_6f : R → string;
  set_iter : gset Z → list Z
}.

End Py.

(** The collaborators imported from [utils], [stop_words] and
    [porterstemmer]. [stem p i j] is [PorterStemmer.stem(p, i, j)]. *)
Class Collaborators := {
  splitchars : string → list string;
  normalize_token : string → string;
  is_stop_word : string → bool;
  starts_with_punctuation : string → bool;
  is_short : string → bool;
  is_number : string → bool;
  stem : string → Z → Z → string
}.

(** The token pipeline shared by [process_document_content] and
    [parse_query]: normalise, filter, stem. [None] is a skipped token. *)
Definition process_token `{Collaborators} (token : string) : option string :=
  let token_lower := normalize_token token in
  if is_stop_word token_lower then None
  else if starts_with_punctuation token_lower then None
  else if is_short token_lower then None
  else if is_number token_lower then None
  else Some (stem token_lower 0 (Z.of_nat (String.length token_lower) - 1)).

(** The index directory: each of the four files is absent ([None]) or a
    list of lines. *)
Record files := {
  documents_dat : option (list string);
  terms_dat : option (list string);
  postings_dat : option (list string);
  doc_lengths_dat : option (list string)
}.

(** ** [indexer_fixed.py]: class [IndexerFixed] *)

Module Indexer.
Import Py.

(** A posting dictionary: created as [{'tf': freq}]; the keys ['tf_idf'],
    ['idf'] and ['df'] are added by [calculate_tf_idf]. *)
Record posting := {
  tf : Z;
  tf_idf : option R;
  idf : option R;
  df : option Z
}.

Record indexer := {
  documents : gmap string Z;
  terms : gmap string Z;
  postings : gmap Z (gmap Z posting);
  doc_lengths : gmap Z R;
  next_doc_id : Z;
  next_term_id : Z;
  total_docs : Z;
  total_terms : Z
}.

(** [__init__] *)
Definition init : indexer :=
  {| documents := ∅; terms := ∅; postings := ∅; doc_lengths := ∅;
     next_doc_id := 1; next_term_id := 1; total_docs := 0; total_terms := 0 |}.

Section WithCollaborators.
Context `{Collaborators}.

(** The first loop of [process_document_content]: the frequency of each
    surviving stem, in order of first occurrence. *)
Definition term_freq_of (content : string) : list (string * Z) :=
  foldl (λ term_freq token,
           match process_token token with
           | Some stemmed => incr stemmed term_freq
           | None => term_freq
           end) [] (splitchars content).

(** One round of the loop "Update postings". *)
Definition add_posting (doc_id : Z) (self : indexer) (item : string * Z)
    : indexer :=
  let '(term, freq) := item in
  let '(terms1, next1) :=
    match terms self !! term with
    | Some _ => (terms self, next_term_id self)
    | None => (<[term := next_term_id self]> (terms self),
               next_term_id self + 1)
    end in
  let term_id := default 0 (terms1 !! term) in
  let '(postings1, doc_postings) := getitem_default (postings self) term_id in
  {| documents := documents self;
     terms := terms1;
     postings := <[term_id := <[doc_id :=
                    {| tf := freq; tf_idf := None; idf := None; df := None |}]>
                    doc_postings]> postings1;
     doc_lengths := doc_lengths self;
     next_doc_id := next_doc_id self;
     next_term_id := next1;
     total_docs := total_docs self;
     total_terms := total_terms self |}.

(** [process_document_content(content, doc_path)]: the new state and the
    returned document identifier. The [except] branch, which returns
    [None], is not reachable with total collaborators. *)
Definition process_document_content (self : indexer)
    (content doc_path : string) : indexer * option Z :=
  let doc_id := next_doc_id self in
  let self1 :=
    {| documents := <[doc_path := doc_id]> (documents self);
       terms := terms self;
       postings := postings self;
       doc_lengths := doc_lengths self;
       next_doc_id := next_doc_id self + 1;
       next_term_id := next_term_id self;
       total_docs := total_docs self;
       total_terms := total_terms self |} in
  (foldl (add_posting doc_id) self1 (term_freq_of content), Some doc_id).
End WithCollaborators.

(** The weights of one term, the body of the outer loop of
    [calculate_tf_idf]. *)
Definition weigh_term (N : Z) (doc_postings : gmap Z posting)
    : result (gmap Z posting) :=
  let df := Z.of_nat (size doc_postings) in
  if decide (df = 0) then Ok doc_postings
  else
    bind (log (IZR N / IZR df)) (λ idf,
      Ok ((λ p, {| tf := tf p;
                   tf_idf := Some (IZR (tf p) * idf)%R;
                   idf := Some idf;
                   df := Some df |}) <$> doc_postings)).

(** [calculate_tf_idf]: the loop over [self.postings.items()] replaces
    the postings of each term by the weighed ones; an exception raised by
    [math.log] leaves the method. *)
Definition calculate_tf_idf (self : indexer) : result indexer :=
  let N := Z.of_nat (size (documents self)) in
  bind
    (foldl (λ acc item,
              bind acc (λ ps,
                bind (weigh_term N item.2) (λ doc_postings,
                  Ok (<[item.1 := doc_postings]> ps))))
           (Ok (postings self)) (map_to_list (postings self)))
    (λ ps,
       Ok {| documents := documents self;
             terms := terms self;
             postings := ps;
             doc_lengths := doc_lengths self;
             next_doc_id := next_doc_id self;
             next_term_id := next_term_id self;
             total_docs := total_docs self;
             total_terms := total_terms self |}).

(** The inner loop of [calculate_document_lengths]: the sum of the squared
    weights of the postings of [doc_id]. Reading ['tf_idf'] from a posting
    that has no such key is a [KeyError]. *)
Definition doc_vector_length (ps : gmap Z (gmap Z posting)) (doc_id : Z)
    : result R :=
  foldl (λ acc item,
           bind acc (λ doc_vector_length,
             match item.2 !! doc_id with
             | Some p =>
                 match tf_idf p with
                 | Some w => Ok (doc_vector_length + w * w)%R
                 | None => Raise KeyError
                 end
             | None => Ok doc_vector_length
             end))
        (Ok 0%R) (map_to_list ps).

(** [calculate_document_lengths]. The argument of [math.sqrt] is a sum of
    squares, so its domain error cannot arise. *)
Definition calculate_document_lengths (self : indexer) : result indexer :=
  bind
    (foldl (λ acc item,
              bind acc (λ lengths,
                bind (doc_vector_length (postings self) item.2) (λ s,
                  Ok (<[item.2 := sqrt s]> lengths))))
           (Ok (doc_lengths self)) (map_to_list (documents self)))
    (λ lengths,
       Ok {| documents := documents self;
             terms := terms self;
             postings := postings self;
             doc_lengths := lengths;
             next_doc_id := next_doc_id self;
             next_term_id := next_term_id self;
             total_docs := total_docs self;
             total_terms := total_terms self |}).

(** The two weight passes as [build_index] runs them. *)
Definition finalize (self : indexer) : result indexer :=
  bind (calculate_tf_idf self) calculate_document_lengths.

Section Build.
Context `{Collaborators}.

(** One round of the loop of [build_index] over the documents: a pair of
    content and identifier string is processed and counted. *)
Definition count_document (st : indexer * Z) (doc : string * string)
    : indexer * Z :=
  match process_document_content st.1 doc.1 doc.2 with
  | (self', Some doc_id) =>
      (self', if decide (doc_id = 0) then st.2 else st.2 + 1)
  | (self', None) => (self', st.2)
  end.

(** The documents handed to [process_document_content], in order. *)
Definition process_all (self : indexer) (docs : list (string * string))
    : indexer * Z :=
  foldl count_document (self, 0) docs.

(** [build_index] from the point where the corpus has been cut into
    documents: [false] when nothing was processed. *)
Definition build_index (self : indexer) (docs : list (string * string))
    : result (indexer * bool) :=
  let '(self1, processed_count) := process_all self docs in
  if decide (processed_count = 0) then Ok (self1, false)
  else
    bind (finalize self1) (λ self2,
      Ok ({| documents := documents self2;
             terms := terms self2;
             postings := postings self2;
             doc_lengths := doc_lengths self2;
             next_doc_id := next_doc_id self2;
             next_term_id := next_term_id self2;
             total_docs := Z.of_nat (size (documents self2));
             total_terms := Z.of_nat (size (terms self2)) |}, true)).
End Build.

Section Save.
Context `{Builtins}.

Definition document_line (item : string * Z) : string :=
  item.1 +:+ "," +:+ str_of_int item.2 +:+ newline.

Definition posting_line (term_id : Z) (item : Z * posting) : string :=
  str_of_int term_id +:+ "," +:+ str_of_int item.1 +:+ ","
    +:+ format_6f (default 0%R (tf_idf item.2)) +:+ ","
    +:+ str_of_int (tf item.2) +:+ ","
    +:+ format_6f (default 0%R (idf item.2)) +:+ ","
    +:+ str_of_int (default 0 (df item.2)) +:+ newline.

Definition doc_length_line (item : Z * R) : string :=
  str_of_int item.1 +:+ "," +:+ format_6f item.2 +:+ newline.

(** [save_index]: the four files written, one record per line. *)
Definition save_index (self : indexer) : files :=
  {| documents_dat := Some (document_line <$> map_to_list (documents self));
     terms_dat := Some (document_line <$> map_to_list (terms self));
     postings_dat :=
       Some (map_to_list (postings self) ≫= λ '(term_id, doc_postings),
               posting_line term_id <$> map_to_list doc_postings);
     doc_lengths_dat :=
       Some (doc_length_line <$> map_to_list (doc_lengths self)) |}.
End Save.

End Indexer.

(** ** [search.py]: class [SearchEngine] *)

Module Search.
Import Py.

(** A loaded posting: all four keys are present. *)
Record posting := {
  tf_idf : R;
  tf : Z;
  idf : R;
  df : Z
}.

Record engine := {
  documents : gmap string Z;
  documents_inv : gmap Z string;
  terms : gmap string Z;
  terms_inv : gmap Z string;
  postings : gmap Z (gmap Z posting);
  doc_lengths : gmap Z R;
  total_docs : Z;
  total_terms : Z
}.

(** The attributes as [__init__] sets them before it calls [load_index]. *)
Definition init : engine :=
  {| documents := ∅; documents_inv := ∅; terms := ∅; terms_inv := ∅;
     postings := ∅; doc_lengths := ∅; total_docs := 0; total_terms := 0 |}.

Definition set_postings (self : engine) (ps : gmap Z (gmap Z posting))
    : engine :=
  {| documents := documents self; documents_inv := documents_inv self;
     terms := terms self; terms_inv := terms_inv self;
     postings := ps; doc_lengths := doc_lengths self;
     total_docs := total_docs self; total_terms := total_terms self |}.

(** An element of [parsed_terms]. *)
Record parsed_term := {
  original : string;
  processed : string;
  term_id : Z
}.

(** An element of the result list. *)
Record hit := {
  doc_id : Z;
  similarity : R;
  doc_path : string
}.

(** Reading a file line by line: [step] handles one line and fails on a
    malformed one; the lines before it have already taken effect. *)
Fixpoint read_lines {S} (step : S → string → option S) (s : S)
    (lines : list string) : S * bool :=
  match lines with
  | [] => (s, true)
  | line :: rest =>
      match step s line with
      | Some s' => read_lines step s' rest
      | None => (s, false)
      end
  end.

Section Load.
Context `{Builtins}.

(** [doc_path, doc_id = line.strip().split(',')] and the two updates. *)
Definition load_pair (m : gmap string Z * gmap Z string) (line : string)
    : option (gmap string Z * gmap Z string) :=
  match split comma (strip line) with
  | [name; id] =>
      match int_of_str id with
      | Some id => Some (<[name := id]> m.1, <[id := name]> m.2)
      | None => None
      end
  | _ => None
  end.

Definition load_posting (ps : gmap Z (gmap Z posting)) (line : string)
    : option (gmap Z (gmap Z posting)) :=
  match split comma (strip line) with
  | [term_id; doc_id; tf_idf; tf; idf; df] =>
      term_id ← int_of_str term_id;
      doc_id ← int_of_str doc_id;
      tf_idf ← float_of_str tf_idf;
      tf ← int_of_str tf;
      idf ← float_of_str idf;
      df ← int_of_str df;
      let '(ps1, doc_postings) := getitem_default ps term_id in
      Some (<[term_id := <[doc_id := {| tf_idf := tf_idf; tf := tf;
                                        idf := idf; df := df |}]>
                           doc_postings]> ps1)
  | _ => None
  end.

Definition load_doc_length (m : gmap Z R) (line : string)
    : option (gmap Z R) :=
  match split comma (strip line) with
  | [doc_id; length] =>
      match float_of_str length, int_of_str doc_id with
      | Some length, Some doc_id => Some (<[doc_id := length]> m)
      | _, _ => None
      end
  | _ => None
  end.

(** [load_index]: the state it leaves and the value it returns. Every
    exception is caught by the method; the attributes assigned before
    the exception keep their new values. *)
Definition load_index (self : engine) (dir : files) : engine * bool :=
  match documents_dat dir with
  | None =>
      ({| documents := ∅; documents_inv := ∅;
          terms := terms self; terms_inv := terms_inv self;
          postings := postings self; doc_lengths := doc_lengths self;
          total_docs := total_docs self;
          total_terms := total_terms self |}, false)
  | Some lines =>
      let '(docs, docs_inv, ok) := read_lines load_pair (∅, ∅) lines in
      let self1 :=
        {| documents := docs; documents_inv := docs_inv;
           terms := terms self; terms_inv := terms_inv self;
           postings := postings self; doc_lengths := doc_lengths self;
           total_docs := total_docs self;
           total_terms := total_terms self |} in
      if negb ok then (self1, false)
      else
      match terms_dat dir with
      | None =>
          ({| documents := docs; documents_inv := docs_inv;
              terms := ∅; terms_inv := ∅;
              postings := postings self; doc_lengths := doc_lengths self;
              total_docs := total_docs self;
              total_terms := total_terms self |}, false)
      | Some lines =>
          let '(tms, tms_inv, ok) := read_lines load_pair (∅, ∅) lines in
          let self2 :=
            {| documents := docs; documents_inv := docs_inv;
               terms := tms; terms_inv := tms_inv;
               postings := postings self; doc_lengths := doc_lengths self;
               total_docs := total_docs self;
               total_terms := total_terms self |} in
          if negb ok then (self2, false)
          else
          match postings_dat dir with
          | None => (set_postings self2 ∅, false)
          | Some lines =>
              let '(ps, ok) := read_lines load_posting ∅ lines in
              let self3 := set_postings self2 ps in
              if negb ok then (self3, false)
              else
              match doc_lengths_dat dir with
              | None =>
                  ({| documents := docs; documents_inv := docs_inv;
                      terms := tms; terms_inv := tms_inv;
                      postings := ps; doc_lengths := ∅;
                      total_docs := total_docs self;
                      total_terms := total_terms self |}, false)
              | Some lines =>
                  let '(lens, ok) := read_lines load_doc_length ∅ lines in
                  if negb ok then
                    ({| documents := docs; documents_inv := docs_inv;
                        terms := tms; terms_inv := tms_inv;
                        postings := ps; doc_lengths := lens;
                        total_docs := total_docs self;
                        total_terms := total_terms self |}, false)
                  else
                    ({| documents := docs; documents_inv := docs_inv;
                        terms := tms; terms_inv := tms_inv;
                        postings := ps; doc_lengths := lens;
                        total_docs := Z.of_nat (size docs);
                        total_terms := Z.of_nat (size tms) |}, true)
              end
          end
      end
  end.

(** [SearchEngine(index_dir)]: the value of [load_index] is dropped. *)
Definition new (dir : files) : engine := (load_index init dir).1.
End Load.

Section Query.
Context `{Collaborators} `{Builtins}.

(** [parse_query]: the surviving tokens whose stem is in the term
    table, in query order. *)
Definition parse_query (self : engine) (query : string)
    : list parsed_term :=
  foldl (λ parsed_terms token,
           match process_token token with
           | Some stemmed =>
               match terms self !! stemmed with
               | Some term_id =>
                   parsed_terms ++ [{| original := token;
                                       processed := stemmed;
                                       term_id := term_id |}]
               | None => parsed_terms
               end
           | None => parsed_terms
           end) [] (splitchars query).

(** The first loop of [build_query_vector]. *)
Definition query_term_freq (parsed_terms : list parsed_term)
    : list (Z * Z) :=
  foldl (λ term_freq term_info, incr (term_id term_info) term_freq)
        [] parsed_terms.

(** One round of the second loop of [build_query_vector]: the weight of
    a term that has an entry in the postings is appended. [math.log]
    raises when [N / df] is not positive. *)
Definition add_weight (self : engine) (acc : result (list (Z * R)))
    (item : Z * Z) : result (list (Z * R)) :=
  bind acc (λ query_vector,
    match postings self !! item.1 with
    | Some doc_postings =>
        let df := Z.of_nat (size doc_postings) in
        bind (if decide (0 < df)
              then log (IZR (total_docs self) / IZR df)
              else Ok 0%R)
             (λ idf, Ok (query_vector ++ [(item.1, (IZR item.2 * idf)%R)]))
    | None => Ok query_vector
    end).

(** [build_query_vector]: the weights in insertion order. *)
Definition build_query_vector (self : engine)
    (parsed_terms : list parsed_term) : result (list (Z * R)) :=
  foldl (add_weight self) (Ok []) (query_term_freq parsed_terms).

(** The loop of [get_documents_with_all_terms] over [parsed_terms[1:]]. *)
Fixpoint intersect_terms (ps : gmap Z (gmap Z posting))
    (rest : list parsed_term) (candidate_docs : gset Z) : gset Z :=
  match rest with
  | [] => candidate_docs
  | term_info :: rest' =>
      match ps !! term_id term_info with
      | Some doc_postings =>
          intersect_terms ps rest' (candidate_docs ∩ dom doc_postings)
      | None => ∅
      end
  end.

(** [get_documents_with_all_terms]: subscripting [self.postings] with
    the first term identifier may insert an empty entry. *)
Definition get_documents_with_all_terms (self : engine)
    (parsed_terms : list parsed_term) : engine * gset Z :=
  match parsed_terms with
  | [] => (self, ∅)
  | first :: rest =>
      let '(ps, first_postings) :=
        getitem_default (postings self) (term_id first) in
      (set_postings self ps, intersect_terms ps rest (dom first_postings))
  end.

(** One round of the loop that collects the document vector;
    [self.postings[term_id]] is a subscript on the [defaultdict]. *)
Definition add_component (doc_id : Z)
    (st : gmap Z (gmap Z posting) * gmap Z R) (item : Z * R)
    : gmap Z (gmap Z posting) * gmap Z R :=
  let '(ps, doc_postings) := getitem_default st.1 item.1 in
  match doc_postings !! doc_id with
  | Some p => (ps, <[item.1 := tf_idf p]> st.2)
  | None => (ps, st.2)
  end.

(** The sparse document vector of [doc_id]. *)
Definition doc_vector_of (ps : gmap Z (gmap Z posting))
    (query_vector : list (Z * R)) (doc_id : Z)
    : gmap Z (gmap Z posting) * gmap Z R :=
  foldl (add_component doc_id) (ps, ∅) query_vector.

(** One round of the loop that sums the dot product. *)
Definition add_product (doc_vector : gmap Z R) (dot_product : R)
    (item : Z * R) : R :=
  match doc_vector !! item.1 with
  | Some w => (dot_product + item.2 * w)%R
  | None => dot_product
  end.

Definition dot_product_of (query_vector : list (Z * R))
    (doc_vector : gmap Z R) : R :=
  foldl (add_product doc_vector) 0%R query_vector.

(** The similarity computed for one candidate. *)
Definition similarity_of (doc_length query_length dot_product : R) : R :=
  if Rlt_dec 0 doc_length then
    if Rlt_dec 0 query_length
    then (dot_product / (doc_length * query_length))%R
    else 0%R
  else 0%R.

(** One round of the loop over [candidate_docs]. Reading
    [self.documents_inv[doc_id]] for an unknown document is a
    [KeyError]. *)
Definition score_doc (query_vector : list (Z * R)) (query_length : R)
    (st : engine * list hit) (doc_id : Z) : result (engine * list hit) :=
  let '(self, results) := st in
  let '(ps, doc_vector) :=
    doc_vector_of (postings self) query_vector doc_id in
  let self' := set_postings self ps in
  let dot_product := dot_product_of query_vector doc_vector in
  let doc_length := default 1%R (doc_lengths self' !! doc_id) in
  let similarity := similarity_of doc_length query_length dot_product in
  if Rlt_dec 0 similarity then
    match documents_inv self' !! doc_id with
    | Some path =>
        Ok (self', results ++ [{| doc_id := doc_id;
                                  similarity := similarity;
                                  doc_path := path |}])
    | None => Raise KeyError
    end
  else Ok (self', results).

(** The loop over the candidates: on an exception the state reached so
    far is kept. *)
Fixpoint score_docs (query_vector : list (Z * R)) (query_length : R)
    (st : engine * list hit) (docs : list Z)
    : engine * result (list hit) :=
  match docs with
  | [] => (st.1, Ok st.2)
  | doc_id :: docs' =>
      match score_doc query_vector query_length st doc_id with
      | Ok st' => score_docs query_vector query_length st' docs'
      | Raise e => (st.1, Raise e)
      end
  end.

(** [search(query, top_k)]: the state after the call and the list
    returned or the exception raised. *)
Definition search (self : engine) (query : string) (top_k : Z)
    : engine * result (list hit) :=
  let parsed_terms := parse_query self query in
  match parsed_terms with
  | [] => (self, Ok [])
  | _ :: _ =>
      let '(self1, candidate_docs) :=
        get_documents_with_all_terms self parsed_terms in
      if decide (candidate_docs = ∅) then (self1, Ok [])
      else
        match build_query_vector self1 parsed_terms with
        | Raise e => (self1, Raise e)
        | Ok query_vector =>
            let query_length := sqrt (sum_squares query_vector.*2) in
            if Req_dec_T query_length 0 then (self1, Ok [])
            else
              match score_docs query_vector query_length (self1, [])
                               (set_iter candidate_docs) with
              | (self2, Ok results) =>
                  (self2, Ok (slice_to top_k (sort_desc similarity results)))
              | (self2, Raise e) => (self2, Raise e)
              end
        end
  end.
End Query.

End Search.

(** ** Concrete collaborators and built-ins for the worked examples *)

Module Sample.
Import Py.

(** A plain tokenizer: tokens are separated by single blanks, the only
    stop word is ["on"], one-character tokens are short, and normalising
    and stemming leave a lower-case word as it is. *)
Definition text : Collaborators :=
  {| splitchars := split " "%char;
     normalize_token := λ s, s;
     is_stop_word := λ s, bool_decide (s = "on");
     starts_with_punctuation := λ _, false;
     is_short := λ s, (String.length s <? 2)%nat;
     is_number := λ _, false;
     stem := λ s _ _, s |}.

Definition digit_of (c : ascii) : option Z :=
  let n := nat_of_ascii c in
  if ((48 <=? n)%nat && (n <=? 57)%nat) then Some (Z.of_nat n - 48) else None.

Fixpoint digits_value (acc : Z) (s : string) : option Z :=
  match s with
  | EmptyString => Some acc
  | String c s' => d ← digit_of c; digits_value (10 * acc + d) s'
  end.

Definition unsigned_int (s : string) : option Z :=
  match s with
  | EmptyString => None
  | _ => digits_value 0 s
  end.

(** [int(s)] on surrounding blanks, an optional sign and ASCII decimal
    digits; digit separators are left out. *)
Definition int_of_str (s : string) : option Z :=
  match strip s with
  | String "-" r => Z.opp <$> unsigned_int r
  | String "+" r => unsigned_int r
  | r => unsigned_int r
  end.

Definition unsigned_decimal (s : string) : option R :=
  match split "."%char s with
  | [i] => IZR <$> unsigned_int i
  | [i; f] =>
      match i, f with
      | EmptyString, EmptyString => None
      | _, _ =>
          iv ← digits_value 0 i;
          fv ← digits_value 0 f;
          Some (IZR iv + IZR fv / IZR (10 ^ Z.of_nat (String.length f)))%R
      end
  | _ => None
  end.

(** [float(s)] on surrounding blanks, an optional sign and a decimal
    numeral; exponents, [inf] and [nan] are left out. *)
Definition float_of_str (s : string) : option R :=
  match strip s with
  | String "-" r => Ropp <$> unsigned_decimal r
  | String "+" r => unsigned_decimal r
  | r => unsigned_decimal r
  end.

(** The integer nearest to [x], halves going to the even neighbour. *)
Definition round_half_even (x : R) : Z :=
  let f := Int_part x in
  if Rlt_dec (frac_part x) (1 / 2) then f
  else if Rlt_dec (1 / 2) (frac_part x) then f + 1
  else if Z.even f then f else f + 1.

Definition pad6 (s : string) : string :=
  String.concat EmptyString (replicate (6 - String.length s)%nat "0") +:+ s.

(** [f"{x:.6f}"]: six fractional digits. *)
Definition format_6f (x : R) : string :=
  let n := round_half_even (x * 1000000) in
  (if Rlt_dec x 0 then "-" else EmptyString)
    +:+ pretty (Z.abs n `div` 1000000) +:+ "."
    +:+ pad6 (pretty (Z.abs n `mod` 1000000)).

(** The order in which CPython walks a set of at most four non-negative
    integers that fall into distinct slots [x mod 8] of its eight-slot
    table: by slot, so that [{1, 8}] is walked as 8, 1. For other sets
    this is one order among the possible ones. *)
Definition slot_le (x y : Z) : Prop :=
  x `mod` 8 < y `mod` 8 ∨ (x `mod` 8 = y `mod` 8 ∧ x ≤ y).

#[local] Instance slot_le_dec : RelDecision slot_le :=
  λ x y, decide (x `mod` 8 < y `mod` 8 ∨ (x `mod` 8 = y `mod` 8 ∧ x ≤ y)).

Definition builtins : Builtins :=
  {| Py.int_of_str := int_of_str;
     Py.float_of_str := float_of_str;
     str_of_int := pretty;
     Py.format_6f := format_6f;
     set_iter := λ s, merge_sort slot_le (elements s) |}.

(** A line of a file, with its terminator. *)
Definition line (s : string) : string := s +:+ newline.

(** A saved index of eight documents: the term ["cat"] occurs once in
    documents 1 and 8, the other documents have no surviving term. With
    [N = 8] and [df = 2] the weight is [ln 4], written [1.386294]. *)
Definition tied_dir : files :=
  {| documents_dat :=
       Some (line <$> ["d1.txt,1"; "d2.txt,2"; "d3.txt,3"; "d4.txt,4";
                       "d5.txt,5"; "d6.txt,6"; "d7.txt,7"; "d8.txt,8"]);
     terms_dat := Some [line "cat,1"];
     postings_dat :=
       Some (line <$> ["1,1,1.386294,1,1.386294,2";
                       "1,8,1.386294,1,1.386294,2"]);
     doc_lengths_dat :=
       Some (line <$> ["1,1.386294"; "2,0.000000"; "3,0.000000";
                       "4,0.000000"; "5,0.000000"; "6,0.000000";
                       "7,0.000000"; "8,1.386294"]) |}.

(** The number read from ["1.386294"]. *)
Definition ln4 : R := (IZR 1 + IZR 386294 / IZR 1000000)%R.

Definition cat_posting : Search.posting :=
  {| Search.tf_idf := ln4; Search.tf := 1; Search.idf := ln4;
     Search.df := 2 |}.

Definition zero : R := (IZR 0 + IZR 0 / IZR 1000000)%R.

(** The engine state that loading [tied_dir] gives. *)
Definition tied : Search.engine :=
  {| Search.documents :=
       list_to_map [("d1.txt", 1); ("d2.txt", 2); ("d3.txt", 3);
                    ("d4.txt", 4); ("d5.txt", 5); ("d6.txt", 6);
                    ("d7.txt", 7); ("d8.txt", 8)];
     Search.documents_inv :=
       list_to_map [(1, "d1.txt"); (2, "d2.txt"); (3, "d3.txt");
                    (4, "d4.txt"); (5, "d5.txt"); (6, "d6.txt");
                    (7, "d7.txt"); (8, "d8.txt")];
     Search.terms := {["cat" := 1]};
     Search.terms_inv := {[1 := "cat"]};
     Search.postings := {[1 := <[1 := cat_posting]> {[8 := cat_posting]}]};
     Search.doc_lengths :=
       list_to_map [(1, ln4); (2, zero); (3, zero); (4, zero); (5, zero);
                    (6, zero); (7, zero); (8, ln4)];
     Search.total_docs := 8;
     Search.total_terms := 1 |}.

(** The query term ["cat"] as [parse_query] returns it, and its weight in
    the query vector. *)
Definition cat : Search.parsed_term :=
  {| Search.original := "cat"; Search.processed := "cat";
     Search.term_id := 1 |}.

Definition cat_weight : R := (IZR 1 * ln (IZR 8 / IZR 2))%R.

Definition cat_vector : list (Z * R) := [(1, cat_weight)].

(** What the query ["cat"] returns on [tied]. *)
Definition tied_hits : list Search.hit :=
  [{| Search.doc_id := 8; Search.similarity := (ln4 / ln4)%R;
      Search.doc_path := "d8.txt" |};
   {| Search.doc_id := 1; Search.similarity := (ln4 / ln4)%R;
      Search.doc_path := "d1.txt" |}].

(** The same index without the length record of document 8. *)
Definition unmeasured_dir : files :=
  {| documents_dat := documents_dat tied_dir;
     terms_dat := terms_dat tied_dir;
     postings_dat := postings_dat tied_dir;
     doc_lengths_dat :=
       Some (line <$> ["1,1.386294"; "2,0.000000"; "3,0.000000";
                       "4,0.000000"; "5,0.000000"; "6,0.000000";
                       "7,0.000000"]) |}.

Definition unmeasured : Search.engine :=
  {| Search.documents := Search.documents tied;
     Search.documents_inv := Search.documents_inv tied;
     Search.terms := Search.terms tied;
     Search.terms_inv := Search.terms_inv tied;
     Search.postings := Search.postings tied;
     Search.doc_lengths :=
       list_to_map [(1, ln4); (2, zero); (3, zero); (4, zero); (5, zero);
                    (6, zero); (7, zero)];
     Search.total_docs := 8;
     Search.total_terms := 1 |}.

(** An index directory whose term table lists ["cat"] while the postings
    file holds no record. *)
Definition unposted_dir : files :=
  {| documents_dat := Some [line "d1.txt,1"];
     terms_dat := Some [line "cat,1"];
     postings_dat := Some [];
     doc_lengths_dat := Some [line "1,0.000000"] |}.

(** The same directory without its postings file. *)
Definition missing_dir : files :=
  {| documents_dat := Some [line "d1.txt,1"];
     terms_dat := Some [line "cat,1"];
     postings_dat := None;
     doc_lengths_dat := Some [line "1,0.000000"] |}.

(** A corpus with a comma in a document identifier. *)
Definition comma_corpus : list (string * string) := [("cat", "a,b.txt")].

(** The two documents of the scenario of the specification. *)
Definition corpus : list (string * string) :=
  [("cat sat on mat", "A"); ("cat ate rat", "B")].

(** One identifier string handed in twice. *)
Definition repeated : list (string * string) :=
  [("cat", "a"); ("cat", "a")].

(** A single document with a single, repeated term. *)
Definition single : list (string * string) := [("cat cat cat", "a")].

End Sample.

(** ** Notions used to state the properties *)

Module IndexerSpec.
Import Indexer.

(** The postings that belong to document [doc_id], one per term that has
    one. *)
Definition postings_of_doc (ps : gmap Z (gmap Z posting)) (doc_id : Z)
    : list posting :=
  omap (λ item, item.2 !! doc_id) (map_to_list ps).

(** Their weights. *)
Definition weights_of_doc (ps : gmap Z (gmap Z posting)) (doc_id : Z)
    : list R :=
  (λ p, default 0%R (tf_idf p)) <$> postings_of_doc ps doc_id.

(** What holds of the builder after the documents named [paths] have been
    processed: the document table holds exactly these names, identifiers
    were handed out consecutively from 1, every posting is filed under an
    identifier handed out, and no term has an empty posting dictionary. *)
Record built (paths : list string) (self : indexer) : Prop := {
  built_docs : dom (documents self) = list_to_set paths;
  built_next : next_doc_id self = 1 + Z.of_nat (length paths);
  built_ids : ∀ t dp d p,
    postings self !! t = Some dp → dp !! d = Some p →
    1 ≤ d < next_doc_id self;
  built_nonempty : ∀ t dp, postings self !! t = Some dp → dp ≠ ∅
}.

(** The postings of a term with [df] documents after the weight pass over
    a corpus of [N] documents. *)
Definition weigh (N : Z) (doc_postings : gmap Z posting) : gmap Z posting :=
  let df := Z.of_nat (size doc_postings) in
  (λ p, {| tf := tf p;
           tf_idf := Some (IZR (tf p) * ln (IZR N / IZR df))%R;
           idf := Some (ln (IZR N / IZR df));
           df := Some df |}) <$> doc_postings.

End IndexerSpec.

Module SearchSpec.
Import Py Search.

(** The posting of term [t] in document [d], if there is one. *)
Definition posting_at (ps : gmap Z (gmap Z posting)) (t d : Z)
    : option posting :=
  ps !! t ≫= λ doc_postings, doc_postings !! d.

(** Document [d] holds a posting for term [t]. *)
Definition holds_posting (self : engine) (t d : Z) : Prop :=
  is_Some (posting_at (postings self) t d).

(** The component of the [tf_idf] vector of document [d] at term [t]: 0
    where the document has no posting. *)
Definition weight_at (ps : gmap Z (gmap Z posting)) (t d : Z) : R :=
  match posting_at ps t d with
  | Some p => tf_idf p
  | None => 0%R
  end.

(** The dot product of a query vector and the [tf_idf] vector of document
    [d] restricted to the terms of the query. *)
Definition dot_product (ps : gmap Z (gmap Z posting))
    (query_vector : list (Z * R)) (d : Z) : R :=
  foldr (λ item acc, (item.2 * weight_at ps item.1 d + acc)%R) 0%R
        query_vector.

(** The norm of a query vector. *)
Definition norm (query_vector : list (Z * R)) : R :=
  sqrt (sum_squares query_vector.*2).

(** The length that [search] uses for document [d]: the entry of the
    document-length table, 1.0 when there is none. *)
Definition doc_norm (self : engine) (d : Z) : R :=
  default 1%R (doc_lengths self !! d).

(** The quotient that [search] computes for document [d]: the dot
    product over the product of the norm of the query vector and the
    stored length of the document. It is the cosine of the two vectors
    when the stored length is the norm of the vector of the document. *)
Definition stored_cosine (self : engine) (query_vector : list (Z * R))
    (d : Z) : R :=
  (dot_product (postings self) query_vector d
   / (norm query_vector * doc_norm self d))%R.

(** The scoring loop without the state: the hits for the documents in
    [docs], in that order. *)
Fixpoint scored (self : engine) (query_vector : list (Z * R))
    (docs : list Z) : result (list hit) :=
  match docs with
  | [] => Ok []
  | d :: docs' =>
      let s := similarity_of (doc_norm self d) (norm query_vector)
                 (dot_product (postings self) query_vector d) in
      if Rlt_dec 0 s then
        match documents_inv self !! d with
        | Some path =>
            bind (scored self query_vector docs')
                 (λ hits, Ok ({| doc_id := d; similarity := s;
                                 doc_path := path |} :: hits))
        | None => Raise KeyError
        end
      else scored self query_vector docs'
  end.

(** Well-formed records of the four tables: the right number of fields,
    each of which the conversion it goes through accepts. *)
Definition pair_record `{Builtins} (line : string) : Prop :=
  ∃ name id, split comma (strip line) = [name; id] ∧ is_Some (int_of_str id).

Definition posting_record `{Builtins} (line : string) : Prop :=
  ∃ term_id doc_id tf_idf tf idf df,
    split comma (strip line) = [term_id; doc_id; tf_idf; tf; idf; df]
    ∧ is_Some (int_of_str term_id) ∧ is_Some (int_of_str doc_id)
    ∧ is_Some (float_of_str tf_idf) ∧ is_Some (int_of_str tf)
    ∧ is_Some (float_of_str idf) ∧ is_Some (int_of_str df).

Definition length_record `{Builtins} (line : string) : Prop :=
  ∃ doc_id length,
    split comma (strip line) = [doc_id; length]
    ∧ is_Some (int_of_str doc_id) ∧ is_Some (float_of_str length).

(** A table that is present and holds well-formed records only. *)
Definition table_ok (record : string → Prop) (table : option (list string))
    : Prop :=
  ∃ lines, table = Some lines ∧ Forall record lines.

(** Hits of equal similarity stand in ascending order of document
    identifier. *)
Definition ties_ascending (hits : list hit) : Prop :=
  ∀ i j a b, (i < j)%nat → hits !! i = Some a → hits !! j = Some b →
             similarity a = similarity b → doc_id a < doc_id b.

End SearchSpec.

(** ** Further notions and inputs for the properties of the code *)

Module QuerySpec.
Import Py Search.

(** The value stored under [k] in an insertion-ordered counter, 0 when
    there is none. *)
Fixpoint count_of {K} `{EqDecision K} (k : K) (d : list (K * Z)) : Z :=
  match d with
  | [] => 0
  | (k', n) :: d' => if decide (k = k') then n else count_of k d'
  end.

(** The number of occurrences of term [t] among the parsed terms. *)
Definition occurrences (t : Z) (parsed_terms : list parsed_term) : Z :=
  Z.of_nat (length (filter (λ pt, term_id pt = t) parsed_terms)).

(** The inverse document frequency that [build_query_vector] gives a term
    whose postings are [doc_postings]. *)
Definition query_idf (self : engine) (doc_postings : gmap Z posting) : R :=
  if decide (0 < Z.of_nat (size doc_postings))
  then ln (IZR (total_docs self) / IZR (Z.of_nat (size doc_postings)))
  else 0%R.

(** The similarity that the scoring loop computes for document [d]. *)
Definition score (self : engine) (query_vector : list (Z * R)) (d : Z) : R :=
  similarity_of (SearchSpec.doc_norm self d) (SearchSpec.norm query_vector)
    (SearchSpec.dot_product (postings self) query_vector d).

(** The candidate set that [search] computes for a query. *)
Definition candidates `{Collaborators} (self : engine) (query : string)
    : gset Z :=
  (get_documents_with_all_terms self (parse_query self query)).2.

(** The state after the queries of a list, run one after the other. *)
Definition after_queries `{Collaborators} `{Builtins} (self : engine)
    (queries : list (string * Z)) : engine :=
  foldl (λ st q, (search st q.1 q.2).1) self queries.

End QuerySpec.

Module Cases.
Import Py.

(** The saved index of eight documents without its document-length
    file. *)
Definition stale_dir : files :=
  {| documents_dat := documents_dat Sample.tied_dir;
     terms_dat := terms_dat Sample.tied_dir;
     postings_dat := postings_dat Sample.tied_dir;
     doc_lengths_dat := None |}.

(** An engine over two documents that both hold the term ["cat"]. *)
Definition everywhere : Search.engine :=
  {| Search.documents := {["A" := 1; "B" := 2]};
     Search.documents_inv := {[1 := "A"; 2 := "B"]};
     Search.terms := {["cat" := 1]};
     Search.terms_inv := {[1 := "cat"]};
     Search.postings :=
       {[1 := {[1 := {| Search.tf_idf := 0%R; Search.tf := 1;
                        Search.idf := 0%R; Search.df := 2 |};
                2 := {| Search.tf_idf := 0%R; Search.tf := 1;
                        Search.idf := 0%R; Search.df := 2 |}]}]};
     Search.doc_lengths := {[1 := 0%R; 2 := 0%R]};
     Search.total_docs := 2;
     Search.total_terms := 1 |}.

End Cases.

Module Cases2.
Import Py.

(** The index of eight documents of which the document table lost the
    record of document 8, whose postings are still there. *)
Definition pathless : Search.engine :=
  {| Search.documents :=
       list_to_map [("d1.txt", 1); ("d2.txt", 2); ("d3.txt", 3);
                    ("d4.txt", 4); ("d5.txt", 5); ("d6.txt", 6);
                    ("d7.txt", 7)];
     Search.documents_inv :=
       list_to_map [(1, "d1.txt"); (2, "d2.txt"); (3, "d3.txt");
                    (4, "d4.txt"); (5, "d5.txt"); (6, "d6.txt");
                    (7, "d7.txt")];
     Search.terms := Search.terms Sample.tied;
     Search.terms_inv := Search.terms_inv Sample.tied;
     Search.postings := Search.postings Sample.tied;
     Search.doc_lengths := Search.doc_lengths Sample.tied;
     Search.total_docs := 7;
     Search.total_terms := 1 |}.

(** The query vector of ["cat"] on [pathless]. *)
Definition pathless_vector : list (Z * R) :=
  [(1, (IZR 1 * ln (IZR 7 / IZR 2))%R)].

End Cases2.

Module QuerySpec2.
Import Py Search QuerySpec.

(** The entry of the query vector for an entry of the counter of the
    query terms. *)
Definition weighted (self : engine) (item : Z * Z) : option (Z * R) :=
  doc_postings ← postings self !! item.1;
  Some (item.1, (IZR item.2 * query_idf self doc_postings)%R).

(** What [parse_query] makes of one token. *)
Definition parse_token `{Collaborators} (self : engine) (token : string)
    : option parsed_term :=
  stemmed ← process_token token;
  term_id ← terms self !! stemmed;
  Some {| original := token; processed := stemmed; term_id := term_id |}.

(** The tokens that survive the filters and stem to a term of the term
    table. *)
Definition known_tokens `{Collaborators} (self : engine)
    (tokens : list string) : list string :=
  filter (λ token, is_Some (parse_token self token)) tokens.

End QuerySpec2.

Module BuildSpec.
Import Py Indexer.

(** The entry of the postings for term [t] and document [d], if there
    is one. *)
Definition entry_at {V} (ps : gmap Z (gmap Z V)) (t d : Z) : option V :=
  ps !! t ≫= λ doc_postings, doc_postings !! d.

(** The number of tokens of [content] that survive the filters and stem
    to [s]. *)
Definition stem_count `{Collaborators} (content s : string) : Z :=
  Z.of_nat (length (filter (λ token, process_token token = Some s)
                           (splitchars content))).

(** The posting dictionary [{'tf': freq}]. *)
Definition fresh (freq : Z) : posting :=
  {| tf := freq; tf_idf := None; idf := None; df := None |}.

(** The term table and the postings fit together: term identifiers were
    handed out consecutively from 1, no two terms share one, every term
    has postings, and every entry of the postings belongs to a term. *)
Record term_table (self : indexer) : Prop := {
  table_ids : ∀ s id, terms self !! s = Some id →
                      1 ≤ id < next_term_id self;
  table_inj : ∀ s s' id, terms self !! s = Some id →
                         terms self !! s' = Some id → s = s';
  table_posted : ∀ s id, terms self !! s = Some id →
                         ∃ dp, postings self !! id = Some dp ∧ dp ≠ ∅;
  table_named : ∀ t dp, postings self !! t = Some dp →
                        ∃ s, terms self !! s = Some t;
  table_next : next_term_id self = 1 + Z.of_nat (size (terms self))
}.

(** A registered document holds a posting that carries no weight. *)
Definition unweighted (self : indexer) : Prop :=
  ∃ path d t dp p,
    documents self !! path = Some d ∧ postings self !! t = Some dp
    ∧ dp !! d = Some p ∧ tf_idf p = None.

End BuildSpec.

Module RoundTripSpec.
Import Py.

(** No character of [s] is white space or a comma. *)
Fixpoint solid (s : string) : bool :=
  match s with
  | EmptyString => true
  | String c s' =>
      negb (is_space c) && negb (bool_decide (c = comma)) && solid s'
  end.

(** A field that [strip] and [split(',')] leave as it is wherever it
    stands in a record. *)
Definition plain (s : string) : Prop := s ≠ EmptyString ∧ solid s = true.

(** Line feed and carriage return: the characters at which the lines of
    a text file are cut when it is read. *)
Definition line_break (c : ascii) : bool :=
  bool_decide (c = ascii_of_nat 10) || bool_decide (c = ascii_of_nat 13).

Fixpoint one_field (s : string) : bool :=
  match s with
  | EmptyString => true
  | String c s' =>
      negb (bool_decide (c = comma)) && negb (line_break c) && one_field s'
  end.

(** An identifier string or a term that stands as the first field of one
    record: no comma, no line break, and no white space in front, which
    [strip] would take from the record. *)
Definition clean (s : string) : Prop :=
  one_field s = true
  ∧ match s with
    | EmptyString => True
    | String c _ => is_space c = false
    end.

(** The fields [fs] joined by commas, followed by [tail]. *)
Fixpoint join (fs : list string) (tail : string) : string :=
  match fs with
  | [] => tail
  | [f] => f +:+ tail
  | f :: fs' => f +:+ String comma (join fs' tail)
  end.

Section WithBuiltins.
Context `{Builtins}.

(** An integer that is written as one plain field and read back. *)
Definition int_ok (z : Z) : Prop :=
  plain (str_of_int z) ∧ int_of_str (str_of_int z) = Some z.

(** A number whose six-digit form is one plain field that [float]
    accepts. *)
Definition float_ok (x : R) : Prop :=
  plain (format_6f x) ∧ is_Some (float_of_str (format_6f x)).

(** The number read back from the six-digit form of [x]. *)
Definition reread (x : R) : R := default 0%R (float_of_str (format_6f x)).

(** The posting read back from the record of [p]: absent keys were
    written as 0. *)
Definition reload (p : Indexer.posting) : Search.posting :=
  {| Search.tf_idf := reread (default 0%R (Indexer.tf_idf p));
     Search.tf := Indexer.tf p;
     Search.idf := reread (default 0%R (Indexer.idf p));
     Search.df := default 0 (Indexer.df p) |}.

(** Every string and number of the index is written as one field of its
    record. *)
Record writable (self : Indexer.indexer) : Prop := {
  writable_documents : ∀ name id,
    Indexer.documents self !! name = Some id → clean name ∧ int_ok id;
  writable_terms : ∀ term id,
    Indexer.terms self !! term = Some id → clean term ∧ int_ok id;
  writable_postings : ∀ t dp d p,
    Indexer.postings self !! t = Some dp → dp !! d = Some p →
    int_ok t ∧ int_ok d ∧ int_ok (Indexer.tf p)
    ∧ int_ok (default 0 (Indexer.df p))
    ∧ float_ok (default 0%R (Indexer.tf_idf p))
    ∧ float_ok (default 0%R (Indexer.idf p));
  writable_lengths : ∀ d x,
    Indexer.doc_lengths self !! d = Some x → int_ok d ∧ float_ok x
}.
End WithBuiltins.

End RoundTripSpec.

Module Cases3.
Import Py.

Definition cat_posting : Indexer.posting :=
  {| Indexer.tf := 1; Indexer.tf_idf := Some Sample.ln4;
     Indexer.idf := Some Sample.ln4; Indexer.df := Some 2 |}.

(** A builder state whose weights have six decimal digits: two
    documents of eight hold the term ["cat"]. *)
Definition saved : Indexer.indexer :=
  {| Indexer.documents := Search.documents Sample.tied;
     Indexer.terms := {["cat" := 1]};
     Indexer.postings := {[1 := <[1 := cat_posting]> {[8 := cat_posting]}]};
     Indexer.doc_lengths := Search.doc_lengths Sample.tied;
     Indexer.next_doc_id := 9;
     Indexer.next_term_id := 2;
     Indexer.total_docs := 8;
     Indexer.total_terms := 1 |}.

End Cases3.

(** ** [indexer_fixed.py]: cutting the files of a corpus into documents *)

Module Corpus.
Import Py Indexer.

(** [sep in s] for a non-empty [sep]. *)
Fixpoint contains (sep s : string) : bool :=
  String.prefix sep s
  || match s with
     | EmptyString => false
     | String _ s' => contains sep s'
     end.

(** [s.split(sep)] for a non-empty [sep]: the text is cut at the
    occurrences of [sep] found from left to right; [skip] counts the
    characters of a found occurrence that are still to be passed. *)
Fixpoint split_on (sep : string) (skip : nat) (s : string) : list string :=
  match s with
  | EmptyString => [EmptyString]
  | String c s' =>
      match skip with
      | S k => split_on sep k s'
      | O =>
          if String.prefix sep s
          then EmptyString :: split_on sep (String.length sep - 1) s'
          else match split_on sep 0 s' with
               | f :: fs => String c f :: fs
               | [] => [String c EmptyString]
               end
      end
  end.

Definition split_str (sep s : string) : list string := split_on sep 0 s.

(** The document markers tried on a large file, in this order. *)
Definition separators : list string :=
  [".I "; ".T" +:+ newline; ".W" +:+ newline; ".B" +:+ newline;
   ".A" +:+ newline; ".N" +:+ newline; ".X" +:+ newline].

Section WithBuiltins.
Context `{Builtins}.

(** [f"{doc_file}#doc{doc_num}"] *)
Definition numbered (doc_file : string) (doc_num : Z) : string :=
  doc_file +:+ "#doc" +:+ str_of_int doc_num.

(** The loop over [enumerate(docs[1:], 1)]: a piece that is blank after
    [strip] is passed over and keeps its number. *)
Definition cut (doc_file : string) (pieces : list string)
    : list (string * string) :=
  omap (λ item : Z * string,
          if decide (strip item.2 = EmptyString) then None
          else Some (item.2, numbered doc_file item.1))
       (zip (seqZ 1 (Z.of_nat (length pieces))) pieces).

(** The calls of [process_document_content] that [build_index] makes for
    one file that could be read: pairs of content and identifier
    string. *)
Definition documents_of (doc_file content : string)
    : list (string * string) :=
  if decide (100000 < Z.of_nat (String.length content)) then
    match list_find (λ sep, contains sep content = true) separators with
    | Some (_, sep) => cut doc_file (tail (split_str sep content))
    | None => [(content, doc_file)]
    end
  else [(content, doc_file)].

(** [build_index] on the files of the corpus that could be read, each
    with its path and content, in the order of the walk. *)
Definition build_corpus `{Collaborators} (files : list (string * string))
    : result (indexer * bool) :=
  build_index init (files ≫= λ file, documents_of file.1 file.2).
End WithBuiltins.

End Corpus.

Module Cases4.
Import Py.

(** A file of more than 100000 characters: text before the first marker,
    a document, a blank stretch between two markers, and a document. *)
Definition blanks : string :=
  String.concat EmptyString (replicate (Z.to_nat 100000) " ").

Definition large : string :=
  "preface" +:+ ".I " +:+ "cat sat" +:+ ".I " +:+ blanks +:+ ".I " +:+ "dog".

(** A corpus of two files, the second one large. *)
Definition files : list (string * string) :=
  [("a.txt", "cat sat on mat"); ("big.all", large)].

End Cases4.

(** ** [search.py]: printing the results *)

Module Report.
Import Py Search.

(** The formats and the path function used by [print_results], and the
    form in which [search] prints a list of strings: [f"{weight:.3f}"],
    [f"{i:3d}"], [os.path.basename] and [repr]. *)
Class Formats := {
  format_3f : R → string;
  format_3d : Z → string;
  basename : string → string;
  repr_list : list string → string
}.

Section WithFormats.
Context `{Collaborators} `{Builtins} `{Formats}.


(** What is printed is a list of strings, one for each call of
    [print]. *)









End WithFormats.

End Report.

Module ReportSpec.
Import Py Search Report.

Section WithFormats.
Context `{Collaborators} `{Builtins} `{Formats}.



End WithFormats.

End ReportSpec.

Module Cases5.
Import Py.

Definition pad_left (width : nat) (fill s : string) : string :=
  String.concat EmptyString (replicate (width - String.length s)%nat fill)
    +:+ s.

(** The text after the last ["/"]. *)
Fixpoint after_slash (s : string) : string :=
  match s with
  | EmptyString => EmptyString
  | String c s' =>
      if Corpus.contains "/" s' then after_slash s'
      else if bool_decide (c = "/"%char) then s' else s
  end.

(** Three fractional digits, a field of width three, the last
    component of a path written with ["/"], and the words of a list,
    each between single quotes, in brackets: the form of a list of
    words that need no escape. *)
Definition formats : Report.Formats :=
  {| Report.format_3f := λ x,
       let n := Sample.round_half_even (x * 1000) in
       (if Rlt_dec x 0 then "-" else EmptyString)
         +:+ pretty (Z.abs n `div` 1000) +:+ "."
         +:+ pad_left 3 "0" (pretty (Z.abs n `mod` 1000));
     Report.format_3d := λ i, pad_left 3 " " (pretty i);
     Report.basename := after_slash;
     Report.repr_list := λ l,
       "[" +:+ String.concat ", " ((λ s, "'" +:+ s +:+ "'") <$> l)
         +:+ "]" |}.

End Cases5.

Module NormSpec.
Import Py Search.

(** The weight of document [d] under each term of the postings, 0 where
    the term has no posting for it. *)
Definition weight_in (d : Z) (doc_postings : gmap Z posting) : R :=
  match doc_postings !! d with
  | Some p => tf_idf p
  | None => 0%R
  end.

Definition doc_weights (ps : gmap Z (gmap Z posting)) (d : Z) : list R :=
  (λ item, weight_in d item.2) <$> map_to_list ps.

(** The norm of the [tf_idf] vector of document [d]. *)
Definition vector_norm (ps : gmap Z (gmap Z posting)) (d : Z) : R :=
  sqrt (sum_squares (doc_weights ps d)).

(** The cosine of the query vector and the [tf_idf] vector of document
    [d]: the dot product over the product of the two vector norms. *)
Definition vector_cosine (self : engine) (query_vector : list (Z * R))
    (d : Z) : R :=
  (SearchSpec.dot_product (postings self) query_vector d
   / (SearchSpec.norm query_vector * vector_norm (postings self) d))%R.

End NormSpec.

Module Cases6.
Import Py.

(** The parsed term ["sat"]. *)
Definition sat : Search.parsed_term :=
  {| Search.original := "sat"; Search.processed := "sat";
     Search.term_id := 2 |}.

(** The index of eight documents with a second term: ["cat"] occurs in
    documents 1 and 8, ["sat"] in documents 1 and 2. *)
Definition two_terms : Search.engine :=
  {| Search.documents := Search.documents Sample.tied;
     Search.documents_inv := Search.documents_inv Sample.tied;
     Search.terms := {["cat" := 1; "sat" := 2]};
     Search.terms_inv := {[1 := "cat"; 2 := "sat"]};
     Search.postings :=
       {[1 := <[1 := Sample.cat_posting]> {[8 := Sample.cat_posting]};
         2 := <[1 := Sample.cat_posting]> {[2 := Sample.cat_posting]}]};
     Search.doc_lengths := Search.doc_lengths Sample.tied;
     Search.total_docs := 8;
     Search.total_terms := 2 |}.

End Cases6.

(** * Properties *)

(** ** Facts about the run-time helpers *)

Section PyFacts.
Import Py.

Lemma bind_Ok {A B} (r : result A) (k : A → result B) (b : B) :
  bind r k = Ok b ↔ ∃ a, r = Ok a ∧ k a = Ok b.
Proof.
  destruct r as [a|e]; simpl; split.
  - intros Hk. by exists a.
  - by intros (a' & [= <-] & Hk).
  - done.
  - by intros (a' & [=] & _).
Qed.

Lemma log_Ok (x : R) : (0 < x)%R → log x = Ok (ln x).
Proof. intros Hx. unfold log. by destruct (Rlt_dec 0 x). Qed.

Lemma log_Raise (x : R) : (x <= 0)%R → log x = Raise ValueError.
Proof. intros Hx. unfold log. destruct (Rlt_dec 0 x); [lra | done]. Qed.

Lemma getitem_default_lookup {V} (d : gmap Z (gmap Z V)) (k : Z) :
  (getitem_default d k).2 = default ∅ (d !! k).
Proof. unfold getitem_default. by destruct (d !! k). Qed.

Lemma getitem_default_present {V} (d : gmap Z (gmap Z V)) (k : Z) v :
  d !! k = Some v → getitem_default d k = (d, v).
Proof. intros Hk. unfold getitem_default. by rewrite Hk. Qed.

Lemma getitem_default_absent {V} (d : gmap Z (gmap Z V)) (k : Z) :
  d !! k = None → getitem_default d k = (<[k := ∅]> d, ∅).
Proof. intros Hk. unfold getitem_default. by rewrite Hk. Qed.

(** Sums of squares. *)
Lemma sum_squares_acc (ws : list R) (a : R) :
  foldl (λ acc w, (acc + w * w)%R) a ws = (a + sum_squares ws)%R.
Proof.
  unfold sum_squares. revert a.
  induction ws as [|w ws IH]; intros a; simpl; [lra|].
  rewrite (IH (a + w * w)%R), (IH (0 + w * w)%R). lra.
Qed.

Lemma sum_squares_cons (w : R) (ws : list R) :
  sum_squares (w :: ws) = (w * w + sum_squares ws)%R.
Proof.
  unfold sum_squares at 1. simpl. rewrite sum_squares_acc. lra.
Qed.

Lemma sum_squares_nonneg (ws : list R) : (0 <= sum_squares ws)%R.
Proof.
  induction ws as [|w ws IH]; [unfold sum_squares; simpl; lra|].
  rewrite sum_squares_cons. pose proof (Rle_0_sqr w) as Hw.
  unfold Rsqr in Hw. lra.
Qed.

Lemma sum_squares_zero (ws : list R) :
  sum_squares ws = 0%R ↔ Forall (λ w, w = 0%R) ws.
Proof.
  induction ws as [|w ws IH].
  - split; [constructor | done].
  - rewrite sum_squares_cons, Forall_cons.
    pose proof (sum_squares_nonneg ws) as Hws.
    pose proof (Rle_0_sqr w) as Hw. unfold Rsqr in Hw.
    split.
    + intros Hsum. assert (w * w = 0)%R as Hww by lra.
      apply Rmult_integral in Hww. split; [tauto|]. apply IH. lra.
    + intros [-> Hall]. apply IH in Hall. lra.
Qed.

Lemma sqrt_sum_squares_zero (ws : list R) :
  sqrt (sum_squares ws) = 0%R ↔ Forall (λ w, w = 0%R) ws.
Proof.
  rewrite <- sum_squares_zero. split.
  - intros Hs. apply sqrt_eq_0; [apply sum_squares_nonneg | done].
  - intros ->. apply sqrt_0.
Qed.

(** The slice [l[:k]]. *)
Lemma slice_to_prefix {A} (k : Z) (l : list A) : slice_to k l `prefix_of` l.
Proof. unfold slice_to. case_decide; apply prefix_take. Qed.

Lemma slice_to_length {A} (k : Z) (l : list A) :
  0 ≤ k → Z.of_nat (length (slice_to k l)) ≤ k.
Proof.
  intros Hk. unfold slice_to. case_decide; [lia|].
  rewrite length_take. lia.
Qed.

Lemma slice_to_negative_length {A} (k : Z) (l : list A) :
  k < 0 → length (slice_to k l) = Z.to_nat (Z.of_nat (length l) + k).
Proof.
  intros Hk. unfold slice_to. case_decide; [|lia].
  rewrite length_take. lia.
Qed.

(** The stable descending sort. *)
Section SortFacts.
Context {A : Type} (key : A → R).

Lemma insert_desc_perm (x : A) (l : list A) :
  insert_desc key x l ≡ₚ x :: l.
Proof.
  induction l as [|y l IH]; simpl; [done|].
  destruct (Rlt_dec (key x) (key y)); [|done].
  rewrite IH. apply Permutation_swap.
Qed.

Lemma sort_desc_perm (l : list A) : sort_desc key l ≡ₚ l.
Proof.
  induction l as [|x l IH]; simpl; [done|].
  by rewrite insert_desc_perm, IH.
Qed.

Lemma insert_desc_sorted (x : A) (l : list A) :
  StronglySorted (desc key) l → StronglySorted (desc key) (insert_desc key x l).
Proof.
  induction 1 as [|y l Hl IH Hy]; simpl.
  - repeat constructor.
  - destruct (Rlt_dec (key x) (key y)) as [Hlt|Hge].
    + constructor; [done|].
      rewrite insert_desc_perm. constructor; [|done].
      unfold desc. lra.
    + constructor; [by constructor|].
      constructor; [unfold desc; lra|].
      eapply Forall_impl; [exact Hy|]. unfold desc. intros z Hz. lra.
Qed.

Lemma sort_desc_sorted (l : list A) : StronglySorted (desc key) (sort_desc key l).
Proof.
  induction l as [|x l IH]; simpl; [constructor|].
  by apply insert_desc_sorted.
Qed.

(** Stability: the elements of one key value stay in their order. *)
Lemma insert_desc_stable (P : A → Prop) `{∀ a, Decision (P a)} x l :
  (∀ a b, P a → P b → key a = key b) →
  filter P (insert_desc key x l) = filter P (x :: l).
Proof.
  intros Hkey. induction l as [|y l IH]; simpl; [done|].
  destruct (Rlt_dec (key x) (key y)) as [Hlt|Hge]; [|done].
  rewrite filter_cons, IH, !filter_cons.
  destruct (decide (P y)) as [Hy|Hy]; [|done].
  destruct (decide (P x)) as [Hx|Hx]; [|done].
  specialize (Hkey _ _ Hx Hy). lra.
Qed.

Lemma sort_desc_stable (P : A → Prop) `{∀ a, Decision (P a)} l :
  (∀ a b, P a → P b → key a = key b) →
  filter P (sort_desc key l) = filter P l.
Proof.
  intros Hkey. induction l as [|x l IH]; simpl; [done|].
  rewrite insert_desc_stable by done. by rewrite !filter_cons, IH.
Qed.

Lemma sort_desc_constant (l : list A) :
  (∀ a b, a ∈ l → b ∈ l → key a = key b) → sort_desc key l = l.
Proof.
  induction l as [|x l IH]; intros Hkey; simpl; [done|].
  rewrite IH by (intros; apply Hkey; by right).
  destruct l as [|y l]; simpl; [done|].
  destruct (Rlt_dec (key x) (key y)) as [Hlt|]; [|done].
  rewrite (Hkey x y) in Hlt; [lra | by left | right; by left].
Qed.
End SortFacts.
End PyFacts.

(** ** The index builder *)

Section IndexerFacts.
Import Py Indexer IndexerSpec.
Context `{Collaborators}.

Lemma getitem_default_insert {V} (d : gmap Z (gmap Z V)) (k : Z) v :
  <[k := v]> (getitem_default d k).1 = <[k := v]> d.
Proof.
  unfold getitem_default.
  destruct (d !! k); simpl; [done | by rewrite insert_insert_eq].
Qed.

(** What one round of "Update postings" changes. *)
Lemma add_posting_spec (d : Z) (self : indexer) (item : string * Z) :
  documents (add_posting d self item) = documents self
  ∧ next_doc_id (add_posting d self item) = next_doc_id self
  ∧ doc_lengths (add_posting d self item) = doc_lengths self
  ∧ ∃ t, postings (add_posting d self item)
         = <[t := <[d := {| tf := item.2; tf_idf := None;
                             idf := None; df := None |}]>
                    (default ∅ (postings self !! t))]> (postings self).
Proof.
  destruct item as [term freq]. unfold add_posting.
  destruct (terms self !! term) as [id|] eqn:Hterm; simpl.
  - rewrite Hterm. simpl.
    destruct (getitem_default (postings self) id) as [ps dp] eqn:Hget.
    simpl. repeat split. exists id.
    rewrite <- (getitem_default_lookup (postings self) id), Hget. simpl.
    change ps with (ps, dp).1. rewrite <- Hget.
    apply getitem_default_insert.
  - rewrite lookup_insert_eq. simpl.
    destruct (getitem_default (postings self) (next_term_id self))
      as [ps dp] eqn:Hget.
    simpl. repeat split. exists (next_term_id self).
    rewrite <- (getitem_default_lookup (postings self) _), Hget. simpl.
    change ps with (ps, dp).1. rewrite <- Hget.
    apply getitem_default_insert.
Qed.

Lemma add_postings_spec (d : Z) (items : list (string * Z)) (self : indexer) :
  (∀ t dp d' p, postings self !! t = Some dp → dp !! d' = Some p →
                1 ≤ d' < next_doc_id self) →
  (∀ t dp, postings self !! t = Some dp → dp ≠ ∅) →
  1 ≤ d < next_doc_id self →
  let self' := foldl (add_posting d) self items in
  documents self' = documents self
  ∧ next_doc_id self' = next_doc_id self
  ∧ doc_lengths self' = doc_lengths self
  ∧ (∀ t dp d' p, postings self' !! t = Some dp → dp !! d' = Some p →
                  1 ≤ d' < next_doc_id self')
  ∧ (∀ t dp, postings self' !! t = Some dp → dp ≠ ∅).
Proof.
  revert self. induction items as [|item items IH]; intros self Hids Hne Hd.
  - simpl. done.
  - simpl.
    destruct (add_posting_spec d self item) as (Hdoc & Hnext & Hlen & t & Hps).
    destruct (IH (add_posting d self item)) as (Hdoc' & Hnext' & Hlen' & Hrest).
    + intros t' dp d' p. rewrite Hps, Hnext.
      destruct (decide (t = t')) as [<-|Hne'].
      * rewrite lookup_insert_eq. intros [= <-].
        destruct (decide (d = d')) as [<-|Hdd]; [done|].
        rewrite lookup_insert_ne by done.
        destruct (postings self !! t) as [dp0|] eqn:Hdp0; simpl.
        -- intros Hp. by eapply Hids.
        -- by rewrite lookup_empty.
      * rewrite lookup_insert_ne by done. apply Hids.
    + intros t' dp. rewrite Hps.
      destruct (decide (t = t')) as [<-|Hne'].
      * rewrite lookup_insert_eq. intros [= <-]. apply insert_non_empty.
      * rewrite lookup_insert_ne by done. apply Hne.
    + by rewrite Hnext.
    + rewrite Hdoc', Hnext', Hlen', Hdoc, Hnext, Hlen.
      destruct Hrest as [Hids' Hne'].
      split_and!; [done..| |exact Hne'].
      intros t' dp' d' p'. rewrite <- Hnext, <- Hnext'. apply Hids'.
Qed.

(** One call of [process_document_content] on any state: the call
    succeeds with the next identifier and files the name under it. *)
Lemma process_document_content_spec (self : indexer) content doc_path :
  let r := process_document_content self content doc_path in
  r.2 = Some (next_doc_id self)
  ∧ documents r.1 = <[doc_path := next_doc_id self]> (documents self)
  ∧ next_doc_id r.1 = next_doc_id self + 1.
Proof.
  unfold process_document_content. simpl. split; [done|].
  set (self1 := {| documents := _ |}).
  induction (term_freq_of content) as [|item items IH] using rev_ind.
  - done.
  - rewrite foldl_snoc.
    destruct (add_posting_spec (next_doc_id self)
                (foldl (add_posting (next_doc_id self)) self1 items) item)
      as (-> & -> & _). exact IH.
Qed.

Lemma process_document_content_built paths self content doc_path :
  built paths self →
  built (paths ++ [doc_path])
        (process_document_content self content doc_path).1.
Proof.
  intros [Hdocs Hnext Hids Hne].
  unfold process_document_content. simpl.
  set (self1 := {| documents := _ |}).
  destruct (add_postings_spec (next_doc_id self) (term_freq_of content) self1)
    as (Hdoc' & Hnext' & _ & Hids' & Hne').
  - simpl. intros t dp d p Ht Hd. specialize (Hids _ _ _ _ Ht Hd). lia.
  - exact Hne.
  - simpl. lia.
  - split.
    + rewrite Hdoc'. simpl. rewrite dom_insert_L, Hdocs.
      rewrite list_to_set_app_L. simpl.
  rewrite (right_id_L ∅ (∪)). apply (comm_L (∪)).
    + rewrite Hnext'. simpl. rewrite Hnext, length_app. simpl. lia.
    + exact Hids'.
    + exact Hne'.
Qed.

Lemma init_built : built [] init.
Proof. split; simpl; try done; intros ?; by rewrite ?lookup_empty. Qed.

(** The documents of a build, processed in order. *)
Lemma count_document_spec st doc :
  count_document st doc
  = ((process_document_content st.1 doc.1 doc.2).1,
     if decide (next_doc_id st.1 = 0) then st.2 else st.2 + 1).
Proof.
  unfold count_document.
  pose proof (process_document_content_spec st.1 doc.1 doc.2) as (Hr & _ & _).
  destruct (process_document_content st.1 doc.1 doc.2) as [s r].
  simpl in Hr. by subst r.
Qed.

Lemma count_documents_built docs paths self c :
  built paths self →
  built (paths ++ docs.*2) (foldl count_document (self, c) docs).1
  ∧ (foldl count_document (self, c) docs).2 = c + Z.of_nat (length docs).
Proof.
  revert paths self c.
  induction docs as [|[content doc_path] docs IH]; intros paths self c Hb.
  - simpl. rewrite app_nil_r. split; [done | lia].
  - cbn [foldl]. rewrite count_document_spec. cbn [fst snd].
    pose proof (process_document_content_built _ _ content doc_path Hb)
      as Hb'.
    rewrite decide_False by (destruct Hb as [_ Hn _ _]; lia).
    destruct (IH _ _ (c + 1) Hb') as [IH1 IH2].
    rewrite <- (assoc_L (++)) in IH1.
    split; [exact IH1 | rewrite IH2, length_cons; lia].
Qed.

Lemma process_all_built docs :
  built docs.*2 (process_all init docs).1
  ∧ (process_all init docs).2 = Z.of_nat (length docs).
Proof.
  destruct (count_documents_built docs [] init 0 init_built) as [H1 H2].
  split; [exact H1 | unfold process_all; lia].
Qed.

(** A loop that threads a dictionary through fallible steps, when no
    step fails. *)
Lemma foldl_bind_Ok {A B C} (f : B → result C) (fv : B → C)
    (g : A → B → C → A) (l : list B) (x0 : A) :
  (∀ b, b ∈ l → f b = Ok (fv b)) →
  foldl (λ acc b, bind acc (λ x, bind (f b) (λ y, Ok (g x b y)))) (Ok x0) l
  = Ok (foldl (λ x b, g x b (fv b)) x0 l).
Proof.
  revert x0. induction l as [|b l IH]; intros x0 Hf; [done|].
  cbn [foldl]. cbn [bind]. rewrite (Hf b) by left. cbn [bind].
  apply IH. intros b' Hb'. apply Hf. by right.
Qed.

Lemma foldl_insert_lookup {K V W} `{Countable K} (key : W → K) (val : W → V)
    (l : list W) (m0 : gmap K V) (k : K) :
  (∀ a b, a ∈ l → b ∈ l → key a = key b → val a = val b) →
  (∀ a, a ∈ l → key a = k →
        foldl (λ m a, <[key a := val a]> m) m0 l !! k = Some (val a))
  ∧ (k ∉ key <$> l →
     foldl (λ m a, <[key a := val a]> m) m0 l !! k = m0 !! k).
Proof.
  revert m0. induction l as [|a l IH]; intros m0 Hfun.
  - split; [by intros a Ha%elem_of_nil | done].
  - cbn [foldl].
    destruct (IH (<[key a := val a]> m0)) as [IH1 IH2].
    { intros x y Hx Hy. apply Hfun; by right. }
    split.
    + intros b Hb Hk.
      destruct (decide (k ∈ key <$> l)) as [Hin|Hnin].
      * apply list_elem_of_fmap in Hin as (c & -> & Hc).
        rewrite (IH1 c Hc eq_refl). f_equal.
        apply Hfun; [by right | done | done].
      * rewrite (IH2 Hnin).
        apply elem_of_cons in Hb as [->|Hb].
        -- by rewrite Hk, lookup_insert_eq.
        -- destruct Hnin. apply list_elem_of_fmap. by exists b.
    + intros Hnin. rewrite fmap_cons, not_elem_of_cons in Hnin.
      destruct Hnin as [Hne Hnin].
      rewrite (IH2 Hnin). by rewrite lookup_insert_ne.
Qed.

(** *** The first weight pass *)

Lemma weigh_term_Ok (N : Z) (dp : gmap Z posting) :
  (dp ≠ ∅ → 0 < N) → weigh_term N dp = Ok (weigh N dp).
Proof.
  intros HN. unfold weigh_term, weigh.
  case_decide as Hdf.
  - assert (dp = ∅) as -> by (apply map_size_empty_iff; lia).
    by rewrite fmap_empty.
  - assert (dp ≠ ∅) as Hne.
    { intros ->. by rewrite map_size_empty in Hdf. }
    rewrite log_Ok; [done|].
    apply Rdiv_lt_0_compat; apply IZR_lt; [by apply HN | lia].
Qed.

Lemma calculate_tf_idf_Ok (self : indexer) :
  (∀ t dp, postings self !! t = Some dp → dp ≠ ∅ →
           0 < Z.of_nat (size (documents self))) →
  ∃ self', calculate_tf_idf self = Ok self'
    ∧ documents self' = documents self
    ∧ doc_lengths self' = doc_lengths self
    ∧ postings self'
      = weigh (Z.of_nat (size (documents self))) <$> postings self.
Proof.
  intros HN. unfold calculate_tf_idf.
  set (N := Z.of_nat (size (documents self))) in *.
  rewrite (foldl_bind_Ok (λ item, weigh_term N item.2)
             (λ item, weigh N item.2) (λ ps item dp, <[item.1 := dp]> ps)).
  2:{ intros [t dp] Hin%elem_of_map_to_list. simpl.
      apply weigh_term_Ok. by eapply HN. }
  cbn [bind]. eexists. split; [done|]. cbn. split_and!; [done..|].
  apply map_eq. intros t. rewrite lookup_fmap.
  pose proof (foldl_insert_lookup (fst : Z * gmap Z posting → Z)
                (λ item, weigh N item.2) (map_to_list (postings self))
                (postings self) t) as [H1 H2].
  { intros [t1 dp1] [t2 dp2] Hin1%elem_of_map_to_list
           Hin2%elem_of_map_to_list. simpl. intros <-. congruence. }
  destruct (postings self !! t) as [dp|] eqn:Ht; simpl.
  - apply (H1 (t, dp)); [by apply elem_of_map_to_list | done].
  - rewrite H2; [done|].
    intros ([t' dp'] & -> & Hin%elem_of_map_to_list)%list_elem_of_fmap.
    simpl in Ht. congruence.
Qed.

Lemma weigh_lookup_Some (N : Z) (ps : gmap Z (gmap Z posting)) t dp' d p' :
  (weigh N <$> ps) !! t = Some dp' → dp' !! d = Some p' →
  ∃ dp p, ps !! t = Some dp ∧ dp !! d = Some p
    ∧ size dp' = size dp
    ∧ tf p' = tf p
    ∧ df p' = Some (Z.of_nat (size dp))
    ∧ idf p' = Some (ln (IZR N / IZR (Z.of_nat (size dp))))
    ∧ tf_idf p'
      = Some (IZR (tf p) * ln (IZR N / IZR (Z.of_nat (size dp))))%R.
Proof.
  rewrite lookup_fmap. intros (dp & Hdp & ->)%fmap_Some.
  unfold weigh. rewrite lookup_fmap. intros (p & Hp & ->)%fmap_Some.
  exists dp, p. rewrite map_size_fmap. by simpl.
Qed.

(** *** The second weight pass *)

Lemma doc_vector_length_acc (d : Z) (l : list (Z * gmap Z posting)) (a : R) :
  (∀ item p, item ∈ l → item.2 !! d = Some p → is_Some (tf_idf p)) →
  foldl (λ acc item,
           bind acc (λ doc_vector_length,
             match item.2 !! d with
             | Some p =>
                 match tf_idf p with
                 | Some w => Ok (doc_vector_length + w * w)%R
                 | None => Raise KeyError
                 end
             | None => Ok doc_vector_length
             end)) (Ok a) l
  = Ok (a + sum_squares ((λ p, default 0%R (tf_idf p))
                           <$> omap (λ item, item.2 !! d) l))%R.
Proof.
  revert a. induction l as [|item l IH]; intros a Hall.
  - simpl. f_equal. unfold sum_squares. simpl. lra.
  - cbn [foldl bind omap list_omap].
    destruct (item.2 !! d) as [p|] eqn:Hp.
    + destruct (Hall item p) as [w Hw]; [by left | done |].
      rewrite Hw. rewrite IH by (intros; eapply Hall; [by right | done]).
      f_equal. cbn [fmap list_fmap]. rewrite sum_squares_cons, Hw. simpl. lra.
    + apply IH. intros; eapply Hall; [by right | done].
Qed.

Lemma doc_vector_length_Ok (ps : gmap Z (gmap Z posting)) (d : Z) :
  (∀ t dp p, ps !! t = Some dp → dp !! d = Some p → is_Some (tf_idf p)) →
  doc_vector_length ps d = Ok (sum_squares (weights_of_doc ps d)).
Proof.
  intros Hall. unfold doc_vector_length. rewrite doc_vector_length_acc.
  - f_equal. unfold weights_of_doc, postings_of_doc. lra.
  - intros [t dp] p Hin%elem_of_map_to_list. simpl. by apply (Hall t).
Qed.

Lemma calculate_document_lengths_Ok (self : indexer) :
  (∀ t dp d p, postings self !! t = Some dp → dp !! d = Some p →
               is_Some (tf_idf p)) →
  ∃ self', calculate_document_lengths self = Ok self'
    ∧ documents self' = documents self
    ∧ postings self' = postings self
    ∧ (∀ path d, documents self !! path = Some d →
         doc_lengths self' !! d
         = Some (sqrt (sum_squares (weights_of_doc (postings self) d))))
    ∧ (∀ d, (∀ path, documents self !! path ≠ Some d) →
         doc_lengths self' !! d = doc_lengths self !! d).
Proof.
  intros Hall. unfold calculate_document_lengths.
  rewrite (foldl_bind_Ok (λ item, doc_vector_length (postings self) item.2)
             (λ item, sum_squares (weights_of_doc (postings self) item.2))
             (λ lengths item s, <[item.2 := sqrt s]> lengths)).
  2:{ intros item _. apply doc_vector_length_Ok.
      intros t dp p. exact (Hall t dp item.2 p). }
  cbn [bind]. eexists. split; [done|]. cbn. split_and!; [done..| |].
  - intros path d Hd.
    pose proof (foldl_insert_lookup (snd : string * Z → Z)
      (λ item, sqrt (sum_squares (weights_of_doc (postings self) item.2)))
      (map_to_list (documents self)) (doc_lengths self) d) as [H1 _].
    { intros a b _ _. simpl. by intros ->. }
    apply (H1 (path, d)); [by apply elem_of_map_to_list | done].
  - intros d Hd.
    pose proof (foldl_insert_lookup (snd : string * Z → Z)
      (λ item, sqrt (sum_squares (weights_of_doc (postings self) item.2)))
      (map_to_list (documents self)) (doc_lengths self) d) as [_ H2].
    { intros a b _ _. simpl. by intros ->. }
    apply H2.
    intros ([path d'] & -> & Hin%elem_of_map_to_list)%list_elem_of_fmap.
    by apply (Hd path).
Qed.

(** *** Both passes on a built state *)

Lemma built_documents_nonempty paths self t dp :
  built paths self → postings self !! t = Some dp → dp ≠ ∅ →
  0 < Z.of_nat (size (documents self)).
Proof.
  intros [Hdocs Hnext Hids _] Ht Hne.
  apply map_choose in Hne as (d & p & Hd).
  specialize (Hids _ _ _ _ Ht Hd).
  destruct paths as [|path paths]; [simpl in Hnext; lia|].
  assert (path ∈ dom (documents self)) as Hin.
  { rewrite Hdocs. apply elem_of_list_to_set. by left. }
  apply elem_of_dom in Hin as [x Hx].
  assert (size (documents self) ≠ 0%nat); [|lia].
  intros Hsz%map_size_empty_iff. by rewrite Hsz, lookup_empty in Hx.
Qed.

Lemma finalize_built paths self :
  built paths self →
  ∃ self', finalize self = Ok self'
    ∧ documents self' = documents self
    ∧ postings self'
      = weigh (Z.of_nat (size (documents self))) <$> postings self
    ∧ (∀ path d, documents self !! path = Some d →
         doc_lengths self' !! d
         = Some (sqrt (sum_squares (weights_of_doc (postings self') d)))).
Proof.
  intros Hb. unfold finalize.
  destruct (calculate_tf_idf_Ok self) as (self1 & -> & Hd1 & _ & Hp1).
  { intros t dp. by apply built_documents_nonempty with paths. }
  cbn [bind].
  destruct (calculate_document_lengths_Ok self1)
    as (self2 & -> & Hd2 & Hp2 & Hlen & _).
  { intros t dp d p. rewrite Hp1. intros Ht Hd.
    destruct (weigh_lookup_Some _ _ _ _ _ _ Ht Hd)
      as (? & ? & _ & _ & _ & _ & _ & _ & ->). by eexists. }
  exists self2. split; [done|]. rewrite Hd2, Hp2, Hd1, Hp1.
  split_and!; [done..|].
  intros path d Hd. rewrite <- Hp1. apply (Hlen path). by rewrite Hd1.
Qed.

(** [build_index] never raises: it reports [false] on an empty corpus
    and otherwise runs both weight passes to the end. *)
Lemma build_index_total docs :
  ∃ self, build_index init docs = Ok (self, bool_decide (docs ≠ [])).
Proof.
  unfold build_index.
  destruct (process_all_built docs) as [Hb Hn].
  destruct (process_all init docs) as [self1 n]. simpl in Hb, Hn. subst n.
  case_decide as Hz.
  - exists self1. destruct docs; [done | simpl in Hz; lia].
  - destruct (finalize_built _ _ Hb) as (self2 & -> & _). cbn [bind].
    eexists. by rewrite bool_decide_true by (by intros ->).
Qed.

(** *** Document frequency against the number of documents *)

Lemma built_df_le paths self t dp :
  built paths self → postings self !! t = Some dp →
  (size dp ≤ length paths)%nat.
Proof.
  intros [_ Hnext Hids _] Ht.
  assert (size (dom dp) ≤ length (seqZ 1 (Z.of_nat (length paths))))%nat
    as Hle.
  { rewrite <- (size_list_to_set (C := gset Z)) by apply NoDup_seqZ.
    apply subseteq_size. intros d [p Hd]%elem_of_dom.
    apply elem_of_list_to_set, elem_of_seqZ.
    specialize (Hids _ _ _ _ Ht Hd). lia. }
  by rewrite size_dom, length_seqZ, Nat2Z.id in Hle.
Qed.

Lemma built_size_documents paths self :
  built paths self → NoDup paths → size (documents self) = length paths.
Proof.
  intros [Hdocs _ _ _] Hnd.
  by rewrite <- size_dom, Hdocs, size_list_to_set.
Qed.

Lemma ln_ratio_zero (N df : Z) :
  0 < N → 0 < df → ln (IZR N / IZR df) = 0%R ↔ df = N.
Proof.
  intros HN Hdf.
  assert (0 < IZR N)%R as HN' by (by apply IZR_lt).
  assert (0 < IZR df)%R as Hdf' by (by apply IZR_lt).
  split.
  - intros Hln. rewrite <- ln_1 in Hln.
    apply ln_inv in Hln; [|by apply Rdiv_lt_0_compat | lra].
    apply eq_IZR. apply (Rmult_eq_compat_r (IZR df)) in Hln.
    unfold Rdiv in Hln. rewrite Rmult_assoc, Rinv_l in Hln by lra. lra.
  - intros ->. unfold Rdiv. rewrite Rinv_r by lra. apply ln_1.
Qed.

Lemma ratio_above_1 (a b : R) : (0 < b)%R → (b < a)%R → (1 < a / b)%R.
Proof.
  intros Hb Hab.
  replace (a / b)%R with (1 + (a - b) / b)%R by (field; lra).
  assert (0 < (a - b) / b)%R by (apply Rdiv_lt_0_compat; lra). lra.
Qed.

Lemma ratio_below_1 (a b : R) : (0 < b)%R → (a < b)%R → (a / b < 1)%R.
Proof.
  intros Hb Hab.
  replace (a / b)%R with (1 - (b - a) / b)%R by (field; lra).
  assert (0 < (b - a) / b)%R by (apply Rdiv_lt_0_compat; lra). lra.
Qed.

Lemma ln_ratio_nonneg (N df : Z) :
  0 < df → df ≤ N → (0 <= ln (IZR N / IZR df))%R.
Proof.
  intros Hdf Hle.
  destruct (decide (df = N)) as [Heq|Hne].
  - apply ln_ratio_zero in Heq; [lra | lia | lia].
  - assert (0 < IZR df)%R as Hdf' by (by apply IZR_lt).
    assert (IZR df < IZR N)%R as Hlt by (apply IZR_lt; lia).
    rewrite <- ln_1. left. apply ln_increasing; [lra|].
    by apply ratio_above_1.
Qed.

Lemma ln_ratio_negative (N df : Z) :
  0 < N → N < df → (ln (IZR N / IZR df) < 0)%R.
Proof.
  intros HN Hlt.
  assert (0 < IZR N)%R as HN' by (by apply IZR_lt).
  assert (IZR N < IZR df)%R as Hlt' by (by apply IZR_lt).
  rewrite <- ln_1. apply ln_increasing.
  - apply Rdiv_lt_0_compat; lra.
  - apply ratio_below_1; lra.
Qed.

Lemma ln_ratio_positive (N df : Z) :
  0 < df → df < N → (0 < ln (IZR N / IZR df))%R.
Proof.
  intros Hdf Hlt.
  assert (0 < IZR df)%R as Hdf' by (by apply IZR_lt).
  assert (IZR df < IZR N)%R as Hlt' by (by apply IZR_lt).
  rewrite <- ln_1. apply ln_increasing; [lra|]. by apply ratio_above_1.
Qed.

(** What the passes make of one posting of a built state. *)
Lemma finalize_posting paths self self' t dp d p :
  built paths self → finalize self = Ok self' →
  postings self !! t = Some dp → dp !! d = Some p →
  let N := Z.of_nat (size (documents self)) in
  let n := Z.of_nat (size dp) in
  ∃ dp', postings self' !! t = Some dp'
    ∧ size dp' = size dp
    ∧ dp' !! d = Some {| tf := tf p;
                         tf_idf := Some (IZR (tf p) * ln (IZR N / IZR n))%R;
                         idf := Some (ln (IZR N / IZR n));
                         df := Some n |}.
Proof.
  intros Hb Hfin Ht Hd N n.
  destruct (finalize_built _ _ Hb) as (self'' & Hfin' & _ & Hps & _).
  rewrite Hfin in Hfin'. injection Hfin' as <-.
  exists (weigh N dp). rewrite Hps, lookup_fmap, Ht. split; [done|].
  unfold weigh. by rewrite map_size_fmap, lookup_fmap, Hd.
Qed.

Lemma finalize_documents paths self self' :
  built paths self → finalize self = Ok self' →
  documents self' = documents self.
Proof.
  intros Hb Hfin.
  destruct (finalize_built _ _ Hb) as (self'' & Hfin' & Hdocs & _).
  rewrite Hfin in Hfin'. by injection Hfin' as <-.
Qed.

Lemma elem_of_postings_of_doc (ps : gmap Z (gmap Z posting)) d p :
  p ∈ postings_of_doc ps d ↔ ∃ t dp, ps !! t = Some dp ∧ dp !! d = Some p.
Proof.
  unfold postings_of_doc. rewrite list_elem_of_omap. split.
  - intros ([t dp] & Hin%elem_of_map_to_list & Hp). by exists t, dp.
  - intros (t & dp & Ht & Hp). exists (t, dp).
    by rewrite elem_of_map_to_list.
Qed.

Lemma elem_of_weights_of_doc (ps : gmap Z (gmap Z posting)) d w :
  w ∈ weights_of_doc ps d ↔
  ∃ t dp p, ps !! t = Some dp ∧ dp !! d = Some p
            ∧ w = default 0%R (tf_idf p).
Proof.
  unfold weights_of_doc. rewrite list_elem_of_fmap. split.
  - intros (p & -> & (t & dp & Ht & Hp)%elem_of_postings_of_doc).
    by exists t, dp, p.
  - intros (t & dp & p & Ht & Hp & ->). exists p. split; [done|].
    apply elem_of_postings_of_doc. by exists t, dp.
Qed.

(** The scenario of the specification: when every term occurs in every
    document, every document has norm 0. *)
Lemma norm_zero_when_terms_everywhere paths self self' :
  built paths self → finalize self = Ok self' →
  (∀ t dp, postings self !! t = Some dp → size dp = size (documents self)) →
  ∀ path d, documents self !! path = Some d →
            doc_lengths self' !! d = Some 0%R.
Proof.
  intros Hb Hfin Hall path d Hd.
  destruct (finalize_built _ _ Hb) as (self'' & Hfin' & _ & Hps & Hlen).
  rewrite Hfin in Hfin'. injection Hfin' as <-.
  rewrite (Hlen path d Hd). f_equal.
  apply sqrt_sum_squares_zero, Forall_forall.
  intros w (t & dp' & p' & Ht & Hp & ->)%elem_of_weights_of_doc.
  rewrite Hps in Ht.
  destruct (weigh_lookup_Some _ _ _ _ _ _ Ht Hp)
    as (dp & p & Hdp & Hp0 & _ & _ & _ & _ & ->).
  simpl. rewrite (Hall _ _ Hdp).
  assert (dp ≠ ∅) as Hne by (intros ->; by rewrite lookup_empty in Hp0).
  pose proof (built_documents_nonempty _ _ _ _ Hb Hdp Hne) as HN.
  assert (ln (IZR (Z.of_nat (size (documents self)))
              / IZR (Z.of_nat (size (documents self)))) = 0%R) as ->.
  { by apply ln_ratio_zero. }
  lra.
Qed.

(** *** Claims about the builder *)

(** C6 (as amended). A document whose identifier string is already
    registered is processed like any other: the call succeeds and returns
    the next document identifier, the entry of the document table for that
    string is overwritten with the new identifier, the other entries are
    kept, and the counter advances. There is no [DuplicateDocument]
    failure. *)
Theorem C6_registered_identifier_is_overwritten self content doc_path old :
  documents self !! doc_path = Some old →
  let r := process_document_content self content doc_path in
  r.2 = Some (next_doc_id self)
  ∧ documents r.1 !! doc_path = Some (next_doc_id self)
  ∧ (∀ other, other ≠ doc_path →
       documents r.1 !! other = documents self !! other)
  ∧ next_doc_id r.1 = next_doc_id self + 1.
Proof.
  intros _ r.
  destruct (process_document_content_spec self content doc_path)
    as (Hr & Hdocs & Hnext).
  fold r in Hr, Hdocs, Hnext. rewrite Hdocs.
  split_and!; [done | by rewrite lookup_insert_eq | | done].
  intros other Hne. by rewrite lookup_insert_ne.
Qed.

(** C5 (as amended). After both weight passes over any sequence of
    documents, every posting of every term carries [df], the number of
    documents holding a posting for the term, and [idf = ln (N / df)] with
    [N] the size of the document table, without smoothing; [idf = 0]
    exactly when [df = N]; and [idf ≥ 0] when no identifier string was
    handed in twice. *)
Theorem C5_idf_after_finalize docs :
  ∃ self', finalize (process_all init docs).1 = Ok self'
    ∧ ∀ t dp d p,
        postings self' !! t = Some dp → dp !! d = Some p →
        let N := Z.of_nat (size (documents self')) in
        let n := Z.of_nat (size dp) in
        df p = Some n
        ∧ idf p = Some (ln (IZR N / IZR n))
        ∧ tf_idf p = Some (IZR (tf p) * ln (IZR N / IZR n))%R
        ∧ (ln (IZR N / IZR n) = 0%R ↔ n = N)
        ∧ (NoDup docs.*2 → (0 <= ln (IZR N / IZR n))%R).
Proof.
  destruct (process_all_built docs) as [Hb _].
  destruct (finalize_built _ _ Hb) as (self' & Hfin & Hdocs & Hps & _).
  exists self'. split; [done|].
  intros t dp' d p' Ht Hd N n. subst N n. rewrite Hdocs.
  rewrite Hps in Ht.
  destruct (weigh_lookup_Some _ _ _ _ _ _ Ht Hd)
    as (dp & p & Hdp & Hp & -> & Htf & Hdf & Hidf & Hw).
  assert (dp ≠ ∅) as Hne by (intros ->; by rewrite lookup_empty in Hp).
  pose proof (built_documents_nonempty _ _ _ _ Hb Hdp Hne) as HN.
  assert (0 < Z.of_nat (size dp)) as Hpos.
  { assert (size dp ≠ 0%nat); [|lia].
    by intros ?%map_size_empty_iff. }
  split_and!; [done | done | by rewrite Htf | by apply ln_ratio_zero |].
  intros Hnd. apply ln_ratio_nonneg; [done|].
  rewrite (built_size_documents _ _ Hb Hnd).
  pose proof (built_df_le _ _ _ _ Hb Hdp) as Hle.
  rewrite length_fmap in Hle |- *. lia.
Qed.

(** The document lengths are written by the second weight pass only. *)
Lemma process_document_content_lengths self content doc_path :
  doc_lengths (process_document_content self content doc_path).1
  = doc_lengths self.
Proof.
  unfold process_document_content. cbn [fst].
  set (self1 := {| documents := _ |}).
  induction (term_freq_of content) as [|item items IH] using rev_ind;
    [done|].
  rewrite foldl_snoc.
  destruct (add_posting_spec (next_doc_id self)
              (foldl (add_posting (next_doc_id self)) self1 items) item)
    as (_ & _ & -> & _).
  exact IH.
Qed.

Lemma count_documents_lengths docs self c :
  doc_lengths (foldl count_document (self, c) docs).1 = doc_lengths self.
Proof.
  revert self c. induction docs as [|doc docs IH]; intros self c; [done|].
  cbn [foldl]. rewrite count_document_spec, IH. cbn [fst].
  apply process_document_content_lengths.
Qed.

(** An identifier that the document table does not hold gets no length
    from the passes. *)
Lemma finalize_unregistered paths self self' d :
  built paths self → finalize self = Ok self' →
  (∀ path, documents self !! path ≠ Some d) →
  doc_lengths self' !! d = doc_lengths self !! d.
Proof.
  intros Hb Hfin Hd. unfold finalize in Hfin.
  destruct (calculate_tf_idf_Ok self) as (self1 & H1 & Hd1 & Hl1 & Hp1).
  { intros t dp. by apply built_documents_nonempty with paths. }
  rewrite H1 in Hfin. cbn [bind] in Hfin.
  destruct (calculate_document_lengths_Ok self1)
    as (self2 & H2 & _ & _ & _ & Hout).
  { intros t dp d' p. rewrite Hp1. intros Ht Hd'.
    destruct (weigh_lookup_Some _ _ _ _ _ _ Ht Hd')
      as (? & ? & _ & _ & _ & _ & _ & _ & ->). by eexists. }
  rewrite Hfin in H2. injection H2 as <-.
  rewrite <- Hl1. apply Hout. intros path. rewrite Hd1. apply Hd.
Qed.

(** C4 (as amended). After both weight passes over any sequence of
    documents, every posting carries a weight, and every document
    identifier that the document table holds has a norm: the square root
    of the sum of the squares of the [tf_idf] weights of its postings.
    The norm is non-negative; it is 0 exactly when all these weights are
    0, which includes the document without postings. An identifier that
    the document table does not hold, as that of a document whose
    identifier string was handed in again later, has no norm, whatever
    postings are filed under it. *)
Theorem C4_document_norms docs :
  ∃ self', finalize (process_all init docs).1 = Ok self'
    ∧ (∀ d, Forall (λ p, is_Some (tf_idf p))
                   (postings_of_doc (postings self') d))
    ∧ (∀ path d, documents self' !! path = Some d →
        ∃ norm, doc_lengths self' !! d = Some norm
          ∧ norm = sqrt (sum_squares (weights_of_doc (postings self') d))
          ∧ (0 <= norm)%R
          ∧ (norm = 0%R ↔
             Forall (λ w, w = 0%R) (weights_of_doc (postings self') d))
          ∧ (postings_of_doc (postings self') d = [] → norm = 0%R))
    ∧ (∀ d, (∀ path, documents self' !! path ≠ Some d) →
            doc_lengths self' !! d = None).
Proof.
  destruct (process_all_built docs) as [Hb _].
  destruct (finalize_built _ _ Hb) as (self' & Hfin & Hdocs & Hps & Hlen).
  exists self'. split_and!; [done| | |].
  3:{ intros d Hd.
      rewrite (finalize_unregistered _ _ _ d Hb Hfin)
        by (by rewrite <- Hdocs).
      unfold process_all. by rewrite count_documents_lengths. }
  - intros d. apply Forall_forall.
    intros p (t & dp & Ht & Hp)%elem_of_postings_of_doc.
    rewrite Hps in Ht.
    destruct (weigh_lookup_Some _ _ _ _ _ _ Ht Hp)
      as (? & ? & _ & _ & _ & _ & _ & _ & ->). by eexists.
  - intros path d Hd. rewrite Hdocs in Hd.
    eexists. split; [by apply (Hlen path)|].
    split_and!; [done | apply sqrt_pos | apply sqrt_sum_squares_zero |].
    intros Hnone. apply sqrt_sum_squares_zero.
    unfold weights_of_doc. rewrite Hnone. constructor.
Qed.

End IndexerFacts.


(** ** Worked examples for the builder *)

Section IndexerExamples.
Import Py Indexer IndexerSpec.
#[local] Existing Instance Sample.text.

(** C6, the claim as stated fails: the second call with the identifier
    string ["a"] does not fail; it returns the new identifier 2 and the
    table entry of ["a"] changes from 1 to 2. *)
Lemma C6_counterexample :
  let first := process_document_content init "cat sat on mat" "a" in
  let second := process_document_content first.1 "cat ate rat" "a" in
  documents first.1 !! "a" = Some 1
  ∧ second.2 = Some 2
  ∧ documents second.1 !! "a" = Some 2.
Proof. vm_compute. done. Qed.

Lemma C6_witness :
  let self := (process_document_content init "cat sat on mat" "a").1 in
  documents self !! "a" = Some 1
  ∧ let r := process_document_content self "cat ate rat" "a" in
    r.2 = Some (next_doc_id self)
    ∧ documents r.1 !! "a" = Some (next_doc_id self)
    ∧ (∀ other, other ≠ "a" →
         documents r.1 !! other = documents self !! other)
    ∧ next_doc_id r.1 = next_doc_id self + 1.
Proof.
  intros self.
  assert (documents self !! "a" = Some 1) as Hreg by (vm_compute; done).
  split; [exact Hreg|].
  exact (C6_registered_identifier_is_overwritten self "cat ate rat" "a" 1 Hreg).
Defined.

(** C5, the claim as stated fails: when the identifier string ["a"] is
    handed in twice, the document table holds one entry, the term occurs
    under two document identifiers, and its [idf] is [ln (1 / 2) < 0]. *)
Lemma C5_counterexample :
  ∃ self' dp p r,
    finalize (process_all init Sample.repeated).1 = Ok self'
    ∧ postings self' !! 1 = Some dp ∧ dp !! 1 = Some p
    ∧ idf p = Some r ∧ (r < 0)%R.
Proof.
  destruct (process_all_built Sample.repeated) as [Hb _].
  destruct (finalize_built _ _ Hb) as (self' & Hfin & _).
  assert (∃ dp p, postings (process_all init Sample.repeated).1 !! 1 = Some dp
                  ∧ dp !! 1 = Some p ∧ size dp = 2%nat) as (dp & p & Ht & Hd & Hn).
  { vm_compute. eexists _, _. split_and!; reflexivity. }
  assert (size (documents (process_all init Sample.repeated).1) = 1%nat)
    as HN by (vm_compute; done).
  destruct (finalize_posting _ _ _ _ _ _ _ Hb Hfin Ht Hd) as (dp' & Ht' & _ & Hd').
  rewrite HN, Hn in Hd'.
  eexists self', dp', _, _. split_and!; [done | done | exact Hd' | done |].
  simpl. by apply (ln_ratio_negative 1 2).
Qed.

Lemma C5_witness :
  ∃ self', finalize (process_all init Sample.corpus).1 = Ok self'
    ∧ ∃ dp p, postings self' !! 2 = Some dp ∧ dp !! 1 = Some p
      ∧ NoDup Sample.corpus.*2
      ∧ df p = Some (Z.of_nat (size dp))
      ∧ (0 <= ln (IZR (Z.of_nat (size (documents self')))
                  / IZR (Z.of_nat (size dp))))%R.
Proof.
  destruct (C5_idf_after_finalize Sample.corpus) as (self' & Hfin & Hall).
  exists self'. split; [exact Hfin|].
  destruct (process_all_built Sample.corpus) as [Hb _].
  assert (∃ dp p, postings (process_all init Sample.corpus).1 !! 2 = Some dp
                  ∧ dp !! 1 = Some p) as (dp & p & Ht & Hd).
  { vm_compute. eexists _, _. split; reflexivity. }
  destruct (finalize_posting _ _ _ _ _ _ _ Hb Hfin Ht Hd) as (dp' & Ht' & _ & Hd').
  assert (NoDup Sample.corpus.*2) as Hnd by compute_done.
  destruct (Hall 2 dp' 1 _ Ht' Hd') as (Hdf & _ & _ & _ & Hge).
  eexists dp', _. split_and!; [exact Ht' | exact Hd' | exact Hnd | exact Hdf |].
  exact (Hge Hnd).
Defined.

(** C4, the claim as stated fails: the only document of the corpus holds
    a posting for its term, whose weight is [3 * ln (1 / 1) = 0], and its
    norm is 0. *)
Lemma C4_counterexample :
  ∃ self', finalize (process_all init Sample.single).1 = Ok self'
    ∧ documents self' !! "a" = Some 1
    ∧ doc_lengths self' !! 1 = Some 0%R
    ∧ postings_of_doc (postings self') 1 ≠ [].
Proof.
  destruct (process_all_built Sample.single) as [Hb _].
  destruct (finalize_built _ _ Hb) as (self' & Hfin & Hdocs & _).
  assert (documents (process_all init Sample.single).1 !! "a" = Some 1)
    as Hdoc by (vm_compute; done).
  assert (postings (process_all init Sample.single).1
          = {[1 := {[1 := {| tf := 3; tf_idf := None;
                             idf := None; df := None |}]}]}) as Hps.
  { vm_compute. reflexivity. }
  exists self'. split_and!; [done | by rewrite Hdocs | |].
  - apply (norm_zero_when_terms_everywhere _ _ _ Hb Hfin) with "a"; [|done].
    intros t dp. rewrite Hps. intros [_ <-]%lookup_singleton_Some.
    vm_compute. done.
  - destruct (finalize_posting _ _ _ 1 {[1 := {| tf := 3; tf_idf := None;
                             idf := None; df := None |}]} 1
                {| tf := 3; tf_idf := None; idf := None; df := None |}
                Hb Hfin)
      as (dp' & Ht' & _ & Hd').
    { by rewrite Hps, lookup_singleton_eq. }
    { by rewrite lookup_singleton_eq. }
    intros Hnil.
    eapply (elem_of_nil (A := posting)). rewrite <- Hnil.
    apply elem_of_postings_of_doc. eauto.
Qed.

(** C4 on the two documents of the scenario, and on the identifier
    string handed in twice: document 1 of that corpus keeps its posting
    and has no norm. *)
Lemma C4_witness :
  (∃ self', finalize (process_all init Sample.corpus).1 = Ok self'
     ∧ documents self' !! "A" = Some 1
     ∧ ∃ norm, doc_lengths self' !! 1 = Some norm
       ∧ norm = sqrt (sum_squares (weights_of_doc (postings self') 1))
       ∧ (0 <= norm)%R)
  ∧ (∃ self', finalize (process_all init Sample.repeated).1 = Ok self'
       ∧ postings_of_doc (postings self') 1 ≠ []
       ∧ doc_lengths self' !! 1 = None).
Proof.
  split.
  - destruct (C4_document_norms Sample.corpus)
      as (self' & Hfin & _ & Hall & _).
    exists self'. split; [exact Hfin|].
    destruct (process_all_built Sample.corpus) as [Hb _].
    assert (documents self' !! "A" = Some 1) as Hdoc.
    { rewrite (finalize_documents _ _ _ Hb Hfin). vm_compute. done. }
    split; [exact Hdoc|].
    destruct (Hall "A" 1 Hdoc) as (norm & Hlen & Hnorm & Hge & _).
    exists norm. split_and!; [exact Hlen | exact Hnorm | exact Hge].
  - destruct (C4_document_norms Sample.repeated)
      as (self' & Hfin & _ & _ & Hnone).
    exists self'. split; [exact Hfin|].
    destruct (process_all_built Sample.repeated) as [Hb _].
    split.
    + assert (∃ dp p,
                postings (process_all init Sample.repeated).1 !! 1 = Some dp
                ∧ dp !! 1 = Some p) as (dp & p & Ht & Hd).
      { vm_compute. eexists _, _. split; reflexivity. }
      destruct (finalize_posting _ _ _ _ _ _ _ Hb Hfin Ht Hd)
        as (dp' & Ht' & _ & Hd').
      intros Hnil. eapply (elem_of_nil (A := posting)). rewrite <- Hnil.
      apply elem_of_postings_of_doc. eauto.
    + apply Hnone. intros path.
      rewrite (finalize_documents _ _ _ Hb Hfin).
      assert (documents (process_all init Sample.repeated).1
              = {["a" := 2]}) as -> by (vm_compute; reflexivity).
      intros [_ ?]%lookup_singleton_Some. done.
Defined.
End IndexerExamples.


(** ** The query engine *)

Section SearchFacts.
Import Py Search SearchSpec.
Context `{Collaborators} `{Builtins}.

(** *** Candidate filtering *)

Lemma posting_at_getitem_default (ps : gmap Z (gmap Z posting)) k t d :
  posting_at (getitem_default ps k).1 t d = posting_at ps t d.
Proof.
  unfold getitem_default, posting_at.
  destruct (ps !! k) as [dp|] eqn:Hk; simpl; [done|].
  destruct (decide (k = t)) as [->|Hne].
  - by rewrite lookup_insert_eq, Hk.
  - by rewrite lookup_insert_ne.
Qed.

Lemma intersect_terms_spec (ps : gmap Z (gmap Z posting)) rest cand d :
  d ∈ intersect_terms ps rest cand ↔
  d ∈ cand ∧ ∀ ti, ti ∈ rest → is_Some (posting_at ps (term_id ti) d).
Proof.
  revert cand. induction rest as [|ti rest IH]; intros cand; simpl.
  - split; [|tauto]. intros Hd. split; [done|]. by intros ti Hti%elem_of_nil.
  - destruct (ps !! term_id ti) as [dp|] eqn:Hti.
    + rewrite IH, elem_of_intersection, elem_of_dom. split.
      * intros [[Hc Hdp] Hrest]. split; [done|].
        intros ti' [->|Hin]%elem_of_cons; [|by apply Hrest].
        unfold posting_at. by rewrite Hti.
      * intros [Hc Hall]. split_and!; [done| |].
        -- specialize (Hall ti (list_elem_of_here _ _)).
           unfold posting_at in Hall. by rewrite Hti in Hall.
        -- intros ti' Hin. apply Hall. by right.
    + split; [by intros ?%elem_of_empty|].
      intros [_ Hall]. specialize (Hall ti (list_elem_of_here _ _)).
      unfold posting_at in Hall. rewrite Hti in Hall.
      by destruct Hall.
Qed.

Lemma get_documents_with_all_terms_spec self parsed_terms d :
  parsed_terms ≠ [] →
  d ∈ (get_documents_with_all_terms self parsed_terms).2 ↔
  ∀ ti, ti ∈ parsed_terms → holds_posting self (term_id ti) d.
Proof.
  intros Hne. destruct parsed_terms as [|first rest]; [done|].
  unfold get_documents_with_all_terms, holds_posting.
  pose proof (getitem_default_lookup (postings self) (term_id first)) as Hv.
  pose proof (posting_at_getitem_default (postings self) (term_id first))
    as Hat.
  destruct (getitem_default (postings self) (term_id first)) as [ps dp].
  simpl in Hv, Hat |- *. subst dp.
  rewrite intersect_terms_spec, elem_of_dom.
  assert (is_Some (default ∅ (postings self !! term_id first) !! d)
          ↔ is_Some (posting_at (postings self) (term_id first) d)) as ->.
  { unfold posting_at.
    destruct (postings self !! term_id first); simpl; [done|].
    by rewrite lookup_empty. }
  split.
  - intros [Hfirst Hrest] ti [->|Hin]%elem_of_cons; [done|].
    rewrite <- Hat. by apply Hrest.
  - intros Hall. split; [apply Hall; by left|].
    intros ti Hin. rewrite Hat. apply Hall. by right.
Qed.

(** C2 (as amended). A document is in the candidate set exactly when
    the query has a surviving term and the document holds a posting for
    every surviving term. With no surviving term the candidate set is
    empty. If a surviving term has no postings at all, the candidate set
    is empty. The candidate set does not depend on the order of the
    terms. *)
Theorem C2_candidates_conjunctive self parsed_terms :
  let candidate_docs := (get_documents_with_all_terms self parsed_terms).2 in
  (∀ d, d ∈ candidate_docs ↔
        parsed_terms ≠ []
        ∧ ∀ ti, ti ∈ parsed_terms → holds_posting self (term_id ti) d)
  ∧ (parsed_terms = [] → candidate_docs = ∅)
  ∧ (∀ ti, ti ∈ parsed_terms →
       (∀ d, ¬ holds_posting self (term_id ti) d) → candidate_docs = ∅)
  ∧ (∀ reordered, reordered ≡ₚ parsed_terms →
       (get_documents_with_all_terms self reordered).2 = candidate_docs).
Proof.
  intros candidate_docs. subst candidate_docs.
  destruct (decide (parsed_terms = [])) as [->|Hne].
  { split_and!.
    - intros d. split; [by intros ?%elem_of_empty | by intros [? _]].
    - done.
    - by intros ti ?%elem_of_nil.
    - intros reordered Hperm. symmetry in Hperm.
      by apply Permutation_nil in Hperm as ->. }
  split_and!.
  - intros d. rewrite get_documents_with_all_terms_spec by done.
    split; [by split | by intros [_ ?]].
  - done.
  - intros ti Hin Hnone. apply set_eq. intros d.
    rewrite get_documents_with_all_terms_spec by done.
    split; [|by intros ?%elem_of_empty].
    intros Hall. destruct (Hnone d). by apply Hall.
  - intros reordered Hperm. apply set_eq. intros d.
    assert (reordered ≠ []) as Hne'.
    { intros ->. by apply Permutation_nil in Hperm. }
    rewrite !get_documents_with_all_terms_spec by done.
    by setoid_rewrite Hperm.
Qed.
(** *** The query vector *)

Lemma add_weight_Raise self e l :
  foldl (add_weight self) (Raise e) l = Raise e.
Proof. induction l as [|item l IH]; [done | exact IH]. Qed.

Lemma add_weights_keys self l acc qv :
  foldl (add_weight self) (Ok acc) l = Ok qv →
  (∀ t, t ∈ acc.*1 → is_Some (postings self !! t)) →
  ∀ t, t ∈ qv.*1 → is_Some (postings self !! t).
Proof.
  revert acc. induction l as [|item l IH]; intros acc; cbn [foldl].
  - by intros [= <-].
  - unfold add_weight at 2. cbn [bind].
    destruct (postings self !! item.1) as [dp|] eqn:Hdp; [|apply IH].
    destruct (if decide (0 < Z.of_nat (size dp)) then _ else _)
      as [idf|e]; cbn [bind].
    + intros Hq Hacc. apply (IH _ Hq).
      intros t. rewrite fmap_app, elem_of_app. simpl.
      intros [Ht|Ht%list_elem_of_singleton]; [by apply Hacc|].
      subst t. by rewrite Hdp.
    + by rewrite add_weight_Raise.
Qed.

Lemma build_query_vector_keys self parsed_terms query_vector :
  build_query_vector self parsed_terms = Ok query_vector →
  ∀ t, t ∈ query_vector.*1 → is_Some (postings self !! t).
Proof.
  intros Hq. apply (add_weights_keys _ _ _ _ Hq).
  by intros t Ht%elem_of_nil.
Qed.

(** *** The scoring loop *)

Lemma set_postings_same self : set_postings self (postings self) = self.
Proof. by destruct self. Qed.

Lemma doc_vector_of_present (ps : gmap Z (gmap Z posting)) d qv
    (dv0 : gmap Z R) :
  (∀ t, t ∈ qv.*1 → is_Some (ps !! t)) →
  ∃ dv : gmap Z R,
    foldl (add_component d) (ps, dv0) qv = (ps, dv)
    ∧ ∀ t, dv !! t
           = match (if decide (t ∈ qv.*1) then posting_at ps t d else None)
             with
             | Some p => Some (tf_idf p)
             | None => dv0 !! t
             end.
Proof.
  revert dv0. induction qv as [|item qv IH]; intros dv0 Hkeys.
  - exists dv0. split; [done|]. intros t.
    rewrite decide_False; [done|]. by intros ?%elem_of_nil.
  - cbn [foldl]. unfold add_component at 2. cbn [fst snd].
    destruct (Hkeys item.1) as [dp Hdp]; [rewrite fmap_cons; by left|].
    rewrite (getitem_default_present _ _ _ Hdp).
    assert (∀ t, t ∈ qv.*1 → is_Some (ps !! t)) as Hkeys'.
    { intros t Ht. apply Hkeys. rewrite fmap_cons. by right. }
    destruct (dp !! d) as [p|] eqn:Hp.
    + destruct (IH (<[item.1 := tf_idf p]> dv0) Hkeys') as (dv & -> & Hdv).
      exists dv. split; [done|]. intros t. rewrite Hdv, fmap_cons.
      destruct (decide (t ∈ qv.*1)) as [Hin|Hnin].
      * rewrite decide_True by (by right).
        destruct (posting_at ps t d) eqn:Hat; [done|].
        destruct (decide (item.1 = t)) as [<-|Hne].
        -- unfold posting_at in Hat. rewrite Hdp in Hat. simpl in Hat.
           congruence.
        -- by rewrite lookup_insert_ne.
      * destruct (decide (item.1 = t)) as [<-|Hne].
        -- rewrite decide_True by (by left).
           unfold posting_at. rewrite Hdp. simpl. rewrite Hp.
           by rewrite lookup_insert_eq.
        -- rewrite decide_False; [by rewrite lookup_insert_ne|].
           intros [?|?]%elem_of_cons; congruence.
    + destruct (IH dv0 Hkeys') as (dv & -> & Hdv).
      exists dv. split; [done|]. intros t. rewrite Hdv, fmap_cons.
      destruct (decide (t ∈ qv.*1)) as [Hin|Hnin].
      * by rewrite decide_True by (by right).
      * destruct (decide (item.1 = t)) as [<-|Hne].
        -- rewrite decide_True by (by left).
           unfold posting_at. rewrite Hdp. simpl. by rewrite Hp.
        -- rewrite decide_False; [done|].
           intros [?|?]%elem_of_cons; congruence.
Qed.

Lemma dot_product_of_spec (ps : gmap Z (gmap Z posting)) d qv
    (dv : gmap Z R) (a : R) :
  (∀ t, t ∈ qv.*1 → dv !! t = tf_idf <$> posting_at ps t d) →
  foldl (add_product dv) a qv = (a + dot_product ps qv d)%R.
Proof.
  revert a. induction qv as [|item qv IH]; intros a Hdv.
  - simpl. lra.
  - cbn [foldl]. rewrite IH.
    2:{ intros t Ht. apply Hdv. rewrite fmap_cons. by right. }
    unfold add_product.
    rewrite (Hdv item.1) by (rewrite fmap_cons; by left).
    unfold dot_product at 2. cbn [foldr]. fold (dot_product ps qv d).
    unfold weight_at. destruct (posting_at ps item.1 d); simpl; lra.
Qed.

Lemma score_doc_pure self qv results d :
  (∀ t, t ∈ qv.*1 → is_Some (postings self !! t)) →
  score_doc qv (norm qv) (self, results) d
  = let s := similarity_of (doc_norm self d) (norm qv)
               (dot_product (postings self) qv d) in
    if Rlt_dec 0 s then
      match documents_inv self !! d with
      | Some path => Ok (self, results ++ [{| doc_id := d; similarity := s;
                                               doc_path := path |}])
      | None => Raise KeyError
      end
    else Ok (self, results).
Proof.
  intros Hkeys. unfold score_doc, doc_vector_of.
  destruct (doc_vector_of_present (postings self) d qv ∅ Hkeys)
    as (dv & -> & Hdv).
  rewrite set_postings_same. unfold dot_product_of.
  rewrite (dot_product_of_spec (postings self) d).
  2:{ intros t Ht. rewrite Hdv, decide_True by done.
      destruct (posting_at (postings self) t d); [done|].
      by rewrite lookup_empty. }
  rewrite Rplus_0_l. done.
Qed.

Lemma score_docs_pure self qv results docs :
  (∀ t, t ∈ qv.*1 → is_Some (postings self !! t)) →
  score_docs qv (norm qv) (self, results) docs
  = (self, bind (scored self qv docs) (λ hits, Ok (results ++ hits))).
Proof.
  intros Hkeys. revert results.
  induction docs as [|d docs IH]; intros results.
  - simpl. by rewrite app_nil_r.
  - cbn [score_docs scored]. rewrite score_doc_pure by done. cbn zeta.
    destruct (Rlt_dec 0 _) as [Hpos|Hneg]; [|apply IH].
    destruct (documents_inv self !! d) as [path|]; [|done].
    rewrite IH. f_equal.
    destruct (scored self qv docs) as [hits|e]; simpl; [|done].
    by rewrite <- (assoc_L (++)).
Qed.
(** What the scoring loop returns. *)
Lemma scored_Ok self qv docs results :
  scored self qv docs = Ok results →
  doc_id <$> results `sublist_of` docs
  ∧ ∀ h, h ∈ results →
      similarity h = similarity_of (doc_norm self (doc_id h)) (norm qv)
                       (dot_product (postings self) qv (doc_id h))
      ∧ (0 < similarity h)%R
      ∧ documents_inv self !! doc_id h = Some (doc_path h).
Proof.
  revert results. induction docs as [|d docs IH]; intros results; simpl.
  - intros [= <-]. split; [done|]. by intros h ?%elem_of_nil.
  - destruct (Rlt_dec 0 _) as [Hpos|Hneg].
    + destruct (documents_inv self !! d) as [path|] eqn:Hpath; [|done].
      intros (hits & Hhits & [= <-])%bind_Ok.
      destruct (IH _ Hhits) as [Hsub Hall]. split.
      * rewrite fmap_cons. simpl. by apply sublist_skip.
      * intros h [->|Hin]%elem_of_cons; [done|]. by apply Hall.
    + intros Hhits. destruct (IH _ Hhits) as [Hsub Hall].
      split; [by apply sublist_cons | done].
Qed.

(** The documents with a positive similarity are all returned when no
    lookup of a document path fails. *)
Lemma scored_complete self qv docs :
  (∀ d, d ∈ docs → is_Some (documents_inv self !! d)) →
  ∃ results, scored self qv docs = Ok results
    ∧ ∀ d, d ∈ docs →
        (0 < similarity_of (doc_norm self d) (norm qv)
               (dot_product (postings self) qv d))%R →
        d ∈ doc_id <$> results.
Proof.
  induction docs as [|d docs IH]; intros Hinv; simpl.
  - exists []. split; [done|]. by intros d ?%elem_of_nil.
  - destruct IH as (results & Hres & Hall).
    { intros d' Hd'. apply Hinv. by right. }
    destruct (Rlt_dec 0 _) as [Hpos|Hneg].
    + destruct (Hinv d) as [path ->]; [by left|]. rewrite Hres. simpl.
      eexists. split; [done|]. rewrite fmap_cons. simpl.
      intros d' [->|Hin]%elem_of_cons Hs; [by left|].
      right. by apply Hall.
    + exists results. split; [done|].
      intros d' [->|Hin]%elem_of_cons Hs; [done|]. by apply Hall.
Qed.

(** *** The state after a query *)

Lemma intersect_terms_subseteq (ps : gmap Z (gmap Z posting)) rest cand :
  intersect_terms ps rest cand ⊆ cand.
Proof. intros d Hd. by apply intersect_terms_spec in Hd as [? _]. Qed.

Lemma get_documents_with_all_terms_state self parsed_terms :
  (get_documents_with_all_terms self parsed_terms).1
  = match parsed_terms with
    | [] => self
    | first :: _ =>
        match postings self !! term_id first with
        | Some _ => self
        | None => set_postings self (<[term_id first := ∅]> (postings self))
        end
    end.
Proof.
  destruct parsed_terms as [|first rest]; [done|].
  unfold get_documents_with_all_terms, getitem_default.
  destruct (postings self !! term_id first); simpl; [|done].
  apply set_postings_same.
Qed.

Lemma get_documents_with_all_terms_nonempty self parsed_terms :
  (get_documents_with_all_terms self parsed_terms).2 ≠ ∅ →
  (get_documents_with_all_terms self parsed_terms).1 = self.
Proof.
  rewrite get_documents_with_all_terms_state.
  destruct parsed_terms as [|first rest]; [done|].
  unfold get_documents_with_all_terms, getitem_default.
  destruct (postings self !! term_id first); simpl; [done|].
  intros Hne. destruct Hne. apply set_eq. intros d.
  split; [|by intros ?%elem_of_empty].
  intros Hd%intersect_terms_subseteq. by rewrite dom_empty_L in Hd.
Qed.

(** The ways in which [search] ends. *)
Lemma search_cases self query top_k :
  let parsed_terms := parse_query self query in
  let candidate_docs := (get_documents_with_all_terms self parsed_terms).2 in
  ((parsed_terms = [] ∨ candidate_docs = ∅)
   ∧ search self query top_k
     = ((get_documents_with_all_terms self parsed_terms).1, Ok []))
  ∨ (parsed_terms ≠ [] ∧ candidate_docs ≠ ∅
     ∧ ∃ e, build_query_vector self parsed_terms = Raise e
            ∧ search self query top_k = (self, Raise e))
  ∨ (parsed_terms ≠ [] ∧ candidate_docs ≠ ∅
     ∧ ∃ qv, build_query_vector self parsed_terms = Ok qv
         ∧ ((norm qv = 0%R ∧ search self query top_k = (self, Ok []))
            ∨ (norm qv ≠ 0%R
               ∧ search self query top_k
                 = (self, bind (scored self qv (set_iter candidate_docs))
                            (λ results,
                               Ok (slice_to top_k
                                     (sort_desc similarity results))))))).
Proof.
  intros parsed_terms candidate_docs. subst candidate_docs parsed_terms.
  unfold search.
  destruct (parse_query self query) as [|first rest] eqn:Hpts.
  { left. split; [by left | done]. }
  assert (first :: rest ≠ []) as Hne by done.
  revert Hne. generalize (first :: rest) as pts. intros pts Hne.
  destruct (get_documents_with_all_terms self pts) as [self1 cand] eqn:Hget.
  cbn [fst snd].
  case_decide as Hcand.
  { left. split; [by right | done]. }
  assert (self1 = self) as ->.
  { pose proof (get_documents_with_all_terms_nonempty self pts) as Hst.
    rewrite Hget in Hst. by apply Hst. }
  right.
  destruct (build_query_vector self pts) as [qv|e] eqn:Hqv.
  2:{ left. split_and!; [done | done |]. by exists e. }
  right. split_and!; [done | done |]. exists qv. split; [done|].
  fold (norm qv).
  destruct (Req_dec_T (norm qv) 0) as [Hz|Hnz]; [by left|].
  right. split; [done|].
  rewrite score_docs_pure by (by eapply build_query_vector_keys).
  by destruct (scored self qv (set_iter cand)).
Qed.

(** [search] changes the state only through the subscript on the first
    parsed term. *)
Lemma search_state self query top_k :
  (search self query top_k).1
  = (get_documents_with_all_terms self (parse_query self query)).1.
Proof.
  destruct (search_cases self query top_k)
    as [[_ ->]|[(_ & Hc & e & _ & ->)|(_ & Hc & qv & _ & [[_ ->]|[_ ->]])]];
    [done|..]; simpl;
    by rewrite get_documents_with_all_terms_nonempty.
Qed.

(** A query that returns hits has run the whole method. *)
Lemma search_hits self query top_k self' hits :
  search self query top_k = (self', Ok hits) → hits ≠ [] →
  ∃ qv results,
    build_query_vector self (parse_query self query) = Ok qv
    ∧ norm qv ≠ 0%R
    ∧ scored self qv
        (set_iter (get_documents_with_all_terms self
                     (parse_query self query)).2) = Ok results
    ∧ hits = slice_to top_k (sort_desc similarity results).
Proof.
  intros Hs Hne.
  destruct (search_cases self query top_k)
    as [[_ Hc]|[(_ & _ & e & _ & Hc)|(_ & _ & qv & Hqv & [[_ Hc]|[Hn Hc]])]];
    rewrite Hs in Hc.
  - by injection Hc as _ ->.
  - by injection Hc.
  - by injection Hc as _ ->.
  - exists qv.
    destruct (scored self qv _) as [results|e]; [|done].
    exists results. simpl in Hc. by injection Hc as _ ->.
Qed.
(** *** Scores *)

Lemma similarity_of_positive (dl ql dot : R) :
  (0 < similarity_of dl ql dot)%R →
  (0 < dl)%R ∧ (0 < ql)%R ∧ similarity_of dl ql dot = (dot / (ql * dl))%R.
Proof.
  unfold similarity_of.
  destruct (Rlt_dec 0 dl); [|lra]. destruct (Rlt_dec 0 ql); [|lra].
  intros _. split_and!; [done..|]. by rewrite (Rmult_comm ql dl).
Qed.

Lemma similarity_of_formula (dl ql dot : R) :
  (0 < dl)%R → (0 < ql)%R → similarity_of dl ql dot = (dot / (ql * dl))%R.
Proof.
  intros Hdl Hql. unfold similarity_of.
  destruct (Rlt_dec 0 dl); [|lra]. destruct (Rlt_dec 0 ql); [|lra].
  by rewrite (Rmult_comm ql dl).
Qed.

Lemma norm_nonneg (qv : list (Z * R)) : (0 <= norm qv)%R.
Proof. apply sqrt_pos. Qed.

Lemma dot_product_zero_norm (ps : gmap Z (gmap Z posting)) qv d :
  norm qv = 0%R → dot_product ps qv d = 0%R.
Proof.
  unfold norm. rewrite sqrt_sum_squares_zero.
  induction qv as [|item qv IH]; [done|].
  rewrite fmap_cons, Forall_cons. intros [Hw Hall].
  unfold dot_product. cbn [foldr]. fold (dot_product ps qv d).
  rewrite IH by done. rewrite Hw. lra.
Qed.

Lemma slice_to_all {A} (k : Z) (l : list A) :
  Z.of_nat (length l) ≤ k → slice_to k l = l.
Proof.
  intros Hk. unfold slice_to. rewrite decide_False by lia.
  apply take_ge. lia.
Qed.

(** A hit and the computation behind it. *)
Lemma search_hit self query top_k self' hits h :
  search self query top_k = (self', Ok hits) → h ∈ hits →
  ∃ qv, build_query_vector self (parse_query self query) = Ok qv
    ∧ doc_id h ∈ set_iter (get_documents_with_all_terms self
                             (parse_query self query)).2
    ∧ similarity h = stored_cosine self qv (doc_id h)
    ∧ (0 < norm qv)%R ∧ (0 < doc_norm self (doc_id h))%R
    ∧ (0 < similarity h)%R
    ∧ documents_inv self !! doc_id h = Some (doc_path h).
Proof.
  intros Hs Hh.
  destruct (search_hits _ _ _ _ _ Hs) as (qv & results & Hqv & Hn & Hsc & ->).
  { intros ->. by apply elem_of_nil in Hh. }
  destruct (scored_Ok _ _ _ _ Hsc) as [Hsub Hall].
  assert (h ∈ results) as Hin.
  { rewrite <- (sort_desc_perm similarity results).
    destruct (slice_to_prefix top_k (sort_desc similarity results))
      as [rest ->].
    apply elem_of_app. by left. }
  destruct (Hall h Hin) as (Hsim & Hpos & Hpath).
  rewrite Hsim in Hpos.
  destruct (similarity_of_positive _ _ _ Hpos) as (Hdl & Hql & Hform).
  exists qv. split_and!; try done.
  - eapply elem_of_sublist; [|exact Hsub].
    apply list_elem_of_fmap. by exists h.
  - by rewrite Hsim, Hform.
  - by rewrite Hsim.
Qed.
(** *** Claims about scoring and ranking *)

(** C3 (as amended). Every returned hit carries the dot product of the
    query vector and the [tf_idf] vector of its document restricted to
    the query terms, divided by the product of the norm of the query
    vector and the stored length of the document, which is the entry of
    the document-length table or 1.0 when there is none; both are
    positive and the similarity is strictly positive. The similarity is
    the cosine with the norm of the vector of the document when the
    stored length is that norm. A query vector of norm 0 returns
    nothing, and a document whose stored length is 0 is never returned.
    The similarity computed for a candidate is the quotient when both
    numbers are positive and 0 when one of them is 0. *)
Theorem C3_similarity_uses_stored_length self query top_k self' hits :
  search self query top_k = (self', Ok hits) →
  (∀ h, h ∈ hits →
     ∃ qv, build_query_vector self (parse_query self query) = Ok qv
       ∧ similarity h = stored_cosine self qv (doc_id h)
       ∧ (0 < norm qv)%R ∧ (0 < doc_norm self (doc_id h))%R
       ∧ (0 < similarity h)%R
       ∧ (doc_lengths self !! doc_id h
          = Some (NormSpec.vector_norm (postings self) (doc_id h)) →
          similarity h = NormSpec.vector_cosine self qv (doc_id h)))
  ∧ (∀ qv, build_query_vector self (parse_query self query) = Ok qv →
           norm qv = 0%R → hits = [])
  ∧ (∀ d, doc_norm self d = 0%R → d ∉ doc_id <$> hits)
  ∧ (∀ dl ql dot, (0 < dl)%R → (0 < ql)%R →
                  similarity_of dl ql dot = (dot / (ql * dl))%R)
  ∧ (∀ dl ql dot, dl = 0%R ∨ ql = 0%R → similarity_of dl ql dot = 0%R).
Proof.
  intros Hs. split_and!; [| | |apply similarity_of_formula|].
  4:{ intros dl ql dot Hz. unfold similarity_of.
      destruct (Rlt_dec 0 dl); [|done].
      destruct (Rlt_dec 0 ql); [|done]. lra. }
  - intros h Hh.
    destruct (search_hit _ _ _ _ _ _ Hs Hh)
      as (qv & Hqv & _ & Hsim & Hn & Hd & Hpos & _).
    exists qv. split_and!; [done..|].
    intros Hlen. rewrite Hsim.
    unfold stored_cosine, NormSpec.vector_cosine, doc_norm.
    by rewrite Hlen.
  - intros qv Hqv Hz. destruct hits as [|h hits]; [done|].
    destruct (search_hit _ _ _ _ _ h Hs) as (qv' & Hqv' & _ & _ & Hn & _);
      [by left|].
    rewrite Hqv in Hqv'. injection Hqv' as <-. lra.
  - intros d Hz (h & -> & Hh)%list_elem_of_fmap.
    destruct (search_hit _ _ _ _ _ _ Hs Hh) as (_ & _ & _ & _ & _ & Hd & _).
    lra.
Qed.

(** C1 (as amended). The returned hits stand in descending order of
    similarity; hits of equal similarity keep the order in which the
    candidate set was walked, whatever their document identifiers; and
    for a limit [top_k ≥ 0] at most [top_k] hits are returned. *)
Theorem C1_ranking_descending_stable self query top_k self' hits :
  search self query top_k = (self', Ok hits) →
  StronglySorted (desc similarity) hits
  ∧ (∀ r, doc_id <$> filter (λ h, similarity h = r) hits
          `sublist_of` set_iter (get_documents_with_all_terms self
                                   (parse_query self query)).2)
  ∧ (0 ≤ top_k → Z.of_nat (length hits) ≤ top_k).
Proof.
  intros Hs. destruct (decide (hits = [])) as [->|Hne].
  { split_and!; [constructor | | simpl; lia].
    intros r. rewrite filter_nil. apply sublist_nil_l. }
  destruct (search_hits _ _ _ _ _ Hs Hne)
    as (qv & results & _ & _ & Hsc & ->).
  destruct (scored_Ok _ _ _ _ Hsc) as [Hsub _].
  destruct (slice_to_prefix top_k (sort_desc similarity results))
    as [rest Hrest].
  split_and!.
  - apply (StronglySorted_app_1_l _ _ rest). rewrite <- Hrest.
    apply sort_desc_sorted.
  - intros r. etrans; [|exact Hsub]. apply fmap_sublist.
    etrans; [|apply (sublist_filter (λ h, similarity h = r))].
    rewrite <- (sort_desc_stable similarity (λ h, similarity h = r) results)
      by congruence.
    rewrite Hrest at 2. rewrite filter_app. apply sublist_inserts_r.
    done.
  - apply slice_to_length.
Qed.

Lemma search_run self query top_k qv results :
  let candidate_docs :=
    (get_documents_with_all_terms self (parse_query self query)).2 in
  candidate_docs ≠ ∅ →
  build_query_vector self (parse_query self query) = Ok qv →
  norm qv ≠ 0%R →
  scored self qv (set_iter candidate_docs) = Ok results →
  search self query top_k
  = (self, Ok (slice_to top_k (sort_desc similarity results))).
Proof.
  intros candidate_docs Hc Hqv Hn Hsc.
  destruct (search_cases self query top_k)
    as [[[Hp|Hp] _]|[(_ & _ & e & He & _)|
         (_ & _ & qv' & Hqv' & [[Hz _]|[_ Hs]])]].
  - subst candidate_docs. by rewrite Hp in Hc.
  - done.
  - congruence.
  - rewrite Hqv in Hqv'. by injection Hqv' as <-.
  - rewrite Hqv in Hqv'. injection Hqv' as <-.
    fold candidate_docs in Hs. by rewrite Hsc in Hs.
Qed.

(** A candidate without an entry in the document-length table is
    returned when its dot product with the query vector is positive, no
    path lookup fails and the limit does not cut the list. *)
Lemma missing_length_returned self query top_k qv d :
  let candidate_docs :=
    (get_documents_with_all_terms self (parse_query self query)).2 in
  build_query_vector self (parse_query self query) = Ok qv →
  d ∈ candidate_docs → d ∈ set_iter candidate_docs →
  doc_lengths self !! d = None →
  (0 < dot_product (postings self) qv d)%R →
  (∀ d', d' ∈ set_iter candidate_docs →
         is_Some (documents_inv self !! d')) →
  Z.of_nat (length (set_iter candidate_docs)) ≤ top_k →
  ∃ hits h, search self query top_k = (self, Ok hits)
    ∧ h ∈ hits ∧ doc_id h = d
    ∧ similarity h = (dot_product (postings self) qv d / (norm qv * 1))%R
    ∧ (0 < similarity h)%R.
Proof.
  intros candidate_docs Hqv Hd Hiter Hnone Hdot Hinv Hlen.
  assert (norm qv ≠ 0%R) as Hn.
  { intros Hz. rewrite (dot_product_zero_norm _ _ _ Hz) in Hdot. lra. }
  assert (0 < norm qv)%R as Hn' by (pose proof (norm_nonneg qv); lra).
  destruct (scored_complete self qv (set_iter candidate_docs) Hinv)
    as (results & Hres & Hall).
  destruct (scored_Ok _ _ _ _ Hres) as [Hsub Hhits].
  assert (similarity_of (doc_norm self d) (norm qv)
            (dot_product (postings self) qv d)
          = (dot_product (postings self) qv d / (norm qv * 1))%R) as Hsim.
  { unfold doc_norm. rewrite Hnone. simpl.
    apply similarity_of_formula; lra. }
  assert (0 < dot_product (postings self) qv d / (norm qv * 1))%R as Hpos.
  { apply Rdiv_lt_0_compat; lra. }
  assert (d ∈ doc_id <$> results) as Hin.
  { apply (Hall d Hiter). by rewrite Hsim. }
  apply list_elem_of_fmap in Hin as (h & Heq & Hh). subst d.
  exists (slice_to top_k (sort_desc similarity results)), h.
  rewrite (search_run self query top_k qv results); [| |done..].
  2:{ intros Hempty. fold candidate_docs in Hempty.
      rewrite Hempty in Hd. by apply elem_of_empty in Hd. }
  destruct (Hhits h Hh) as (Hs1 & Hs2 & _).
  split_and!; [done | | done | by rewrite Hs1, Hsim | done].
  rewrite slice_to_all.
  - by rewrite sort_desc_perm.
  - rewrite sort_desc_perm.
    apply sublist_length in Hsub. rewrite length_fmap in Hsub. lia.
Qed.

(** *** When a query leaves the state alone *)

Lemma parse_query_terms self query pt :
  pt ∈ parse_query self query →
  terms self !! processed pt = Some (term_id pt).
Proof.
  unfold parse_query.
  induction (splitchars query) as [|token tokens IH] using rev_ind.
  - by intros ?%elem_of_nil.
  - rewrite foldl_snoc.
    destruct (process_token token) as [stemmed|]; [|done].
    destruct (terms self !! stemmed) as [id|] eqn:Hid; [|done].
    intros [Hin|Heq%list_elem_of_singleton]%elem_of_app; [by apply IH|].
    by subst pt.
Qed.

(** A query does not change the state of an engine in which every term of
    the term table has an entry in the postings. *)
Lemma search_read_only self query top_k :
  (∀ term id, terms self !! term = Some id →
              is_Some (postings self !! id)) →
  (search self query top_k).1 = self.
Proof.
  intros Hposted.
  rewrite search_state, get_documents_with_all_terms_state.
  destruct (parse_query self query) as [|first rest] eqn:Hpts; [done|].
  destruct (Hposted (processed first) (term_id first)) as [dp ->]; [|done].
  apply (parse_query_terms self query). rewrite Hpts. by left.
Qed.

(** *** When a query returns *)

Lemma add_weights_total self l acc :
  0 < total_docs self →
  ∃ qv, foldl (add_weight self) (Ok acc) l = Ok qv.
Proof.
  intros HN. revert acc. induction l as [|item l IH]; intros acc.
  - by exists acc.
  - cbn [foldl]. unfold add_weight at 2. cbn [bind].
    destruct (postings self !! item.1) as [dp|]; [|apply IH].
    case_decide as Hdf; cbn [bind]; [|apply IH].
    rewrite log_Ok by (apply Rdiv_lt_0_compat; by apply IZR_lt).
    apply IH.
Qed.

(** [search] returns a list, without raising, on an engine that counts at
    least one document and knows the path of every document that holds a
    posting, when the walk over a set yields members of the set only. *)
Lemma search_returns self query top_k :
  0 < total_docs self →
  (∀ t d, holds_posting self t d → is_Some (documents_inv self !! d)) →
  (∀ (s : gset Z) d, d ∈ set_iter s → d ∈ s) →
  ∃ hits, (search self query top_k).2 = Ok hits.
Proof.
  intros HN Hinv Hiter.
  destruct (search_cases self query top_k)
    as [[_ ->]|[(_ & _ & e & He & _)|
         (Hne & _ & qv & Hqv & [[_ ->]|[_ ->]])]].
  - by eexists.
  - destruct (add_weights_total self
                (query_term_freq (parse_query self query)) [] HN)
      as [qv Hqv].
    unfold build_query_vector in He. congruence.
  - by eexists.
  - destruct (scored_complete self qv
                (set_iter (get_documents_with_all_terms self
                             (parse_query self query)).2))
      as (results & -> & _); [|by eexists].
    intros d Hd%Hiter.
    destruct (parse_query self query) as [|first rest] eqn:Hpts; [done|].
    apply (Hinv (term_id first)).
    apply (proj1 (get_documents_with_all_terms_spec self (first :: rest)
                    d Hne) Hd).
    by left.
Qed.

(** *** Queries of one term *)

Lemma build_query_vector_single self pt dp :
  postings self !! term_id pt = Some dp →
  0 < Z.of_nat (size dp) → 0 < total_docs self →
  build_query_vector self [pt]
  = Ok [(term_id pt,
         (IZR 1 * ln (IZR (total_docs self) / IZR (Z.of_nat (size dp))))%R)].
Proof.
  intros Hdp Hdf HN. unfold build_query_vector, query_term_freq.
  cbn [foldl incr]. unfold add_weight. cbn [bind fst snd].
  rewrite Hdp. cbn zeta. rewrite decide_True by done.
  rewrite log_Ok; [done|].
  apply Rdiv_lt_0_compat; by apply IZR_lt.
Qed.

Lemma single_term_norm (t : Z) (x : R) : (0 < x)%R → norm [(t, x)] = x.
Proof.
  intros Hx. unfold norm, sum_squares. simpl.
  rewrite Rplus_0_l. apply sqrt_square. lra.
Qed.

Lemma single_term_similarity (ps : gmap Z (gmap Z posting)) t x d dl :
  (0 < x)%R → (0 < dl)%R →
  similarity_of dl (norm [(t, x)]) (dot_product ps [(t, x)] d)
  = (weight_at ps t d / dl)%R.
Proof.
  intros Hx Hdl. rewrite single_term_norm by done.
  rewrite similarity_of_formula by done.
  unfold dot_product. simpl. field. lra.
Qed.
End SearchFacts.

(** ** Loading an index *)

Section LoadFacts.
Import Py Search SearchSpec.
Context `{Builtins}.

Lemma read_lines_ok {S} (step : S → string → option S)
    (record : string → Prop) (s : S) (lines : list string) :
  (∀ s line, is_Some (step s line) ↔ record line) →
  (read_lines step s lines).2 = true ↔ Forall record lines.
Proof.
  intros Hstep. revert s. induction lines as [|line lines IH]; intros s.
  - simpl. split; [constructor | done].
  - simpl. rewrite Forall_cons, <- (Hstep s line).
    destruct (step s line) as [s'|]; simpl.
    + rewrite IH. split; [by split | tauto].
    + split; [done | by intros [[? ?] _]].
Qed.

Lemma load_pair_ok m line : is_Some (load_pair m line) ↔ pair_record line.
Proof.
  unfold load_pair, pair_record.
  destruct (split comma (strip line)) as [|name [|id [|? ?]]];
    try (split; [by intros [? ?] | by intros (? & ? & ? & ?)]).
  split.
  - intros Hsome. exists name, id. split; [done|].
    destruct (int_of_str id); [by eexists | by destruct Hsome].
  - intros (name' & id' & [= <- <-] & [n Hn]). rewrite Hn. by eexists.
Qed.

Lemma load_doc_length_ok m line :
  is_Some (load_doc_length m line) ↔ length_record line.
Proof.
  unfold load_doc_length, length_record.
  destruct (split comma (strip line)) as [|doc_id [|len [|? ?]]];
    try (split; [by intros [? ?] | by intros (? & ? & ? & ?)]).
  split.
  - intros Hsome. exists doc_id, len. split; [done|].
    destruct (float_of_str len), (int_of_str doc_id);
      try (by destruct Hsome); by split; eexists.
  - intros (doc_id' & len' & [= <- <-] & [n Hn] & [x Hx]).
    rewrite Hn, Hx. by eexists.
Qed.

Lemma load_posting_ok ps line :
  is_Some (load_posting ps line) ↔ posting_record line.
Proof.
  unfold load_posting, posting_record.
  destruct (split comma (strip line))
    as [|a [|b [|c [|d [|e [|f [|? ?]]]]]]];
    try (split; [by intros [? ?] | by intros (?&?&?&?&?&?&?&?)]).
  split.
  - intros Hsome. exists a, b, c, d, e, f. split; [done|].
    destruct (int_of_str a); [|by destruct Hsome].
    destruct (int_of_str b); [|by destruct Hsome].
    destruct (float_of_str c); [|by destruct Hsome].
    destruct (int_of_str d); [|by destruct Hsome].
    destruct (float_of_str e); [|by destruct Hsome].
    destruct (int_of_str f); [|by destruct Hsome].
    split_and!; by eexists.
  - intros (a' & b' & c' & d' & e' & f' & [= <- <- <- <- <- <-]
            & [? Ha] & [? Hb] & [? Hc] & [? Hd] & [? He] & [? Hf]).
    rewrite Ha, Hb, Hc, Hd, He, Hf. simpl.
    destruct (getitem_default ps _). by eexists.
Qed.

(** The value returned by [load_index]. *)
Lemma load_index_returns self dir :
  (load_index self dir).2
  = match documents_dat dir, terms_dat dir, postings_dat dir,
          doc_lengths_dat dir with
    | Some d, Some t, Some p, Some l =>
        (read_lines load_pair (∅, ∅) d).2
        && (read_lines load_pair (∅, ∅) t).2
        && (read_lines load_posting ∅ p).2
        && (read_lines load_doc_length ∅ l).2
    | Some d, Some t, Some p, None =>
        (read_lines load_pair (∅, ∅) d).2
        && (read_lines load_pair (∅, ∅) t).2
        && (read_lines load_posting ∅ p).2 && false
    | Some d, Some t, None, _ =>
        (read_lines load_pair (∅, ∅) d).2
        && (read_lines load_pair (∅, ∅) t).2 && false
    | Some d, None, _, _ => (read_lines load_pair (∅, ∅) d).2 && false
    | None, _, _, _ => false
    end.
Proof.
  unfold load_index.
  destruct (documents_dat dir) as [d|]; [|done].
  destruct (read_lines load_pair (∅, ∅) d) as [[docs docs_inv] [|]];
    [|by repeat case_match].
  cbn [negb snd andb].
  destruct (terms_dat dir) as [t|]; [|done].
  destruct (read_lines load_pair (∅, ∅) t) as [[tms tms_inv] [|]];
    [|by repeat case_match].
  cbn [negb snd andb].
  destruct (postings_dat dir) as [p|]; [|done].
  destruct (read_lines load_posting ∅ p) as [ps [|]];
    [|by repeat case_match].
  cbn [negb snd andb].
  destruct (doc_lengths_dat dir) as [l|]; [|done].
  by destruct (read_lines load_doc_length ∅ l) as [lens [|]].
Qed.

(** C7 (as amended). [load_index] does not abort: it returns [True] or
    [False], and the constructor goes on with the engine in either case.
    It returns [True] exactly when each of the four tables is present and
    each record of each table is well formed on its own; a missing table
    or a malformed record makes it return [False], and identifiers that
    one table mentions and another lacks are not looked at. *)
Theorem C7_load_succeeds_iff_tables_well_formed self dir :
  (load_index self dir).2 = true ↔
  table_ok pair_record (documents_dat dir)
  ∧ table_ok pair_record (terms_dat dir)
  ∧ table_ok posting_record (postings_dat dir)
  ∧ table_ok length_record (doc_lengths_dat dir).
Proof.
  rewrite load_index_returns. unfold table_ok.
  destruct (documents_dat dir) as [d|].
  2:{ split; [done | by intros ((? & ? & _) & _)]. }
  destruct (terms_dat dir) as [t|].
  2:{ rewrite andb_false_r. split; [done | by intros (_ & (? & ? & _) & _)]. }
  destruct (postings_dat dir) as [p|].
  2:{ rewrite andb_false_r.
      split; [done | by intros (_ & _ & (? & ? & _) & _)]. }
  destruct (doc_lengths_dat dir) as [l|].
  2:{ rewrite andb_false_r.
      split; [done | by intros (_ & _ & _ & (? & ? & _))]. }
  rewrite !andb_true_iff.
  rewrite (read_lines_ok load_pair pair_record) by apply load_pair_ok.
  rewrite (read_lines_ok load_pair pair_record) by apply load_pair_ok.
  rewrite (read_lines_ok load_posting posting_record)
    by apply load_posting_ok.
  rewrite (read_lines_ok load_doc_length length_record)
    by apply load_doc_length_ok.
  split.
  - intros [[[Hd Ht] Hp] Hl]. split_and!; by eexists.
  - intros ((? & [= <-] & Hd) & (? & [= <-] & Ht) & (? & [= <-] & Hp)
            & (? & [= <-] & Hl)). done.
Qed.
End LoadFacts.

(** ** Saving and loading *)

Section RoundTripFacts.
Import Py.
Context `{Collaborators} `{Builtins}.

Lemma count_char_app c s1 s2 :
  count_char c (s1 +:+ s2) = (count_char c s1 + count_char c s2)%nat.
Proof.
  induction s1 as [|c' s1 IH]; simpl; [done|]. rewrite IH. lia.
Qed.

Lemma split_length c s : length (split c s) = S (count_char c s).
Proof.
  induction s as [|c' s IH]; simpl; [done|].
  case_decide; simpl; [by rewrite IH|].
  destruct (split c s) as [|f fs]; simpl in *; lia.
Qed.

Lemma count_char_lstrip c s :
  is_space c = false → count_char c (lstrip s) = count_char c s.
Proof.
  intros Hc. induction s as [|c' s IH]; simpl; [done|].
  destruct (is_space c') eqn:Hc'; [|done].
  rewrite IH. case_decide; [congruence | done].
Qed.

Lemma count_char_rstrip c s :
  is_space c = false → count_char c (rstrip s) = count_char c s.
Proof.
  intros Hc. induction s as [|c' s IH]; simpl; [done|].
  destruct (rstrip s) as [|c'' r] eqn:Hr; simpl in *.
  - rewrite <- IH. destruct (is_space c') eqn:Hc'; simpl.
    + case_decide; [congruence | done].
    + done.
  - by rewrite <- IH.
Qed.

Lemma count_char_strip c s :
  is_space c = false → count_char c (strip s) = count_char c s.
Proof.
  intros Hc. unfold strip.
  by rewrite count_char_lstrip, count_char_rstrip.
Qed.

(** A record with two commas or more does not unpack into two fields. *)
Lemma load_pair_commas m line :
  (2 ≤ count_char comma line)%nat → Search.load_pair m line = None.
Proof.
  intros Hcount. unfold Search.load_pair.
  pose proof (split_length comma (strip line)) as Hlen.
  rewrite count_char_strip in Hlen by done.
  destruct (split comma (strip line)) as [|a [|b [|c l]]];
    simpl in Hlen; try done; lia.
Qed.

Lemma document_line_commas (path : string) (id : Z) :
  (1 ≤ count_char comma path)%nat →
  (2 ≤ count_char comma (Indexer.document_line (path, id)))%nat.
Proof.
  intros Hpath. unfold Indexer.document_line. simpl.
  rewrite !count_char_app. simpl. lia.
Qed.

Lemma read_lines_fail {S} (step : S → string → option S) (s : S)
    (lines : list string) (line : string) :
  line ∈ lines → (∀ s, step s line = None) →
  (Search.read_lines step s lines).2 = false.
Proof.
  intros Hin Hfail. revert s.
  induction lines as [|l lines IH]; intros s; [by apply elem_of_nil in Hin|].
  simpl. apply elem_of_cons in Hin as [<-|Hin].
  - by rewrite Hfail.
  - destruct (step s l); [by apply IH | done].
Qed.

(** Loading what [save_index] wrote for a document table in which an
    identifier string contains a comma. *)
Lemma load_saved_comma (self : Indexer.indexer) (path : string) (id : Z) :
  Indexer.documents self !! path = Some id →
  (1 ≤ count_char comma path)%nat →
  let r := Search.load_index Search.init (Indexer.save_index self) in
  r.2 = false
  ∧ Search.terms r.1 = ∅
  ∧ Search.postings r.1 = ∅
  ∧ Search.doc_lengths r.1 = ∅
  ∧ Search.total_docs r.1 = 0.
Proof.
  intros Hdoc Hcomma. unfold Search.load_index, Indexer.save_index.
  cbn [documents_dat].
  pose proof (read_lines_fail Search.load_pair (∅, ∅)
                (Indexer.document_line <$> map_to_list (Indexer.documents self))
                (Indexer.document_line (path, id))) as Hfail.
  destruct (Search.read_lines Search.load_pair (∅, ∅) _)
    as [[docs docs_inv] ok].
  simpl in Hfail. rewrite Hfail; [done| |].
  - apply list_elem_of_fmap. exists (path, id). split; [done|].
    by apply elem_of_map_to_list.
  - intros m. by apply load_pair_commas, document_line_commas.
Qed.

(** C9, the code at the failing input. When a document identifier of the
    corpus contains a comma, the index produced by the two weight passes
    does not survive saving and loading: [load_index] stops at the record
    of that identifier, returns [False] and leaves the engine without
    terms, postings and document lengths. *)
Theorem C9_comma_in_identifier_breaks_round_trip docs self' path :
  Indexer.finalize (Indexer.process_all Indexer.init docs).1 = Ok self' →
  path ∈ docs.*2 → (1 ≤ count_char comma path)%nat →
  let r := Search.load_index Search.init (Indexer.save_index self') in
  r.2 = false
  ∧ Search.terms r.1 = ∅
  ∧ Search.postings r.1 = ∅
  ∧ Search.doc_lengths r.1 = ∅
  ∧ Search.total_docs r.1 = 0.
Proof.
  intros Hfin Hpath Hcomma.
  destruct (process_all_built docs) as [Hb _].
  assert (path ∈ dom (Indexer.documents self')) as [id Hid]%elem_of_dom.
  { rewrite (finalize_documents _ _ _ Hb Hfin).
    destruct Hb as [-> _ _ _]. by apply elem_of_list_to_set. }
  by apply (load_saved_comma self' path id).
Qed.
End RoundTripFacts.

(** ** Worked examples for the query engine *)

Section SearchExamples.
Import Py Search SearchSpec.
#[local] Existing Instance Sample.text.
#[local] Existing Instance Sample.builtins.

Lemma load_tied : load_index init Sample.tied_dir = (Sample.tied, true).
Proof. vm_compute. reflexivity. Qed.

Lemma load_unmeasured :
  load_index init Sample.unmeasured_dir = (Sample.unmeasured, true).
Proof. vm_compute. reflexivity. Qed.

Lemma cat_weight_positive : (0 < Sample.cat_weight)%R.
Proof.
  unfold Sample.cat_weight.
  pose proof (ln_ratio_positive 8 2 ltac:(lia) ltac:(lia)). lra.
Qed.

Lemma ln4_positive : (0 < Sample.ln4)%R.
Proof. unfold Sample.ln4. lra. Qed.

Lemma query_vector_cat self :
  postings self = postings Sample.tied → total_docs self = 8 →
  build_query_vector self [Sample.cat] = Ok [(1, Sample.cat_weight)].
Proof.
  intros Hps HN.
  rewrite (build_query_vector_single self Sample.cat
             (<[1 := Sample.cat_posting]> {[8 := Sample.cat_posting]}));
    [|by rewrite Hps | by vm_compute | by rewrite HN].
  assert (size (<[1 := Sample.cat_posting]>
                  ({[8 := Sample.cat_posting]} : gmap Z posting)) = 2%nat)
    as -> by (vm_compute; reflexivity).
  by rewrite HN.
Qed.

(** The query ["cat"] over the index of eight documents: the candidate
    set {1, 8} is walked as 8, 1, both documents score the same, and the
    result lists document 8 before document 1. *)
Lemma search_tied top_k :
  search Sample.tied "cat" top_k
  = (Sample.tied, Ok (slice_to top_k Sample.tied_hits)).
Proof.
  assert (parse_query Sample.tied "cat" = [Sample.cat]) as Hpts
    by (vm_compute; reflexivity).
  assert ((get_documents_with_all_terms Sample.tied [Sample.cat]).2
          = {[1; 8]}) as Hcand by (vm_compute; reflexivity).
  assert (set_iter ({[1; 8]} : gset Z) = [8; 1]) as Hiter
    by (vm_compute; reflexivity).
  pose proof (query_vector_cat Sample.tied eq_refl eq_refl) as Hqv.
  pose proof cat_weight_positive as Hx. pose proof ln4_positive as Hl.
  rewrite (search_run Sample.tied "cat" top_k [(1, Sample.cat_weight)]
             Sample.tied_hits).
  - rewrite sort_desc_constant; [done|].
    intros a b Ha Hb.
    apply elem_of_cons in Ha as [->|Ha%list_elem_of_singleton];
    apply elem_of_cons in Hb as [->|Hb%list_elem_of_singleton];
    by subst.
  - rewrite Hpts, Hcand. by intros Hempty%(f_equal size).
  - by rewrite Hpts.
  - rewrite single_term_norm by done. lra.
  - rewrite Hpts, Hcand, Hiter. cbn [scored].
    rewrite !(single_term_similarity _ _ _ _ Sample.ln4) by done.
    change (weight_at (postings Sample.tied) 1 8) with Sample.ln4.
    change (weight_at (postings Sample.tied) 1 1) with Sample.ln4.
    destruct (Rlt_dec 0 (Sample.ln4 / Sample.ln4)) as [_|Hn].
    2:{ destruct Hn. by apply Rdiv_lt_0_compat. }
    reflexivity.
Qed.

(** A negative limit cuts from the end of the list, as a Python slice
    does: with [top_k = -1] one of the two hits is returned. *)
Lemma search_negative_limit :
  ∃ hits, search Sample.tied "cat" (-1) = (Sample.tied, Ok hits)
          ∧ length hits = 1%nat.
Proof. eexists. split; [apply search_tied | done]. Qed.

(** C1, the claim as stated fails: the two hits have the same similarity
    and document 8 stands before document 1. *)
Lemma C1_counterexample :
  ∃ hits, search Sample.tied "cat" 20 = (Sample.tied, Ok hits)
          ∧ ¬ ties_ascending hits.
Proof.
  exists Sample.tied_hits. split; [apply search_tied|].
  intros Hties.
  specialize (Hties 0%nat 1%nat _ _ ltac:(lia) eq_refl eq_refl eq_refl).
  simpl in Hties. lia.
Qed.

Lemma C1_witness :
  search Sample.tied "cat" 20 = (Sample.tied, Ok Sample.tied_hits)
  ∧ StronglySorted (desc similarity) Sample.tied_hits
  ∧ (∀ r, doc_id <$> filter (λ h, similarity h = r) Sample.tied_hits
          `sublist_of`
          set_iter (get_documents_with_all_terms Sample.tied
                      (parse_query Sample.tied "cat")).2)
  ∧ (0 ≤ 20 → Z.of_nat (length Sample.tied_hits) ≤ 20).
Proof.
  split; [apply search_tied|].
  exact (C1_ranking_descending_stable Sample.tied "cat" 20 Sample.tied
           Sample.tied_hits (search_tied 20)).
Defined.

(** C2, the claim as stated fails: the query ["dog"] has no surviving
    term, so that document 1 holds a posting for every surviving term,
    and the candidate set is empty. *)
Lemma C2_counterexample :
  parse_query Sample.tied "dog" = []
  ∧ (∀ ti, ti ∈ parse_query Sample.tied "dog" →
           holds_posting Sample.tied (term_id ti) 1)
  ∧ 1 ∉ (get_documents_with_all_terms Sample.tied
           (parse_query Sample.tied "dog")).2.
Proof.
  assert (parse_query Sample.tied "dog" = []) as ->
    by (vm_compute; reflexivity).
  split_and!; [done | by intros ti ?%elem_of_nil | ].
  by intros ?%elem_of_empty.
Qed.

(** C2 on a query of two terms: ["cat"] occurs in documents 1 and 8,
    ["sat"] in documents 1 and 2, and document 1 is the only
    candidate, in either order of the terms. *)
Lemma C2_witness :
  parse_query Cases6.two_terms "cat sat" = [Sample.cat; Cases6.sat]
  ∧ (get_documents_with_all_terms Cases6.two_terms
       [Sample.cat; Cases6.sat]).2 = {[1]}
  ∧ (get_documents_with_all_terms Cases6.two_terms
       [Cases6.sat; Sample.cat]).2 = {[1]}
  ∧ let candidate_docs :=
      (get_documents_with_all_terms Cases6.two_terms
         [Sample.cat; Cases6.sat]).2 in
    (∀ d, d ∈ candidate_docs ↔
          [Sample.cat; Cases6.sat] ≠ []
          ∧ ∀ ti, ti ∈ [Sample.cat; Cases6.sat] →
                  holds_posting Cases6.two_terms (term_id ti) d)
    ∧ ([Sample.cat; Cases6.sat] = [] → candidate_docs = ∅)
    ∧ (∀ ti, ti ∈ [Sample.cat; Cases6.sat] →
         (∀ d, ¬ holds_posting Cases6.two_terms (term_id ti) d) →
         candidate_docs = ∅)
    ∧ (∀ reordered, reordered ≡ₚ [Sample.cat; Cases6.sat] →
         (get_documents_with_all_terms Cases6.two_terms reordered).2
         = candidate_docs).
Proof.
  split_and!; [by vm_compute | by vm_compute | by vm_compute |].
  exact (C2_candidates_conjunctive Cases6.two_terms
           [Sample.cat; Cases6.sat]).
Defined.

Lemma C3_witness :
  search Sample.tied "cat" 20 = (Sample.tied, Ok Sample.tied_hits)
  ∧ (∀ h, h ∈ Sample.tied_hits →
       ∃ qv, build_query_vector Sample.tied (parse_query Sample.tied "cat")
             = Ok qv
         ∧ similarity h = stored_cosine Sample.tied qv (doc_id h)
         ∧ (0 < norm qv)%R ∧ (0 < doc_norm Sample.tied (doc_id h))%R
         ∧ (0 < similarity h)%R
         ∧ (doc_lengths Sample.tied !! doc_id h
            = Some (NormSpec.vector_norm (postings Sample.tied) (doc_id h)) →
            similarity h = NormSpec.vector_cosine Sample.tied qv (doc_id h))).
Proof.
  split; [apply search_tied|].
  exact (proj1 (C3_similarity_uses_stored_length Sample.tied "cat" 20
                  Sample.tied Sample.tied_hits (search_tied 20))).
Defined.

(** The facts about the index without the length record of document 8
    that let the query ["cat"] return that document. *)
Lemma unmeasured_query :
  let candidate_docs :=
    (get_documents_with_all_terms Sample.unmeasured
       (parse_query Sample.unmeasured "cat")).2 in
  build_query_vector Sample.unmeasured (parse_query Sample.unmeasured "cat")
  = Ok Sample.cat_vector
  ∧ 8 ∈ candidate_docs ∧ 8 ∈ set_iter candidate_docs
  ∧ (0 < dot_product (postings Sample.unmeasured) Sample.cat_vector 8)%R
  ∧ (∀ d', d' ∈ set_iter candidate_docs →
           is_Some (documents_inv Sample.unmeasured !! d'))
  ∧ Z.of_nat (length (set_iter candidate_docs)) ≤ 20.
Proof.
  assert (parse_query Sample.unmeasured "cat" = [Sample.cat]) as Hpts
    by (vm_compute; reflexivity).
  assert ((get_documents_with_all_terms Sample.unmeasured [Sample.cat]).2
          = {[1; 8]}) as Hcand by (vm_compute; reflexivity).
  assert (set_iter ({[1; 8]} : gset Z) = [8; 1]) as Hiter
    by (vm_compute; reflexivity).
  pose proof cat_weight_positive as Hx. pose proof ln4_positive as Hl.
  cbn zeta. rewrite Hpts, Hcand, Hiter. split_and!.
  - by apply query_vector_cat.
  - set_solver.
  - by left.
  - unfold dot_product, Sample.cat_vector. cbn [foldr fst snd].
    change (weight_at (postings Sample.unmeasured) 1 8) with Sample.ln4.
    pose proof (Rmult_lt_0_compat _ _ Hx Hl). lra.
  - intros d' [->|Hd'%list_elem_of_singleton]%elem_of_cons;
      [|subst d']; by eexists.
  - done.
Qed.

Lemma search_unmeasured :
  ∃ hits h,
    search Sample.unmeasured "cat" 20 = (Sample.unmeasured, Ok hits)
    ∧ h ∈ hits ∧ doc_id h = 8 ∧ (0 < similarity h)%R.
Proof.
  destruct unmeasured_query as (Hqv & Hd & Hiter & Hdot & Hinv & Hlen).
  destruct (missing_length_returned Sample.unmeasured "cat" 20
              Sample.cat_vector 8 Hqv Hd Hiter eq_refl Hdot Hinv Hlen)
    as (hits & h & Hs & Hh & Hid & _ & Hpos).
  by exists hits, h.
Qed.

(** C3, the claim as stated fails: document 8 has no length record and
    is scored with the length 1.0. For the query ["cat"] its similarity
    is 1.386294, the weight of its posting, where the cosine with the
    norm of its vector is 1. *)
Lemma C3_counterexample :
  ∃ hits h,
    search Sample.unmeasured "cat" 20 = (Sample.unmeasured, Ok hits)
    ∧ h ∈ hits ∧ doc_id h = 8
    ∧ build_query_vector Sample.unmeasured
        (parse_query Sample.unmeasured "cat") = Ok Sample.cat_vector
    ∧ similarity h = Sample.ln4
    ∧ NormSpec.vector_cosine Sample.unmeasured Sample.cat_vector 8 = 1%R
    ∧ similarity h
      ≠ NormSpec.vector_cosine Sample.unmeasured Sample.cat_vector 8.
Proof.
  destruct unmeasured_query as (Hqv & Hd & Hiter & Hdot & Hinv & Hlen).
  destruct (missing_length_returned Sample.unmeasured "cat" 20
              Sample.cat_vector 8 Hqv Hd Hiter eq_refl Hdot Hinv Hlen)
    as (hits & h & Hs & Hh & Hid & Hsim & _).
  pose proof cat_weight_positive as Hw. pose proof ln4_positive as Hl.
  assert (dot_product (postings Sample.unmeasured) Sample.cat_vector 8
          = (Sample.cat_weight * Sample.ln4 + 0)%R) as Hdot8.
  { unfold dot_product, Sample.cat_vector. cbn [foldr fst snd].
    by change (weight_at (postings Sample.unmeasured) 1 8)
         with Sample.ln4. }
  assert (norm Sample.cat_vector = Sample.cat_weight) as Hnorm.
  { unfold Sample.cat_vector. by apply single_term_norm. }
  assert (NormSpec.vector_norm (postings Sample.unmeasured) 8 = Sample.ln4)
    as Hvec.
  { unfold NormSpec.vector_norm, NormSpec.doc_weights.
    change (postings Sample.unmeasured)
      with ({[1 := <[1 := Sample.cat_posting]> {[8 := Sample.cat_posting]}]}
              : gmap Z (gmap Z posting)).
    rewrite map_to_list_singleton. cbn [fmap list_fmap snd].
    rewrite sum_squares_cons. unfold sum_squares. cbn [foldl].
    change (NormSpec.weight_in 8 _) with Sample.ln4.
    rewrite Rplus_0_r. apply sqrt_square. lra. }
  assert (similarity h = Sample.ln4) as Hsim'.
  { rewrite Hsim, Hdot8, Hnorm. field. lra. }
  assert (NormSpec.vector_cosine Sample.unmeasured Sample.cat_vector 8
          = 1%R) as Hcos.
  { unfold NormSpec.vector_cosine. rewrite Hdot8, Hnorm, Hvec.
    field. lra. }
  exists hits, h. split_and!; [done..|].
  rewrite Hsim', Hcos. unfold Sample.ln4. lra.
Qed.


(** C7, the claim as stated fails. The postings of the first directory
    name document 8, for which the document-length table has no record:
    the index loads with [True] and the engine returns document 8. The
    second directory has no postings file: [load_index] returns [False],
    the constructor still yields an engine with the document table
    loaded, and a query on it returns the empty list. *)
Lemma C7_counterexample :
  (posting_at (postings Sample.unmeasured) 1 8 = Some Sample.cat_posting
   ∧ doc_lengths Sample.unmeasured !! 8 = None
   ∧ load_index init Sample.unmeasured_dir = (Sample.unmeasured, true)
   ∧ ∃ hits h,
       search Sample.unmeasured "cat" 20 = (Sample.unmeasured, Ok hits)
       ∧ h ∈ hits ∧ doc_id h = 8)
  ∧ (postings_dat Sample.missing_dir = None
     ∧ (load_index init Sample.missing_dir).2 = false
     ∧ documents (new Sample.missing_dir) !! "d1.txt" = Some 1
     ∧ (search (new Sample.missing_dir) "cat" 20).2 = Ok []).
Proof.
  split.
  - split_and!; [reflexivity | reflexivity | apply load_unmeasured |].
    destruct search_unmeasured as (hits & h & Hs & Hh & Hid & _).
    by exists hits, h.
  - split_and!; [done | by vm_compute..].
Qed.

Lemma C7_witness :
  (load_index init Sample.tied_dir).2 = true
  ∧ table_ok pair_record (documents_dat Sample.tied_dir)
  ∧ table_ok pair_record (terms_dat Sample.tied_dir)
  ∧ table_ok posting_record (postings_dat Sample.tied_dir)
  ∧ table_ok length_record (doc_lengths_dat Sample.tied_dir).
Proof.
  assert ((load_index init Sample.tied_dir).2 = true) as Hload
    by (by rewrite load_tied).
  split; [exact Hload|].
  exact (proj1 (C7_load_succeeds_iff_tables_well_formed init
                  Sample.tied_dir) Hload).
Defined.

(** C8, the code at the failing input: the term table lists ["cat"] with
    identifier 1 and the postings hold no entry for it. The query ["cat"]
    returns the empty list and leaves the entry [1 ↦ {}] in the postings,
    which were empty before the call. *)
Theorem C8_search_inserts_postings_entry :
  let self := new Sample.unposted_dir in
  load_index init Sample.unposted_dir = (self, true)
  ∧ postings self = ∅
  ∧ (search self "cat" 20).2 = Ok []
  ∧ postings (search self "cat" 20).1 = {[1 := ∅]}
  ∧ (search self "cat" 20).1 ≠ self.
Proof.
  assert (postings (search (new Sample.unposted_dir) "cat" 20).1
          = {[1 := ∅]}) as Hps by (vm_compute; reflexivity).
  split_and!; [by vm_compute | by vm_compute | by vm_compute | exact Hps |].
  intros Heq. rewrite Heq in Hps. vm_compute in Hps. discriminate Hps.
Qed.

Lemma C9_witness :
  ∃ self',
    Indexer.finalize (Indexer.process_all Indexer.init Sample.comma_corpus).1
    = Ok self'
    ∧ "a,b.txt" ∈ Sample.comma_corpus.*2
    ∧ (1 ≤ count_char comma "a,b.txt")%nat
    ∧ let r := load_index init (Indexer.save_index self') in
      r.2 = false
      ∧ terms r.1 = ∅
      ∧ postings r.1 = ∅
      ∧ doc_lengths r.1 = ∅
      ∧ total_docs r.1 = 0.
Proof.
  destruct (process_all_built Sample.comma_corpus) as [Hb _].
  destruct (finalize_built _ _ Hb) as (self' & Hfin & _).
  assert ("a,b.txt" ∈ Sample.comma_corpus.*2) as Hpath by (by left).
  assert (1 ≤ count_char comma "a,b.txt")%nat as Hcomma
    by (vm_compute; lia).
  exists self'. split_and!; [exact Hfin | exact Hpath | exact Hcomma |].
  exact (C9_comma_in_identifier_breaks_round_trip Sample.comma_corpus self'
           "a,b.txt" Hfin Hpath Hcomma).
Defined.
End SearchExamples.

(** * Further properties of the code *)

(** ** Insertion-ordered counters *)

Section CounterFacts.
Import Py QuerySpec.
Context {K : Type} `{EqDecision K}.

Lemma count_of_incr (k k' : K) (d : list (K * Z)) :
  count_of k' (incr k d) = count_of k' d + (if decide (k' = k) then 1 else 0).
Proof.
  induction d as [|[k0 n] d IH]; simpl.
  - by destruct (decide (k' = k)).
  - destruct (decide (k = k0)) as [->|Hne]; simpl.
    + destruct (decide (k' = k0)); lia.
    + destruct (decide (k' = k0)) as [->|Hne'].
      * rewrite decide_False by done. lia.
      * apply IH.
Qed.

Lemma incr_keys_present (k : K) (d : list (K * Z)) :
  k ∈ d.*1 → (incr k d).*1 = d.*1.
Proof.
  induction d as [|[k0 n] d IH]; [by intros ?%elem_of_nil|].
  rewrite fmap_cons. cbn [incr fst].
  destruct (decide (k = k0)) as [->|Hne]; [done|].
  intros [?|Hin]%elem_of_cons; [done|].
  rewrite fmap_cons. cbn [fst]. by rewrite IH.
Qed.

Lemma incr_keys_absent (k : K) (d : list (K * Z)) :
  k ∉ d.*1 → (incr k d).*1 = d.*1 ++ [k].
Proof.
  induction d as [|[k0 n] d IH]; [done|].
  rewrite fmap_cons. cbn [incr fst].
  intros [Hne Hnin]%not_elem_of_cons.
  rewrite decide_False by done.
  rewrite fmap_cons. cbn [fst]. by rewrite IH.
Qed.

Lemma elem_of_incr_keys (k k' : K) (d : list (K * Z)) :
  k' ∈ (incr k d).*1 ↔ k' = k ∨ k' ∈ d.*1.
Proof.
  destruct (decide (k ∈ d.*1)) as [Hin|Hnin].
  - rewrite incr_keys_present by done. split; [by right|].
    by intros [->|?].
  - rewrite incr_keys_absent by done.
    rewrite elem_of_app, list_elem_of_singleton. tauto.
Qed.

Lemma incr_NoDup (k : K) (d : list (K * Z)) :
  NoDup d.*1 → NoDup (incr k d).*1.
Proof.
  intros Hnd. destruct (decide (k ∈ d.*1)) as [Hin|Hnin].
  - by rewrite incr_keys_present.
  - rewrite incr_keys_absent by done.
    apply NoDup_app. split_and!; [done| |apply NoDup_singleton].
    by intros x Hx ->%list_elem_of_singleton.
Qed.

Lemma elem_of_counter (k : K) (n : Z) (d : list (K * Z)) :
  NoDup d.*1 → (k, n) ∈ d ↔ k ∈ d.*1 ∧ count_of k d = n.
Proof.
  induction d as [|[k0 n0] d IH]; intros Hnd.
  - split; [by intros ?%elem_of_nil | by intros [?%elem_of_nil _]].
  - simpl in Hnd. apply NoDup_cons in Hnd as [Hk0 Hnd]. simpl.
    rewrite !elem_of_cons, (IH Hnd).
    destruct (decide (k = k0)) as [->|Hne].
    + split.
      * intros [[= ->]|[Hin _]]; [by split; [left|] | done].
      * intros [_ ->]. by left.
    + split.
      * intros [[= ? ?]|[Hin Hc]]; [done | by split; [right|]].
      * intros [[?|Hin] Hc]; [done | by right].
Qed.
End CounterFacts.

(** ** Queries: ranking, limits and errors *)

Section QueryFacts.
Import Py Search SearchSpec QuerySpec.
Context `{Collaborators} `{Builtins}.

Lemma slice_to_nil {A} (k : Z) : slice_to k ([] : list A) = [].
Proof. unfold slice_to. case_decide; apply take_nil. Qed.

Lemma slice_to_take {A} (k k' : Z) (l : list A) :
  0 ≤ k ≤ k' → slice_to k l = take (Z.to_nat k) (slice_to k' l).
Proof.
  intros Hk. unfold slice_to. rewrite !decide_False by lia.
  rewrite take_take. f_equal. lia.
Qed.

(** The state and the ranking of a query do not depend on the limit: the
    limit only slices the ranking. *)
Lemma search_ranking self query :
  ∃ st ranking, ∀ top_k,
    search self query top_k = (st, bind ranking (λ l, Ok (slice_to top_k l))).
Proof.
  destruct (decide (parse_query self query = []
                    ∨ candidates self query = ∅)) as [Hearly|Hlate].
  { exists (get_documents_with_all_terms self (parse_query self query)).1,
           (Ok []).
    intros top_k. simpl. rewrite slice_to_nil.
    destruct (search_cases self query top_k)
      as [[_ ->]|[(Hne & Hc & _)|(Hne & Hc & _)]]; [done|..];
      destruct Hearly; done. }
  assert (parse_query self query ≠ [] ∧ candidates self query ≠ ∅)
    as [Hne Hc] by (split; intros ?; apply Hlate; tauto).
  destruct (build_query_vector self (parse_query self query))
    as [qv|e] eqn:Hqv.
  2:{ exists self, (Raise e). intros top_k. simpl.
      destruct (search_cases self query top_k)
        as [[[?|?] _]|[(_ & _ & e' & He' & ->)|(_ & _ & qv' & Hqv' & _)]];
        [done | done | congruence | congruence]. }
  destruct (decide (norm qv = 0%R)) as [Hz|Hnz].
  { exists self, (Ok []). intros top_k. simpl. rewrite slice_to_nil.
    destruct (search_cases self query top_k)
      as [[[?|?] _]|[(_ & _ & e' & He' & _)|
           (_ & _ & qv' & Hqv' & [[_ ->]|[Hn _]])]];
      [done | done | congruence | done |].
    rewrite Hqv in Hqv'. by injection Hqv' as <-. }
  exists self,
    (bind (scored self qv (set_iter (candidates self query)))
          (λ results, Ok (sort_desc similarity results))).
  intros top_k.
  destruct (search_cases self query top_k)
    as [[[?|?] _]|[(_ & _ & e' & He' & _)|
         (_ & _ & qv' & Hqv' & [[Hz _]|[_ ->]])]];
    [done | done | congruence | |].
  - rewrite Hqv in Hqv'. by injection Hqv' as <-.
  - rewrite Hqv in Hqv'. injection Hqv' as <-. unfold candidates.
    by destruct (scored self qv _).
Qed.

(** X1. The hits returned for a limit are the first hits returned for any
    larger limit, and both calls leave the same state: a smaller limit
    only cuts the list. *)
Theorem X1_smaller_limit_is_prefix self query k k' hits' :
  0 ≤ k ≤ k' →
  (search self query k').2 = Ok hits' →
  search self query k
  = ((search self query k').1, Ok (take (Z.to_nat k) hits')).
Proof.
  intros Hk Hs.
  destruct (search_ranking self query) as (st & ranking & Hr).
  rewrite Hr in Hs |- *. rewrite Hr.
  destruct ranking as [l|e]; simpl in *; [|done].
  injection Hs as <-. by rewrite (slice_to_take k k').
Qed.

(** X2. A negative limit cuts from the end, as the slice [results[:top_k]]
    does: the call returns the ranking without its last [-top_k] hits,
    the ranking being what a limit beyond its length returns. *)
Theorem X2_negative_limit_drops_last self query k k' hits' :
  k < 0 → Z.of_nat (length hits') < k' →
  (search self query k').2 = Ok hits' →
  (search self query k).2
  = Ok (take (length hits' - Z.to_nat (- k)) hits').
Proof.
  intros Hk Hk' Hs.
  destruct (search_ranking self query) as (st & ranking & Hr).
  rewrite Hr in Hs |- *.
  destruct ranking as [l|e]; simpl in *; [|done].
  injection Hs as <-.
  assert (slice_to k' l = l) as Hall.
  { unfold slice_to in *. case_decide as Hneg.
    - rewrite length_take in Hk'. lia.
    - apply take_ge.
      destruct (decide (length l ≤ Z.to_nat k')%nat) as [|Hgt]; [done|].
      rewrite length_take in Hk'. lia. }
  rewrite Hall. unfold slice_to. rewrite decide_True by done.
  do 2 f_equal. lia.
Qed.
(** *** What the scoring loop returns and when it raises *)

Lemma scored_Ok_iff self qv docs results :
  scored self qv docs = Ok results →
  ∀ d, d ∈ doc_id <$> results ↔ d ∈ docs ∧ (0 < score self qv d)%R.
Proof.
  revert results. induction docs as [|d0 docs IH]; intros results; simpl.
  - intros [= <-] d. split; [by intros ?%elem_of_nil|].
    by intros [?%elem_of_nil _].
  - fold (score self qv d0).
    destruct (Rlt_dec 0 (score self qv d0)) as [Hpos|Hneg].
    + destruct (documents_inv self !! d0) as [path|]; [|done].
      intros (hits & Hhits & [= <-])%bind_Ok d.
      rewrite fmap_cons, !elem_of_cons, (IH _ Hhits). simpl.
      split; [intros [->|[? ?]]; [by split; [left|] | by split; [right|]]|].
      intros [[->|Hin] Hs]; [by left | by right].
    + intros Hhits d. rewrite (IH _ Hhits), elem_of_cons.
      split; [intros [? ?]; by split; [right|]|].
      intros [[->|Hin] Hs]; [done | done].
Qed.

Lemma scored_Raise_iff self qv docs e :
  scored self qv docs = Raise e ↔
  e = KeyError
  ∧ ∃ d, d ∈ docs ∧ (0 < score self qv d)%R
         ∧ documents_inv self !! d = None.
Proof.
  induction docs as [|d0 docs IH]; simpl.
  - split; [done | by intros (_ & d & ?%elem_of_nil & _)].
  - fold (score self qv d0).
    destruct (Rlt_dec 0 (score self qv d0)) as [Hpos|Hneg].
    + destruct (documents_inv self !! d0) as [path|] eqn:Hpath.
      * destruct (scored self qv docs) as [hits|e'] eqn:Hsc; simpl.
        -- split; [done|]. intros (-> & d & [->|Hin]%elem_of_cons & Hs & Hd);
             [congruence|].
           assert (Ok hits = Raise KeyError) as Hcontra; [|done].
           apply IH. split; [done|]. by exists d.
        -- rewrite IH. split.
           ++ intros (-> & d & Hin & Hs & Hd). split; [done|].
              exists d. by split; [right|].
           ++ intros (-> & d & [->|Hin]%elem_of_cons & Hs & Hd);
                [congruence|]. split; [done|]. by exists d.
      * split.
        -- intros [= <-]. split; [done|]. exists d0. by split; [left|].
        -- by intros (-> & _).
    + rewrite IH. split.
      * intros (-> & d & Hin & Hs & Hd). split; [done|].
        exists d. by split; [right|].
      * intros (-> & d & [->|Hin]%elem_of_cons & Hs & Hd); [done|].
        split; [done|]. by exists d.
Qed.

Lemma similarity_of_positive_iff (dl ql dot : R) :
  (0 < ql)%R →
  (0 < similarity_of dl ql dot)%R ↔ (0 < dl)%R ∧ (0 < dot)%R.
Proof.
  intros Hql. split.
  - intros Hpos.
    destruct (similarity_of_positive _ _ _ Hpos) as (Hdl & _ & Heq).
    split; [done|]. rewrite Heq in Hpos.
    assert (0 < ql * dl)%R as Hprod by (by apply Rmult_lt_0_compat).
    replace dot with (dot / (ql * dl) * (ql * dl))%R by (field; lra).
    by apply Rmult_lt_0_compat.
  - intros [Hdl Hdot]. rewrite similarity_of_formula by done.
    apply Rdiv_lt_0_compat; [done|]. by apply Rmult_lt_0_compat.
Qed.

(** *** The counter of the query terms *)

Lemma query_term_freq_snoc pts pt :
  query_term_freq (pts ++ [pt]) = incr (term_id pt) (query_term_freq pts).
Proof. unfold query_term_freq. by rewrite foldl_snoc. Qed.

Lemma query_term_freq_keys pts t :
  t ∈ (query_term_freq pts).*1 ↔ t ∈ term_id <$> pts.
Proof.
  induction pts as [|pt pts IH] using rev_ind; [done|].
  rewrite query_term_freq_snoc, elem_of_incr_keys, IH, fmap_app, elem_of_app.
  simpl. rewrite list_elem_of_singleton. tauto.
Qed.

Lemma query_term_freq_NoDup pts : NoDup (query_term_freq pts).*1.
Proof.
  induction pts as [|pt pts IH] using rev_ind; [constructor|].
  rewrite query_term_freq_snoc. by apply incr_NoDup.
Qed.

Lemma query_term_freq_count pts t :
  count_of t (query_term_freq pts) = occurrences t pts.
Proof.
  unfold occurrences.
  induction pts as [|pt pts IH] using rev_ind; [done|].
  rewrite query_term_freq_snoc, count_of_incr, IH, filter_app, length_app.
  rewrite filter_cons, filter_nil.
  destruct (decide (t = term_id pt)) as [->|Hne].
  - rewrite decide_True by done. simpl. lia.
  - rewrite decide_False by done. simpl. lia.
Qed.

(** *** When the query vector cannot be built *)

Lemma add_weights_Raise_ValueError self l acc e :
  foldl (add_weight self) (Ok acc) l = Raise e → e = ValueError.
Proof.
  revert acc. induction l as [|item l IH]; intros acc; cbn [foldl]; [done|].
  unfold add_weight at 2. cbn [bind].
  destruct (postings self !! item.1) as [dp|]; [|apply IH].
  case_decide; cbn [bind]; [|apply IH].
  unfold log. destruct (Rlt_dec 0 _); cbn [bind]; [apply IH|].
  rewrite add_weight_Raise. by intros [= <-].
Qed.

Lemma add_weights_no_documents self l acc :
  total_docs self ≤ 0 → l ≠ [] →
  (∀ item, item ∈ l →
     ∃ dp, postings self !! item.1 = Some dp ∧ 0 < Z.of_nat (size dp)) →
  foldl (add_weight self) (Ok acc) l = Raise ValueError.
Proof.
  intros HN Hne Hposted. destruct l as [|item l]; [done|].
  cbn [foldl]. unfold add_weight at 2. cbn [bind].
  destruct (Hposted item) as (dp & -> & Hdf); [by left|].
  rewrite decide_True by done. rewrite log_Raise.
  - apply add_weight_Raise.
  - assert (IZR (total_docs self) <= 0)%R by (by apply IZR_le).
    assert (0 < / IZR (Z.of_nat (size dp)))%R
      by (apply Rinv_0_lt_compat; by apply IZR_lt).
    unfold Rdiv. nra.
Qed.

Lemma candidates_posted self query pt :
  candidates self query ≠ ∅ → pt ∈ parse_query self query →
  ∃ dp, postings self !! term_id pt = Some dp ∧ 0 < Z.of_nat (size dp).
Proof.
  unfold candidates. intros Hc Hpt.
  apply set_choose_L in Hc as [d Hd].
  assert (parse_query self query ≠ []) as Hne.
  { intros Heq. rewrite Heq in Hpt. by apply elem_of_nil in Hpt. }
  pose proof (proj1 (get_documents_with_all_terms_spec self _ d Hne) Hd pt
                Hpt) as [p Hp].
  unfold posting_at in Hp.
  destruct (postings self !! term_id pt) as [dp|]; [|done].
  exists dp. split; [done|]. simpl in Hp.
  assert (size dp ≠ 0%nat); [|lia].
  intros Hz%map_size_empty_iff. by rewrite Hz, lookup_empty in Hp.
Qed.

Lemma candidates_parsed self query :
  candidates self query ≠ ∅ → parse_query self query ≠ [].
Proof. unfold candidates. intros Hc Hpts. by rewrite Hpts in Hc. Qed.

Lemma build_query_vector_no_documents self query :
  total_docs self ≤ 0 → candidates self query ≠ ∅ →
  build_query_vector self (parse_query self query) = Raise ValueError.
Proof.
  intros HN Hc. apply add_weights_no_documents; [done| |].
  - pose proof (candidates_parsed _ _ Hc) as Hne.
    destruct (parse_query self query) as [|pt pts]; [done|].
    intros Hnil.
    assert (term_id pt ∈ (query_term_freq (pt :: pts)).*1) as Hin.
    { apply query_term_freq_keys. rewrite fmap_cons. by left. }
    rewrite Hnil in Hin. by apply elem_of_nil in Hin.
  - intros [t n] Hin. simpl.
    assert (t ∈ term_id <$> parse_query self query) as Ht.
    { apply query_term_freq_keys, list_elem_of_fmap. by exists (t, n). }
    apply list_elem_of_fmap in Ht as (pt & -> & Hpt).
    by apply (candidates_posted self query).
Qed.

Lemma search_no_documents self query top_k :
  total_docs self ≤ 0 → candidates self query ≠ ∅ →
  (search self query top_k).2 = Raise ValueError.
Proof.
  intros HN Hc.
  pose proof (build_query_vector_no_documents self query HN Hc) as Hqv.
  destruct (search_cases self query top_k)
    as [[[Hp|Hp] _]|[(_ & _ & e & He & ->)|(_ & _ & qv & Hqv' & _)]].
  - by destruct (candidates_parsed _ _ Hc).
  - done.
  - simpl. congruence.
  - congruence.
Qed.

(** X3. [search] raises [ValueError] exactly when the engine counts no
    document and the query has candidates: [math.log] is then applied to
    a quotient that is not positive. *)
Theorem X3_search_raises_ValueError_iff self query top_k :
  (search self query top_k).2 = Raise ValueError ↔
  total_docs self ≤ 0 ∧ candidates self query ≠ ∅.
Proof.
  split.
  - intros Hs.
    destruct (search_cases self query top_k)
      as [[_ Hr]|[(_ & Hc & e & He & Hr)|
           (_ & Hc & qv & Hqv & [[_ Hr]|[_ Hr]])]];
      rewrite Hr in Hs; simpl in Hs; try done.
    + split; [|done].
      destruct (decide (total_docs self ≤ 0)) as [|HN]; [done|].
      destruct (add_weights_total self
                  (query_term_freq (parse_query self query)) [])
        as [qv Hqv]; [lia|].
      unfold build_query_vector in He. congruence.
    + destruct (scored self qv _) as [results|e] eqn:Hsc; [done|].
      simpl in Hs. injection Hs as ->.
      by apply scored_Raise_iff in Hsc as [? _].
  - intros [HN Hc]. by apply search_no_documents.
Qed.

(** X4. [search] raises [KeyError] exactly when a candidate that the walk
    over the candidate set reaches has a positive similarity and no entry
    in the table from document identifiers to paths. *)
Theorem X4_search_raises_KeyError_iff self query top_k :
  (search self query top_k).2 = Raise KeyError ↔
  ∃ qv d,
    build_query_vector self (parse_query self query) = Ok qv
    ∧ norm qv ≠ 0%R ∧ candidates self query ≠ ∅
    ∧ d ∈ set_iter (candidates self query)
    ∧ (0 < score self qv d)%R
    ∧ documents_inv self !! d = None.
Proof.
  split.
  - intros Hs.
    destruct (search_cases self query top_k)
      as [[_ Hr]|[(_ & Hc & e & He & Hr)|
           (_ & Hc & qv & Hqv & [[_ Hr]|[Hn Hr]])]];
      rewrite Hr in Hs; simpl in Hs; try done.
    + injection Hs as ->. unfold build_query_vector in He.
      by apply add_weights_Raise_ValueError in He.
    + destruct (scored self qv _) as [results|e] eqn:Hsc; [done|].
      simpl in Hs. injection Hs as ->.
      apply scored_Raise_iff in Hsc as (_ & d & Hd & Hpos & Hnone).
      by exists qv, d.
  - intros (qv & d & Hqv & Hn & Hc & Hd & Hpos & Hnone).
    assert (scored self qv (set_iter (candidates self query))
            = Raise KeyError) as Hsc.
    { apply scored_Raise_iff. split; [done|]. by exists d. }
    destruct (search_cases self query top_k)
      as [[[Hp|Hp] _]|[(_ & _ & e & He & _)|
           (_ & _ & qv' & Hqv' & [[Hz _]|[_ ->]])]].
    + by destruct (candidates_parsed _ _ Hc).
    + done.
    + congruence.
    + rewrite Hqv in Hqv'. by injection Hqv' as <-.
    + rewrite Hqv in Hqv'. injection Hqv' as <-.
      unfold candidates in Hsc. by rewrite Hsc.
Qed.

(** X5. When the limit does not cut the list, the documents returned are
    exactly the candidates reached by the walk over the candidate set
    whose norm is positive and whose dot product with the query vector is
    positive. *)
Theorem X5_hits_are_the_positive_candidates self query top_k st hits qv :
  search self query top_k = (st, Ok hits) →
  build_query_vector self (parse_query self query) = Ok qv →
  candidates self query ≠ ∅ →
  Z.of_nat (length (set_iter (candidates self query))) ≤ top_k →
  ∀ d, d ∈ doc_id <$> hits ↔
       d ∈ set_iter (candidates self query)
       ∧ (0 < doc_norm self d)%R
       ∧ (0 < dot_product (postings self) qv d)%R.
Proof.
  intros Hs Hqv Hc Hk d.
  destruct (search_cases self query top_k)
    as [[[Hp|Hp] _]|[(_ & _ & e & He & _)|
         (_ & _ & qv' & Hqv' & [[Hz Hr]|[Hn Hr]])]].
  - by destruct (candidates_parsed _ _ Hc).
  - done.
  - congruence.
  - rewrite Hqv in Hqv'. injection Hqv' as <-.
    rewrite Hs in Hr. injection Hr as _ ->.
    rewrite (dot_product_zero_norm _ _ _ Hz). split.
    + by intros ?%elem_of_nil.
    + intros (_ & _ & ?). lra.
  - rewrite Hqv in Hqv'. injection Hqv' as <-.
    rewrite Hs in Hr. fold (candidates self query) in Hr.
    destruct (scored self qv (set_iter (candidates self query)))
      as [results|e] eqn:Hsc; [|done].
    simpl in Hr. injection Hr as _ ->.
    destruct (scored_Ok _ _ _ _ Hsc) as [Hsub _].
    rewrite slice_to_all.
    2:{ rewrite sort_desc_perm. apply sublist_length in Hsub.
        rewrite length_fmap in Hsub. lia. }
    rewrite sort_desc_perm, (scored_Ok_iff _ _ _ _ Hsc).
    unfold score. rewrite similarity_of_positive_iff; [tauto|].
    pose proof (norm_nonneg qv). lra.
Qed.
(** *** The weights of the query vector *)

Lemma add_weights_Ok self l acc qv :
  foldl (add_weight self) (Ok acc) l = Ok qv →
  qv = acc ++ omap (QuerySpec2.weighted self) l.
Proof.
  revert acc. induction l as [|item l IH]; intros acc; cbn [foldl].
  - intros [= <-]. by rewrite app_nil_r.
  - unfold add_weight at 2. cbn [bind]. cbn [omap list_omap].
    unfold QuerySpec2.weighted at 1.
    destruct (postings self !! item.1) as [dp|]; simpl; [|apply IH].
    unfold query_idf. case_decide as Hdf; cbn [bind].
    + unfold log. destruct (Rlt_dec 0 _); cbn [bind].
      * intros ->%IH. by rewrite <- (assoc_L (++)).
      * by rewrite add_weight_Raise.
    + intros ->%IH. by rewrite <- (assoc_L (++)).
Qed.

Lemma weighted_keys_sublist self (l : list (Z * Z)) :
  (omap (QuerySpec2.weighted self) l).*1 `sublist_of` l.*1.
Proof.
  induction l as [|item l IH]; [done|].
  cbn [omap list_omap]. unfold QuerySpec2.weighted at 1.
  rewrite fmap_cons.
  destruct (postings self !! item.1) as [dp|]; simpl.
  - by apply sublist_skip.
  - by apply sublist_cons.
Qed.

Lemma build_query_vector_entry self parsed_terms qv t w :
  build_query_vector self parsed_terms = Ok qv → (t, w) ∈ qv →
  t ∈ term_id <$> parsed_terms
  ∧ ∃ dp, postings self !! t = Some dp
      ∧ w = (IZR (occurrences t parsed_terms) * query_idf self dp)%R.
Proof.
  intros Hqv. apply add_weights_Ok in Hqv. simpl in Hqv. subst qv.
  rewrite list_elem_of_omap.
  intros ([t' n] & Hin & Hw). unfold QuerySpec2.weighted in Hw.
  simpl in Hw.
  destruct (postings self !! t') as [dp|] eqn:Hdp; [|done].
  simpl in Hw. injection Hw as <- <-.
  apply elem_of_counter in Hin as [Hkey Hcount];
    [|apply query_term_freq_NoDup].
  rewrite query_term_freq_keys in Hkey.
  rewrite query_term_freq_count in Hcount. subst n.
  split; [done|]. by exists dp.
Qed.

(** X6. The query vector has one entry for each distinct query term that
    has an entry in the postings, and its weight is the number of
    occurrences of the term in the query times [ln (N / df)], with 0 in
    the place of the logarithm when [df] is 0. *)
Theorem X6_query_vector_weights self parsed_terms qv :
  build_query_vector self parsed_terms = Ok qv →
  NoDup qv.*1
  ∧ ∀ t w, (t, w) ∈ qv ↔
      t ∈ term_id <$> parsed_terms
      ∧ ∃ dp, postings self !! t = Some dp
          ∧ w = (IZR (occurrences t parsed_terms) * query_idf self dp)%R.
Proof.
  intros Hqv. split.
  - apply add_weights_Ok in Hqv. simpl in Hqv. subst qv.
    eapply sublist_NoDup; [|apply weighted_keys_sublist].
    apply query_term_freq_NoDup.
  - intros t w. split; [by apply build_query_vector_entry|].
    apply add_weights_Ok in Hqv. simpl in Hqv. subst qv.
    rewrite list_elem_of_omap.
    intros (Ht & dp & Hdp & ->).
    exists (t, occurrences t parsed_terms). split.
    + apply elem_of_counter; [apply query_term_freq_NoDup|].
      split; [by apply query_term_freq_keys|].
      apply query_term_freq_count.
    + unfold QuerySpec2.weighted. simpl. by rewrite Hdp.
Qed.

(** X7. A query whose terms all occur in every document returns the
    empty list and leaves the state as it is: every weight of its query
    vector is [ln (N / N) = 0]. *)
Theorem X7_terms_in_every_document_return_nothing self query top_k :
  (∀ pt, pt ∈ parse_query self query →
     ∃ dp, postings self !! term_id pt = Some dp
           ∧ Z.of_nat (size dp) = total_docs self) →
  search self query top_k = (self, Ok []).
Proof.
  intros Hall.
  assert ((get_documents_with_all_terms self (parse_query self query)).1
          = self) as Hstate.
  { rewrite get_documents_with_all_terms_state.
    destruct (parse_query self query) as [|first rest]; [done|].
    destruct (Hall first) as (dp & -> & _); [by left | done]. }
  destruct (search_cases self query top_k)
    as [[_ ->]|[(_ & Hc & e & He & _)|
         (_ & Hc & qv & Hqv & [[_ ->]|[Hn _]])]].
  - by rewrite Hstate.
  - destruct (decide (total_docs self ≤ 0)) as [HN|HN].
    + pose proof (candidates_parsed self query Hc) as Hne.
      assert (∃ pt, pt ∈ parse_query self query) as [pt Hpt].
      { clear -Hne. destruct (parse_query self query) as [|pt pts]; [done|].
        exists pt. by left. }
      destruct (candidates_posted self query pt Hc) as (dp & Hdp & Hdf);
        [done|].
      destruct (Hall pt) as (dp' & Hdp' & Hsz); [done|].
      rewrite Hdp in Hdp'. injection Hdp' as <-. lia.
    + destruct (add_weights_total self
                  (query_term_freq (parse_query self query)) [])
        as [qv Hqv]; [lia|].
      unfold build_query_vector in He. congruence.
  - done.
  - destruct Hn. apply sqrt_sum_squares_zero, Forall_forall.
    intros w ([t w'] & -> & Hin)%list_elem_of_fmap. simpl.
    apply (build_query_vector_entry _ _ _ _ _ Hqv) in Hin
      as ((pt & -> & Hpt)%list_elem_of_fmap & dp & Hdp & ->).
    destruct (Hall pt Hpt) as (dp' & Hdp' & Hsz).
    rewrite Hdp in Hdp'. injection Hdp' as <-.
    unfold query_idf. case_decide as Hdf; [|lra].
    rewrite Hsz.
    assert (ln (IZR (total_docs self) / IZR (total_docs self)) = 0%R) as ->.
    { apply ln_ratio_zero; lia. }
    lra.
Qed.

(** *** Tokens without a known term *)

Lemma parse_query_omap self query :
  parse_query self query
  = omap (QuerySpec2.parse_token self) (splitchars query).
Proof.
  unfold parse_query.
  induction (splitchars query) as [|token tokens IH] using rev_ind; [done|].
  rewrite foldl_snoc, IH, omap_app. cbn [omap list_omap].
  unfold QuerySpec2.parse_token.
  destruct (process_token token) as [stemmed|]; simpl;
    [|by rewrite ?app_nil_r].
  destruct (terms self !! stemmed); simpl; by rewrite ?app_nil_r.
Qed.

Lemma omap_filter_is_Some {A B} (f : A → option B) (l : list A) :
  omap f (filter (λ a, is_Some (f a)) l) = omap f l.
Proof.
  induction l as [|a l IH]; [done|].
  rewrite filter_cons. destruct (decide (is_Some (f a))) as [Hs|Hn].
  - cbn [omap list_omap]. by rewrite IH.
  - cbn [omap list_omap]. rewrite IH.
    destruct (f a); [|done]. destruct Hn. by eexists.
Qed.

(** X8. Tokens that are filtered out or stem to a term absent from the
    term table have no effect on a query: a query whose tokens are the
    known tokens of another one gives the same result and the same
    state. *)
Theorem X8_unknown_tokens_are_ignored self query query' top_k :
  splitchars query' = QuerySpec2.known_tokens self (splitchars query) →
  search self query' top_k = search self query top_k.
Proof.
  intros Htokens.
  assert (parse_query self query' = parse_query self query) as Hpts.
  { rewrite !parse_query_omap, Htokens. apply omap_filter_is_Some. }
  unfold search. by rewrite Hpts.
Qed.

(** X9. On an engine in which every term of the term table has an entry
    in the postings, no sequence of queries changes the state. *)
Theorem X9_queries_leave_posted_index_unchanged self queries :
  (∀ term id, terms self !! term = Some id →
              is_Some (postings self !! id)) →
  after_queries self queries = self.
Proof.
  intros Hposted. unfold after_queries.
  induction queries as [|q queries IH] using rev_ind; [done|].
  rewrite foldl_snoc, IH. by apply search_read_only.
Qed.
End QueryFacts.


(** ** The counters after a load *)

Section CounterLoadFacts.
Context `{Py.Builtins} `{Collaborators}.
Import Py Search SearchSpec QuerySpec.

Lemma load_index_failed_counter self dir :
  (load_index self dir).2 = false →
  total_docs (load_index self dir).1 = total_docs self.
Proof.
  unfold load_index.
  destruct (documents_dat dir) as [d|]; [|done].
  destruct (read_lines load_pair (∅, ∅) d) as [[docs docs_inv] [|]];
    [|done].
  cbn [negb].
  destruct (terms_dat dir) as [t|]; [|done].
  destruct (read_lines load_pair (∅, ∅) t) as [[tms tms_inv] [|]];
    [|done].
  cbn [negb].
  destruct (postings_dat dir) as [p|]; [|done].
  destruct (read_lines load_posting ∅ p) as [ps [|]]; [|done].
  cbn [negb].
  destruct (doc_lengths_dat dir) as [l|]; [|done].
  by destruct (read_lines load_doc_length ∅ l) as [lens [|]].
Qed.

(** X10. [total_docs] and [total_terms] are assigned in the last two
    statements of the [try] block of [load_index]: a load that returns
    [True] sets them to the sizes of the tables read, a load that returns
    [False] leaves them as they were, whatever it has read before the
    failure. *)
Theorem X10_counters_follow_the_tables_only_on_success self dir :
  if (load_index self dir).2
  then total_docs (load_index self dir).1
       = Z.of_nat (size (documents (load_index self dir).1))
       ∧ total_terms (load_index self dir).1
         = Z.of_nat (size (terms (load_index self dir).1))
  else total_docs (load_index self dir).1 = total_docs self
       ∧ total_terms (load_index self dir).1 = total_terms self.
Proof.
  unfold load_index.
  destruct (documents_dat dir) as [d|]; [|done].
  destruct (read_lines load_pair (∅, ∅) d) as [[docs docs_inv] [|]];
    [|done].
  cbn [negb].
  destruct (terms_dat dir) as [t|]; [|done].
  destruct (read_lines load_pair (∅, ∅) t) as [[tms tms_inv] [|]];
    [|done].
  cbn [negb].
  destruct (postings_dat dir) as [p|]; [|done].
  destruct (read_lines load_posting ∅ p) as [ps [|]]; [|done].
  cbn [negb].
  destruct (doc_lengths_dat dir) as [l|]; [|done].
  by destruct (read_lines load_doc_length ∅ l) as [lens [|]].
Qed.

(** X11. The constructor drops the value of [load_index]. An engine made
    from a directory whose load failed counts no document, and every
    query that has candidates in what was loaded raises [ValueError]. *)
Theorem X11_failed_load_then_ValueError dir query top_k :
  (load_index init dir).2 = false →
  candidates (new dir) query ≠ ∅ →
  (search (new dir) query top_k).2 = Raise ValueError.
Proof.
  intros Hload Hc. apply search_no_documents; [|done].
  unfold new. by rewrite load_index_failed_counter.
Qed.
End CounterLoadFacts.

(** ** The further properties on the sample indexes *)

Section QueryExamples.
#[local] Existing Instance Sample.text.
#[local] Existing Instance Sample.builtins.
Import Py Search SearchSpec QuerySpec.

Lemma parse_cat_tied : parse_query Sample.tied "cat" = [Sample.cat].
Proof. vm_compute. reflexivity. Qed.

Lemma candidates_cat_tied : candidates Sample.tied "cat" = {[1; 8]}.
Proof. vm_compute. reflexivity. Qed.

Lemma candidates_cat_stale :
  candidates (new Cases.stale_dir) "cat" = {[1; 8]}.
Proof. vm_compute. reflexivity. Qed.

Lemma candidates_cat_pathless :
  candidates Cases2.pathless "cat" = {[1; 8]}.
Proof. vm_compute. reflexivity. Qed.

Lemma cat_candidates_inhabited : ({[1; 8]} : gset Z) ≠ ∅.
Proof. by intros Hempty%(f_equal size). Qed.

Lemma iter_cat_candidates : set_iter ({[1; 8]} : gset Z) = [8; 1].
Proof. vm_compute. reflexivity. Qed.

Lemma query_vector_pathless :
  build_query_vector Cases2.pathless (parse_query Cases2.pathless "cat")
  = Ok Cases2.pathless_vector.
Proof.
  assert (parse_query Cases2.pathless "cat" = [Sample.cat]) as ->
    by (vm_compute; reflexivity).
  rewrite (build_query_vector_single Cases2.pathless Sample.cat
             (<[1 := Sample.cat_posting]> {[8 := Sample.cat_posting]}));
    [|done | by vm_compute | done].
  assert (size (<[1 := Sample.cat_posting]>
                  ({[8 := Sample.cat_posting]} : gmap Z posting)) = 2%nat)
    as -> by (vm_compute; reflexivity).
  reflexivity.
Qed.

Lemma pathless_weight_positive : (0 < IZR 1 * ln (IZR 7 / IZR 2))%R.
Proof. pose proof (ln_ratio_positive 7 2 ltac:(lia) ltac:(lia)). lra. Qed.

(** X1 on the index of eight documents: the result for the limit 1 is
    the first hit of the result for the limit 2. *)
Lemma X1_witness :
  search Sample.tied "cat" 1
  = ((search Sample.tied "cat" 2).1,
     Ok (take (Z.to_nat 1) Sample.tied_hits)).
Proof.
  apply (X1_smaller_limit_is_prefix Sample.tied "cat" 1 2 Sample.tied_hits);
    [lia|].
  rewrite search_tied. reflexivity.
Defined.

(** X2 on the index of eight documents: the limit -1 drops the last of
    the two hits. *)
Lemma X2_witness :
  (search Sample.tied "cat" (-1)).2
  = Ok (take (length Sample.tied_hits - Z.to_nat (- -1)) Sample.tied_hits).
Proof.
  apply (X2_negative_limit_drops_last Sample.tied "cat" (-1) 20
           Sample.tied_hits); [lia | simpl; lia |].
  rewrite search_tied. reflexivity.
Defined.

(** X3 on the engine made from the index without its document-length
    file. *)
Lemma X3_witness :
  (search (new Cases.stale_dir) "cat" 20).2 = Raise ValueError.
Proof.
  apply (X3_search_raises_ValueError_iff (new Cases.stale_dir) "cat" 20).
  split; [by vm_compute|].
  rewrite candidates_cat_stale. apply cat_candidates_inhabited.
Defined.

(** X4 on the index whose document table lost document 8. *)
Lemma X4_witness :
  (search Cases2.pathless "cat" 20).2 = Raise KeyError.
Proof.
  apply (X4_search_raises_KeyError_iff Cases2.pathless "cat" 20).
  exists Cases2.pathless_vector, 8.
  pose proof pathless_weight_positive as Hx.
  pose proof ln4_positive as Hl.
  split_and!.
  - apply query_vector_pathless.
  - unfold Cases2.pathless_vector. rewrite single_term_norm by done. lra.
  - rewrite candidates_cat_pathless. apply cat_candidates_inhabited.
  - rewrite candidates_cat_pathless, iter_cat_candidates. by left.
  - unfold score, Cases2.pathless_vector.
    change (doc_norm Cases2.pathless 8) with Sample.ln4.
    rewrite single_term_similarity by done.
    change (weight_at (postings Cases2.pathless) 1 8) with Sample.ln4.
    by apply Rdiv_lt_0_compat.
  - vm_compute. reflexivity.
Defined.

(** X5 on the index of eight documents. *)
Lemma X5_witness :
  8 ∈ doc_id <$> Sample.tied_hits ↔
  8 ∈ set_iter (candidates Sample.tied "cat")
  ∧ (0 < doc_norm Sample.tied 8)%R
  ∧ (0 < dot_product (postings Sample.tied) Sample.cat_vector 8)%R.
Proof.
  apply (X5_hits_are_the_positive_candidates Sample.tied "cat" 20
           Sample.tied Sample.tied_hits Sample.cat_vector).
  - apply (search_tied 20).
  - rewrite parse_cat_tied. by apply query_vector_cat.
  - rewrite candidates_cat_tied. apply cat_candidates_inhabited.
  - rewrite candidates_cat_tied, iter_cat_candidates. simpl. lia.
Defined.

(** X6 on the query vector of ["cat"]. *)
Lemma X6_witness :
  NoDup Sample.cat_vector.*1
  ∧ ((1, Sample.cat_weight) ∈ Sample.cat_vector ↔
      1 ∈ term_id <$> [Sample.cat]
      ∧ ∃ dp, postings Sample.tied !! 1 = Some dp
          ∧ Sample.cat_weight
            = (IZR (occurrences 1 [Sample.cat])
               * query_idf Sample.tied dp)%R).
Proof.
  destruct (X6_query_vector_weights Sample.tied [Sample.cat]
              Sample.cat_vector) as [Hkeys Hweights].
  - by apply query_vector_cat.
  - split; [exact Hkeys | apply Hweights].
Defined.

(** X7 on two documents that both hold the only term. *)
Lemma X7_witness : search Cases.everywhere "cat" 20 = (Cases.everywhere, Ok []).
Proof.
  apply (X7_terms_in_every_document_return_nothing Cases.everywhere "cat" 20).
  assert (parse_query Cases.everywhere "cat" = [Sample.cat]) as ->
    by (vm_compute; reflexivity).
  intros pt ->%list_elem_of_singleton.
  eexists. split; [vm_compute; reflexivity|]. vm_compute. reflexivity.
Defined.

(** X8: ["dog"] is not a term of the index of eight documents. *)
Lemma X8_witness :
  search Sample.tied "cat" 20 = search Sample.tied "cat dog" 20.
Proof.
  apply (X8_unknown_tokens_are_ignored Sample.tied "cat dog" "cat" 20).
  vm_compute. reflexivity.
Defined.

(** X9 on the index of eight documents. *)
Lemma X9_witness :
  after_queries Sample.tied [("cat", 20); ("dog cat", 1); ("dog", -3)]
  = Sample.tied.
Proof.
  apply (X9_queries_leave_posted_index_unchanged Sample.tied).
  intros term id Hterm.
  change (terms Sample.tied) with ({["cat" := 1]} : gmap string Z) in Hterm.
  apply lookup_singleton_Some in Hterm as [<- <-].
  vm_compute. by eexists.
Defined.

(** X11 on the index without its document-length file. *)
Lemma X11_witness :
  (search (new Cases.stale_dir) "cat" 5).2 = Raise ValueError.
Proof.
  apply (X11_failed_load_then_ValueError Cases.stale_dir "cat" 5).
  - vm_compute. reflexivity.
  - rewrite candidates_cat_stale. apply cat_candidates_inhabited.
Defined.
End QueryExamples.


(** ** The builder: term table, frequencies and identifiers *)

Section BuildFacts.
Import Py Indexer IndexerSpec BuildSpec QuerySpec.
Context `{Collaborators}.

(** *** One round of "Update postings" *)

Lemma add_posting_eq (d : Z) (self : indexer) (s : string) (n : Z) :
  let id := default (next_term_id self) (terms self !! s) in
  let r := add_posting d self (s, n) in
  terms r = <[s := id]> (terms self)
  ∧ next_term_id r = match terms self !! s with
                     | Some _ => next_term_id self
                     | None => next_term_id self + 1
                     end
  ∧ postings r = <[id := <[d := fresh n]>
                           (default ∅ (postings self !! id))]> (postings self)
  ∧ documents r = documents self
  ∧ next_doc_id r = next_doc_id self
  ∧ doc_lengths r = doc_lengths self.
Proof.
  unfold add_posting.
  destruct (terms self !! s) as [id|] eqn:Hterm; simpl.
  - rewrite Hterm. simpl.
    destruct (getitem_default (postings self) id) as [ps dp] eqn:Hget.
    simpl. split_and!; [by rewrite insert_id | done | | done..].
    rewrite <- (getitem_default_lookup (postings self) id), Hget. simpl.
    change ps with (ps, dp).1. rewrite <- Hget.
    apply getitem_default_insert.
  - rewrite lookup_insert_eq. simpl.
    destruct (getitem_default (postings self) (next_term_id self))
      as [ps dp] eqn:Hget.
    simpl. split_and!; [done..| |done|done|done].
    rewrite <- (getitem_default_lookup (postings self) _), Hget. simpl.
    change ps with (ps, dp).1. rewrite <- Hget.
    apply getitem_default_insert.
Qed.

Lemma entry_at_insert {V} (ps : gmap Z (gmap Z V)) (t d t' d' : Z) (v : V) :
  entry_at (<[t := <[d := v]> (default ∅ (ps !! t))]> ps) t' d'
  = if decide (t' = t ∧ d' = d) then Some v else entry_at ps t' d'.
Proof.
  unfold entry_at. destruct (decide (t' = t)) as [->|Hne].
  - rewrite lookup_insert_eq. simpl.
    destruct (decide (d' = d)) as [->|Hd].
    + rewrite decide_True by done. by rewrite lookup_insert_eq.
    + rewrite decide_False by (by intros [_ ?]).
      rewrite lookup_insert_ne by done.
      destruct (ps !! t); simpl; [done | by rewrite lookup_empty].
  - rewrite decide_False by (by intros [? _]).
    by rewrite lookup_insert_ne.
Qed.

Lemma add_posting_frame (d : Z) (self : indexer) (item : string * Z) :
  let r := add_posting d self item in
  (∀ t d', d' ≠ d →
     entry_at (postings r) t d' = entry_at (postings self) t d')
  ∧ (∀ s id, terms self !! s = Some id → terms r !! s = Some id).
Proof.
  destruct item as [s n].
  destruct (add_posting_eq d self s n) as (Hterms & _ & Hps & _).
  cbn zeta. rewrite Hterms, Hps. split.
  - intros t d' Hd. rewrite entry_at_insert.
    by rewrite decide_False by (by intros [_ ?]).
  - intros s' id Hs'. destruct (decide (s' = s)) as [->|Hne].
    + rewrite Hs'. simpl. by rewrite lookup_insert_eq.
    + by rewrite lookup_insert_ne.
Qed.

Lemma add_postings_frame (d : Z) (items : list (string * Z))
    (self : indexer) :
  let r := foldl (add_posting d) self items in
  (∀ t d', d' ≠ d →
     entry_at (postings r) t d' = entry_at (postings self) t d')
  ∧ (∀ s id, terms self !! s = Some id → terms r !! s = Some id)
  ∧ doc_lengths r = doc_lengths self.
Proof.
  induction items as [|[s n] items IH] using rev_ind; [done|].
  cbn zeta in *. rewrite foldl_snoc.
  destruct IH as (IH1 & IH2 & IH3).
  destruct (add_posting_frame d (foldl (add_posting d) self items) (s, n))
    as [H1 H2].
  destruct (add_posting_eq d (foldl (add_posting d) self items) s n)
    as (_ & _ & _ & _ & _ & Hlen).
  split_and!.
  - intros t d' Hd. by rewrite H1, IH1.
  - intros s' id Hs'. by apply H2, IH2.
  - by rewrite Hlen.
Qed.

(** X14. Processing a document touches the postings of no other
    document: the entries filed under other document identifiers are
    what they were, the terms known before keep their identifiers, and
    the document lengths are not written. *)
Theorem X14_processing_leaves_other_documents self content doc_path :
  let r := (process_document_content self content doc_path).1 in
  (∀ t d, d ≠ next_doc_id self →
     entry_at (postings r) t d = entry_at (postings self) t d)
  ∧ (∀ s id, terms self !! s = Some id → terms r !! s = Some id)
  ∧ doc_lengths r = doc_lengths self.
Proof.
  unfold process_document_content. cbn [fst].
  set (self1 := {| documents := _ |}).
  apply (add_postings_frame (next_doc_id self) (term_freq_of content) self1).
Qed.

(** *** The term table *)

Lemma add_posting_table (d : Z) (self : indexer) (s : string) (n : Z) :
  term_table self →
  let r := add_posting d self (s, n) in
  term_table r
  ∧ ∃ id, terms r !! s = Some id
      ∧ entry_at (postings r) id d = Some (fresh n)
      ∧ (∀ t, t ≠ id →
           entry_at (postings r) t d = entry_at (postings self) t d)
      ∧ (∀ s' id', s' ≠ s → terms r !! s' = Some id' →
           terms self !! s' = Some id').
Proof.
  intros [Hids Hinj Hposted Hnamed Hnext].
  destruct (add_posting_eq d self s n)
    as (Hterms & Hnt & Hps & _ & _ & _).
  cbn zeta in *.
  set (id := default (next_term_id self) (terms self !! s)) in *.
  assert (∀ s' id', s' ≠ s → terms self !! s' = Some id' → id' ≠ id)
    as Hother.
  { intros s' id' Hne Hs' ->. subst id.
    destruct (terms self !! s) as [id0|] eqn:Hs; simpl in *.
    - by destruct Hne; apply (Hinj s' s id0).
    - specialize (Hids _ _ Hs'). lia. }
  split.
  - split.
    + intros s' id'. rewrite Hterms, Hnt.
      destruct (decide (s' = s)) as [->|Hne].
      * rewrite lookup_insert_eq. intros [= <-]. subst id.
        destruct (terms self !! s) as [id0|] eqn:Hs; simpl.
        -- by apply (Hids s).
        -- lia.
      * rewrite lookup_insert_ne by done. intros Hs'.
        specialize (Hids _ _ Hs'). destruct (terms self !! s); lia.
    + intros s1 s2 id'. rewrite Hterms.
      destruct (decide (s1 = s)) as [->|Hne1];
        destruct (decide (s2 = s)) as [->|Hne2]; [done|..].
      * rewrite lookup_insert_eq, lookup_insert_ne by done.
        intros [= <-] Hs2. by destruct (Hother _ _ Hne2 Hs2).
      * rewrite lookup_insert_eq, lookup_insert_ne by done.
        intros Hs1 [= <-]. by destruct (Hother _ _ Hne1 Hs1).
      * rewrite !lookup_insert_ne by done. apply Hinj.
    + intros s' id'. rewrite Hterms, Hps.
      destruct (decide (s' = s)) as [->|Hne].
      * rewrite lookup_insert_eq. intros [= <-].
        rewrite lookup_insert_eq. eexists. split; [done|].
        apply insert_non_empty.
      * rewrite lookup_insert_ne by done. intros Hs'.
        rewrite lookup_insert_ne by (by apply not_eq_sym, (Hother s')).
        by apply (Hposted s').
    + intros t dp. rewrite Hterms, Hps.
      destruct (decide (t = id)) as [->|Hne].
      * intros _. exists s. by rewrite lookup_insert_eq.
      * rewrite lookup_insert_ne by done. intros Ht.
        destruct (Hnamed _ _ Ht) as [s' Hs']. exists s'.
        rewrite lookup_insert_ne; [done|].
        intros <-. subst id. rewrite Hs' in Hne. by simpl in Hne.
    + rewrite Hterms, Hnt.
      destruct (terms self !! s) as [id0|] eqn:Hs.
      * subst id. simpl. by rewrite insert_id.
      * rewrite map_size_insert_None by done. lia.
  - exists id. rewrite Hterms, Hps. split_and!.
    + by rewrite lookup_insert_eq.
    + rewrite entry_at_insert. by rewrite decide_True.
    + intros t Ht. rewrite entry_at_insert.
      by rewrite decide_False by (by intros [? _]).
    + intros s' id' Hne. by rewrite lookup_insert_ne.
Qed.

Lemma add_postings_table (d : Z) (items : list (string * Z))
    (self : indexer) :
  term_table self → NoDup items.*1 →
  (∀ t, entry_at (postings self) t d = None) →
  let r := foldl (add_posting d) self items in
  term_table r
  ∧ (∀ id p, entry_at (postings r) id d = Some p ↔
       ∃ s n, (s, n) ∈ items ∧ terms r !! s = Some id ∧ p = fresh n)
  ∧ (∀ s id, s ∉ items.*1 → terms r !! s = Some id →
       terms self !! s = Some id).
Proof.
  intros Htable. induction items as [|[s n] items IH] using rev_ind;
    intros Hnd Hnone.
  - cbn zeta. simpl. split_and!; [done| |done].
    intros id p. rewrite Hnone. split; [done|].
    by intros (s & n & ?%elem_of_nil & _).
  - rewrite fmap_app in Hnd. apply NoDup_app in Hnd as (Hnd & Hs & _).
    assert (s ∉ items.*1) as Hfresh.
    { intros Hin. apply (Hs s Hin). simpl. by left. }
    destruct (IH Hnd Hnone) as (Htable' & Hentries & Hback). clear IH.
    cbn zeta in *. rewrite foldl_snoc.
    set (r0 := foldl (add_posting d) self items) in *.
    destruct (add_posting_table d r0 s n Htable')
      as (Htable'' & id & Hid & Hentry & Hrest & Hterms).
    destruct (add_posting_frame d r0 (s, n)) as [_ Hmono].
    cbn zeta in *.
    split_and!; [done| |].
    + intros id' p. split.
      * destruct (decide (id' = id)) as [->|Hne].
        -- rewrite Hentry. intros [= <-]. exists s, n.
           split; [|done]. apply elem_of_app. right. by left.
        -- rewrite (Hrest _ Hne). intros (s' & n' & Hin & Hs' & ->)%Hentries.
           exists s', n'. split_and!; [|by apply Hmono | done].
           apply elem_of_app. by left.
      * intros (s' & n' & Hin & Hs' & ->).
        apply elem_of_app in Hin as [Hin|Hin%list_elem_of_singleton].
        -- assert (s' ≠ s) as Hne.
           { intros ->. apply Hfresh, list_elem_of_fmap. by exists (s, n'). }
           assert (id' ≠ id) as Hne'.
           { intros ->. apply Hne.
             by apply (table_inj _ Htable'' s' s id). }
           rewrite (Hrest _ Hne'). apply Hentries.
           exists s', n'. split_and!; [done | by apply Hterms | done].
        -- injection Hin as -> ->. rewrite Hid in Hs'.
           injection Hs' as <-. done.
    + intros s' id'. rewrite fmap_app, not_elem_of_app.
      intros [Hs1 Hs2] Hs'. apply Hback; [done|].
      apply Hterms; [|done]. intros ->. apply Hs2. simpl. by left.
Qed.

(** *** The counter of the stems of a document *)

Lemma term_freq_of_counter (content : string) :
  NoDup (term_freq_of content).*1
  ∧ ∀ s, count_of s (term_freq_of content) = stem_count content s
         ∧ (s ∈ (term_freq_of content).*1 ↔ 0 < stem_count content s).
Proof.
  unfold term_freq_of, stem_count.
  induction (splitchars content) as [|token tokens IH] using rev_ind.
  - split; [constructor|]. intros s. split; [done|]. simpl.
    split; [by intros ?%elem_of_nil | lia].
  - destruct IH as [Hnd IH]. rewrite foldl_snoc.
    destruct (process_token token) as [s0|] eqn:Htoken.
    + split; [by apply incr_NoDup|].
      intros s. destruct (IH s) as [Hcount Hkey].
      rewrite count_of_incr, elem_of_incr_keys, Hcount, Hkey.
      rewrite filter_app, length_app, filter_cons, filter_nil, Htoken.
      destruct (decide (s = s0)) as [->|Hne].
      * rewrite decide_True by done. simpl. split; [lia|].
        split; [lia | by left].
      * rewrite decide_False by congruence. simpl. split; [lia|].
        split; [intros [?|?]; [done | lia] | right; lia].
    + split; [done|]. intros s. destruct (IH s) as [Hcount Hkey].
      rewrite Hcount, Hkey.
      rewrite filter_app, length_app, filter_cons, filter_nil, Htoken.
      rewrite decide_False by done. simpl. split; [lia|]. split; lia.
Qed.

Lemma elem_of_term_freq_of (content s : string) (n : Z) :
  (s, n) ∈ term_freq_of content ↔
  0 < stem_count content s ∧ n = stem_count content s.
Proof.
  destruct (term_freq_of_counter content) as [Hnd Hs].
  destruct (Hs s) as [Hcount Hkey].
  rewrite (elem_of_counter s n _ Hnd), Hkey, Hcount.
  split; intros [? ?]; by split.
Qed.

(** *** One document *)

Lemma process_document_content_table paths self content doc_path :
  built paths self → term_table self →
  let r := (process_document_content self content doc_path).1 in
  term_table r
  ∧ ∀ id p, entry_at (postings r) id (next_doc_id self) = Some p ↔
      ∃ s, terms r !! s = Some id ∧ 0 < stem_count content s
           ∧ p = fresh (stem_count content s).
Proof.
  intros Hb Htable. unfold process_document_content. cbn [fst].
  set (self1 := {| documents := _ |}).
  destruct (term_freq_of_counter content) as [Hnd _].
  destruct (add_postings_table (next_doc_id self) (term_freq_of content)
              self1) as (Htable' & Hentries & _).
  - by destruct Htable.
  - done.
  - intros t. unfold entry_at. simpl.
    destruct (postings self !! t) as [dp|] eqn:Ht; [|done]. simpl.
    destruct (dp !! next_doc_id self) as [p|] eqn:Hp; [|done].
    pose proof (built_ids _ _ Hb _ _ _ _ Ht Hp). lia.
  - split; [done|]. intros id p. rewrite Hentries. split.
    + intros (s & n & [Hpos ->]%elem_of_term_freq_of & Hs & ->).
      by exists s.
    + intros (s & Hs & Hpos & ->). exists s, (stem_count content s).
      split_and!; [by apply elem_of_term_freq_of | done..].
Qed.

Lemma count_documents_table docs paths self c :
  built paths self → term_table self →
  term_table (foldl count_document (self, c) docs).1.
Proof.
  revert paths self c.
  induction docs as [|[content doc_path] docs IH];
    intros paths self c Hb Htable; [done|].
  cbn [foldl]. rewrite count_document_spec. cbn [fst snd].
  apply (IH (paths ++ [doc_path])).
  - by apply process_document_content_built.
  - by apply (process_document_content_table paths).
Qed.

Lemma init_table : term_table init.
Proof.
  split; simpl; try done; intros ?; rewrite ?lookup_empty; try done.
  all: by intros ?; rewrite ?lookup_empty.
Qed.

Lemma add_postings_terms (d : Z) (items : list (string * Z))
    (self : indexer) (s : string) :
  s ∈ items.*1 → is_Some (terms (foldl (add_posting d) self items) !! s).
Proof.
  induction items as [|[s0 n0] items IH] using rev_ind;
    [by intros ?%elem_of_nil|].
  rewrite fmap_app, elem_of_app, foldl_snoc.
  destruct (add_posting_eq d (foldl (add_posting d) self items) s0 n0)
    as (Hterms & _).
  cbn zeta in Hterms. rewrite Hterms.
  destruct (decide (s = s0)) as [->|Hne].
  - intros _. rewrite lookup_insert_eq. by eexists.
  - rewrite lookup_insert_ne by done.
    intros [Hin|Hin%list_elem_of_singleton]; [by apply IH | done].
Qed.

(** The fields that the two weight passes do not write. *)
Lemma finalize_fields (self self' : indexer) :
  finalize self = Ok self' →
  documents self' = documents self ∧ terms self' = terms self
  ∧ next_doc_id self' = next_doc_id self
  ∧ next_term_id self' = next_term_id self
  ∧ total_docs self' = total_docs self
  ∧ total_terms self' = total_terms self.
Proof.
  unfold finalize, calculate_tf_idf, calculate_document_lengths.
  destruct (foldl _ (Ok (postings self)) _) as [ps|e]; [|done].
  cbn [bind documents postings doc_lengths].
  destruct (foldl _ (Ok (doc_lengths self)) _) as [lengths|e]; [|done].
  cbn [bind]. by intros [= <-].
Qed.

(** X12. Whatever documents are processed, [build_index] ends with a
    term table that fits the postings: term identifiers are the numbers
    from 1 to the number of terms, no two terms share an identifier,
    every term has a posting, and every entry of the postings belongs to
    a term. *)
Theorem X12_term_table_fits_the_postings docs :
  ∃ self b, build_index init docs = Ok (self, b) ∧ term_table self.
Proof.
  unfold build_index.
  destruct (process_all_built docs) as [Hb _].
  pose proof (count_documents_table docs [] init 0 init_built init_table)
    as Htable.
  fold (process_all init docs) in Htable.
  destruct (process_all init docs) as [self1 n]. simpl in Hb, Htable.
  case_decide as Hz; [by exists self1, false|].
  destruct (finalize_built _ _ Hb) as (self2 & Hfin & _ & Hps & _).
  destruct (finalize_fields _ _ Hfin) as (_ & Hterms & _ & Hnext & _).
  rewrite Hfin. cbn [bind]. eexists _, true. split; [done|].
  destruct Htable as [Hids Hinj Hposted Hnamed Hsize].
  split; cbn [terms postings next_term_id]; rewrite ?Hterms, ?Hnext, ?Hps.
  - done.
  - done.
  - intros s id Hs. destruct (Hposted _ _ Hs) as (dp & Hdp & Hne).
    eexists. rewrite lookup_fmap, Hdp. split; [done|].
    unfold weigh. by intros ?%fmap_empty_inv.
  - intros t dp. rewrite lookup_fmap. intros (dp0 & Hdp & _)%fmap_Some.
    by apply (Hnamed t dp0).
  - done.
Qed.

(** X13. In the postings of a document processed after any others,
    every stem that survives the filters has one posting, filed under
    the identifier of the stem, whose [tf] is the number of surviving
    tokens with that stem; the document has no other posting. *)
Theorem X13_tf_counts_surviving_tokens docs content doc_path :
  let self := (process_all init docs).1 in
  let r := (process_document_content self content doc_path).1 in
  (∀ s, 0 < stem_count content s →
     ∃ id, terms r !! s = Some id
       ∧ entry_at (postings r) id (next_doc_id self)
         = Some (fresh (stem_count content s)))
  ∧ (∀ id p, entry_at (postings r) id (next_doc_id self) = Some p →
       ∃ s, terms r !! s = Some id ∧ 0 < stem_count content s
            ∧ p = fresh (stem_count content s)).
Proof.
  intros self r.
  destruct (process_all_built docs) as [Hb _].
  pose proof (count_documents_table docs [] init 0 init_built init_table)
    as Htable.
  fold (process_all init docs) in Htable. fold self in Hb, Htable.
  destruct (process_document_content_table _ self content doc_path
              Hb Htable) as [_ Hentries].
  fold r in Hentries. split.
  - intros s Hpos.
    assert (is_Some (terms r !! s)) as [id Hid].
    { subst r. unfold process_document_content. cbn [fst].
      apply add_postings_terms.
      destruct (term_freq_of_counter content) as [_ Hs]. by apply Hs. }
    exists id. split; [done|]. apply Hentries. by exists s.
  - intros id p. apply Hentries.
Qed.

(** *** Document identifiers by position *)

Lemma count_documents_ids docs paths self c :
  built paths self →
  (∀ (i : nat) path, paths !! i = Some path →
     (∀ j : nat, (i < j)%nat → paths !! j ≠ Some path) →
     documents self !! path = Some (Z.of_nat i + 1)) →
  ∀ (i : nat) path, (paths ++ docs.*2) !! i = Some path →
    (∀ j : nat, (i < j)%nat → (paths ++ docs.*2) !! j ≠ Some path) →
    documents (foldl count_document (self, c) docs).1 !! path
    = Some (Z.of_nat i + 1).
Proof.
  revert paths self c.
  induction docs as [|[content doc_path] docs IH];
    intros paths self c Hb Hids.
  - simpl. rewrite app_nil_r. apply Hids.
  - cbn [foldl]. rewrite count_document_spec. cbn [fst snd].
    rewrite fmap_cons. cbn [snd].
    rewrite (cons_middle doc_path), (assoc_L (++)).
    apply IH; [by apply process_document_content_built|].
    destruct (process_document_content_spec self content doc_path)
      as (_ & -> & _).
    intros i path Hi Hlast.
    destruct (decide (i < length paths)%nat) as [Hlt|Hge].
    + rewrite lookup_app_l in Hi by done.
      assert (path ≠ doc_path) as Hne.
      { intros ->. apply (Hlast (length paths) Hlt).
        by rewrite lookup_app_r, Nat.sub_diag by done. }
      rewrite lookup_insert_ne by done. apply Hids; [done|].
      intros j Hj Hpj. apply (Hlast j Hj).
      apply lookup_app_l_Some. done.
    + rewrite lookup_app_r in Hi by lia.
      apply list_lookup_singleton_Some in Hi as [Hi <-].
      rewrite lookup_insert_eq. f_equal.
      rewrite (built_next _ _ Hb). lia.
Qed.

(** X15. The document table after a run: an identifier string stands
    for the position, counted from 1, of the last document that was
    handed in under it. *)
Theorem X15_identifier_is_last_position docs (i : nat) path :
  docs.*2 !! i = Some path →
  (∀ j : nat, (i < j)%nat → docs.*2 !! j ≠ Some path) →
  documents (process_all init docs).1 !! path = Some (Z.of_nat i + 1).
Proof.
  intros Hi Hlast. unfold process_all.
  apply (count_documents_ids docs [] init 0 init_built); [|done..].
  intros j path' Hj. by rewrite lookup_nil in Hj.
Qed.

(** X16. [build_index] raises on no sequence of documents. It returns
    [False] exactly on the empty one and leaves both statistics at 0;
    otherwise [total_docs] is the number of distinct identifier strings,
    which the counter of processed documents exceeds when a string was
    handed in twice, and [total_terms] is the size of the term table. *)
Theorem X16_build_index_statistics docs :
  ∃ self, build_index init docs = Ok (self, bool_decide (docs ≠ []))
    ∧ next_doc_id self = 1 + Z.of_nat (length docs)
    ∧ total_docs self
      = Z.of_nat (size (list_to_set docs.*2 : gset string))
    ∧ total_terms self = Z.of_nat (size (terms self)).
Proof.
  destruct (decide (docs = [])) as [->|Hne]; [by exists init|].
  unfold build_index.
  destruct (process_all_built docs) as [Hb Hn].
  destruct (process_all init docs) as [self1 n]. simpl in Hb, Hn.
  subst n. case_decide as Hz.
  - destruct docs; [done | simpl in Hz; lia].
  - destruct (finalize_built _ _ Hb) as (self2 & Hfin & Hdocs & _).
    destruct (finalize_fields _ _ Hfin) as (_ & _ & Hnext & _).
    rewrite Hfin. cbn [bind]. eexists.
    rewrite bool_decide_true by (by intros ->). split; [done|].
    cbn [next_doc_id total_docs total_terms terms].
    rewrite Hnext, Hdocs, (built_next _ _ Hb), length_fmap.
    split_and!; [done| |done].
    by rewrite <- size_dom, (built_docs _ _ Hb).
Qed.

(** *** The second weight pass on any state *)

Lemma foldl_Raise {A B} (step : result A → B → result A) (e : exn)
    (l : list B) :
  (∀ b, step (Raise e) b = Raise e) → foldl step (Raise e) l = Raise e.
Proof. intros Hstep. induction l as [|b l IH]; [done|]. simpl. by rewrite Hstep. Qed.

Lemma doc_vector_length_list (d : Z) (l : list (Z * gmap Z posting))
    (a : R) (e : exn) :
  foldl (λ acc item,
           bind acc (λ doc_vector_length,
             match item.2 !! d with
             | Some p =>
                 match tf_idf p with
                 | Some w => Ok (doc_vector_length + w * w)%R
                 | None => Raise KeyError
                 end
             | None => Ok doc_vector_length
             end)) (Ok a) l = Raise e
  ↔ e = KeyError
    ∧ ∃ item p, item ∈ l ∧ item.2 !! d = Some p ∧ tf_idf p = None.
Proof.
  revert a. induction l as [|item l IH]; intros a.
  - simpl. split; [done|]. by intros (_ & ? & ? & ?%elem_of_nil & _).
  - cbn [foldl bind].
    destruct (item.2 !! d) as [p|] eqn:Hp.
    + destruct (tf_idf p) as [w|] eqn:Hw.
      * rewrite IH. split; intros (-> & item' & p' & Hin & Hp' & Hw').
        -- split; [done|]. exists item', p'. split; [by right | done].
        -- split; [done|]. exists item', p'.
           apply elem_of_cons in Hin as [->|Hin]; [congruence | done].
      * rewrite foldl_Raise by done. split.
        -- intros [= <-]. split; [done|]. exists item, p.
           split; [by left | done].
        -- by intros [-> _].
    + rewrite IH. split; intros (-> & item' & p' & Hin & Hp' & Hw').
      * split; [done|]. exists item', p'. split; [by right | done].
      * split; [done|]. exists item', p'.
        apply elem_of_cons in Hin as [->|Hin]; [congruence | done].
Qed.

Lemma doc_vector_length_Raise (ps : gmap Z (gmap Z posting)) (d : Z)
    (e : exn) :
  doc_vector_length ps d = Raise e
  ↔ e = KeyError
    ∧ ∃ t dp p, ps !! t = Some dp ∧ dp !! d = Some p ∧ tf_idf p = None.
Proof.
  unfold doc_vector_length. rewrite doc_vector_length_list.
  split; intros [-> Hex]; (split; [done|]).
  - destruct Hex as ([t dp] & p & Hin%elem_of_map_to_list & Hp & Hw).
    by exists t, dp, p.
  - destruct Hex as (t & dp & p & Ht & Hp & Hw).
    exists (t, dp), p. split; [by apply elem_of_map_to_list | done].
Qed.

Lemma document_lengths_list (ps : gmap Z (gmap Z posting))
    (l : list (string * Z)) (lengths : gmap Z R) (e : exn) :
  foldl (λ acc item,
           bind acc (λ lengths,
             bind (doc_vector_length ps item.2) (λ s,
               Ok (<[item.2 := sqrt s]> lengths))))
        (Ok lengths) l = Raise e
  ↔ e = KeyError
    ∧ ∃ item, item ∈ l ∧ doc_vector_length ps item.2 = Raise KeyError.
Proof.
  revert lengths. induction l as [|item l IH]; intros lengths.
  - simpl. split; [done|]. by intros (_ & ? & ?%elem_of_nil & _).
  - cbn [foldl bind].
    destruct (doc_vector_length ps item.2) as [s|e'] eqn:Hitem.
    + cbn [bind]. rewrite IH.
      split; intros (-> & item' & Hin & Hraise); (split; [done|]).
      * exists item'. split; [by right | done].
      * exists item'.
        apply elem_of_cons in Hin as [->|Hin]; [congruence | done].
    + assert (e' = KeyError) as ->.
      { by apply doc_vector_length_Raise in Hitem as [-> _]. }
      cbn [bind]. rewrite foldl_Raise by done. split.
      * intros [= <-]. split; [done|]. exists item. split; [by left|done].
      * by intros [-> _].
Qed.

(** X17. [calculate_document_lengths] raises exactly when a document of
    the document table holds a posting without a ['tf_idf'] key, and the
    exception is then [KeyError]; this is what calling it before
    [calculate_tf_idf] on a document with a surviving token does. *)
Theorem X17_lengths_raise_iff_unweighted self e :
  calculate_document_lengths self = Raise e ↔
  e = KeyError ∧ unweighted self.
Proof.
  unfold calculate_document_lengths, unweighted.
  destruct (foldl _ (Ok (doc_lengths self)) _) as [lengths|e'] eqn:Hfold.
  - cbn [bind]. split; [done|]. intros [-> Hex].
    assert (Ok lengths = Raise KeyError :> result (gmap Z R)); [|done].
    rewrite <- Hfold. apply document_lengths_list. split; [done|].
    destruct Hex as (path & d & t & dp & p & Hd & Ht & Hp & Hw).
    exists (path, d). split; [by apply elem_of_map_to_list|].
    apply doc_vector_length_Raise. split; [done|]. by exists t, dp, p.
  - cbn [bind].
    apply document_lengths_list in Hfold
      as (-> & [path d] & Hin%elem_of_map_to_list & Hraise).
    apply doc_vector_length_Raise in Hraise
      as (_ & t & dp & p & Ht & Hp & Hw).
    split.
    + intros [= <-]. split; [done|]. by exists path, d, t, dp, p.
    + by intros [-> _].
Qed.

(** *** Running the weight passes again *)

Lemma indexer_eq (a b : indexer) :
  documents a = documents b → terms a = terms b →
  postings a = postings b → doc_lengths a = doc_lengths b →
  next_doc_id a = next_doc_id b → next_term_id a = next_term_id b →
  total_docs a = total_docs b → total_terms a = total_terms b → a = b.
Proof. destruct a, b. simpl. by intros -> -> -> -> -> -> -> ->. Qed.

Lemma foldl_bind_Ok_inv {A B C} (f : B → result C) (g : A → B → C → A)
    (l : list B) (x0 x : A) :
  foldl (λ acc b, bind acc (λ x, bind (f b) (λ y, Ok (g x b y)))) (Ok x0) l
  = Ok x →
  ∀ b, b ∈ l → ∃ y, f b = Ok y.
Proof.
  revert x0. induction l as [|b l IH]; intros x0 Hfold b' Hb'.
  - by apply elem_of_nil in Hb'.
  - cbn [foldl bind] in Hfold.
    destruct (f b) as [y|e] eqn:Hb.
    + cbn [bind] in Hfold.
      apply elem_of_cons in Hb' as [->|Hb']; [by exists y|].
      by apply (IH _ Hfold).
    + cbn [bind] in Hfold. by rewrite foldl_Raise in Hfold.
Qed.

Lemma calculate_tf_idf_inv (self s1 : indexer) :
  calculate_tf_idf self = Ok s1 →
  (∀ t dp, postings self !! t = Some dp → dp ≠ ∅ →
           0 < Z.of_nat (size (documents self)))
  ∧ terms s1 = terms self ∧ next_doc_id s1 = next_doc_id self
  ∧ next_term_id s1 = next_term_id self
  ∧ total_docs s1 = total_docs self ∧ total_terms s1 = total_terms self.
Proof.
  unfold calculate_tf_idf.
  destruct (foldl _ (Ok (postings self)) _) as [ps|e] eqn:Hfold; [|done].
  cbn [bind]. intros [= <-]. split; [|done].
  intros t dp Ht Hne.
  destruct (foldl_bind_Ok_inv _ _ _ _ _ Hfold (t, dp)) as [y Hy];
    [by apply elem_of_map_to_list|].
  simpl in Hy. unfold weigh_term in Hy.
  assert (size dp ≠ 0%nat) as Hsz by (by intros ?%map_size_empty_iff).
  rewrite decide_False in Hy by lia.
  unfold log in Hy. destruct (Rlt_dec 0 _) as [Hpos|]; [|done].
  destruct (decide (0 < Z.of_nat (size (documents self)))) as [|Hz];
    [done|].
  assert (size (documents self) = 0%nat) as Hz0 by lia.
  rewrite Hz0 in Hpos. simpl in Hpos.
  unfold Rdiv in Hpos. rewrite Rmult_0_l in Hpos. lra.
Qed.

Lemma calculate_document_lengths_fields (self s2 : indexer) :
  calculate_document_lengths self = Ok s2 →
  terms s2 = terms self ∧ next_doc_id s2 = next_doc_id self
  ∧ next_term_id s2 = next_term_id self
  ∧ total_docs s2 = total_docs self ∧ total_terms s2 = total_terms self.
Proof.
  unfold calculate_document_lengths.
  destruct (foldl _ (Ok (doc_lengths self)) _) as [lengths|e]; [|done].
  cbn [bind]. by intros [= <-].
Qed.

Lemma weigh_weigh (N : Z) (dp : gmap Z posting) :
  weigh N (weigh N dp) = weigh N dp.
Proof.
  unfold weigh. rewrite map_size_fmap, <- map_fmap_compose.
  by apply map_fmap_ext.
Qed.

Lemma weighed_has_weight (N : Z) (ps : gmap Z (gmap Z posting)) t dp d p :
  (weigh N <$> ps) !! t = Some dp → dp !! d = Some p → is_Some (tf_idf p).
Proof.
  intros Ht Hd.
  destruct (weigh_lookup_Some _ _ _ _ _ _ Ht Hd)
    as (? & ? & _ & _ & _ & _ & _ & _ & ->). by eexists.
Qed.

(** X18. Running the two weight passes on their own result changes
    nothing: the weights are computed from [tf], the number of documents
    and the document frequencies, none of which the passes write. *)
Theorem X18_finalize_is_idempotent self self' :
  finalize self = Ok self' → finalize self' = Ok self'.
Proof.
  unfold finalize.
  destruct (calculate_tf_idf self) as [s1|e] eqn:H1; [|done].
  cbn [bind]. intros H2.
  destruct (calculate_tf_idf_inv _ _ H1) as (HN & _).
  destruct (calculate_tf_idf_Ok self HN) as (s1' & H1' & Hd1 & Hl1 & Hp1).
  rewrite H1 in H1'. injection H1' as <-.
  set (N := Z.of_nat (size (documents self))) in *.
  assert (∀ t dp d p, postings s1 !! t = Some dp → dp !! d = Some p →
                      is_Some (tf_idf p)) as Hw1.
  { intros t dp d p. rewrite Hp1. apply weighed_has_weight. }
  destruct (calculate_document_lengths_Ok s1 Hw1)
    as (s2 & H2' & Hd2 & Hp2 & Hin2 & Hout2).
  rewrite H2 in H2'. injection H2' as <-.
  destruct (calculate_document_lengths_fields _ _ H2)
    as (Ht2 & Hnd2 & Hnt2 & Htd2 & Htt2).
  (* the first pass again *)
  destruct (calculate_tf_idf_Ok self') as (s3 & H3 & Hd3 & Hl3 & Hp3).
  { intros t dp. rewrite Hp2, Hp1, Hd2, Hd1, lookup_fmap.
    intros (dp0 & Hdp0 & ->)%fmap_Some Hne. apply (HN t dp0 Hdp0).
    intros ->. apply Hne. unfold weigh. apply fmap_empty. }
  destruct (calculate_tf_idf_inv _ _ H3) as (_ & Ht3 & Hnd3 & Hnt3 & Htd3 & Htt3).
  assert (s3 = self') as ->.
  { apply indexer_eq; try done.
    rewrite Hp3, Hd2, Hd1, Hp2, Hp1. fold N.
    rewrite <- map_fmap_compose. apply map_fmap_ext.
    intros t dp _. apply weigh_weigh. }
  rewrite H3. cbn [bind].
  (* the second pass again *)
  assert (∀ t dp d p, postings self' !! t = Some dp → dp !! d = Some p →
                      is_Some (tf_idf p)) as Hw2.
  { intros t dp d p. rewrite Hp2. apply Hw1. }
  destruct (calculate_document_lengths_Ok self' Hw2)
    as (s4 & H4 & Hd4 & Hp4 & Hin4 & Hout4).
  destruct (calculate_document_lengths_fields _ _ H4)
    as (Ht4 & Hnd4 & Hnt4 & Htd4 & Htt4).
  assert (s4 = self') as ->; [|done].
  apply indexer_eq; try done.
  apply map_eq. intros d.
  destruct (decide (d ∈ (map_to_list (documents self')).*2)) as [Hd|Hd].
  - apply list_elem_of_fmap in Hd as ([path d'] & -> & Hd%elem_of_map_to_list).
    simpl. rewrite (Hin4 path _ Hd), Hp2.
    symmetry. apply (Hin2 path). by rewrite <- Hd2.
  - apply Hout4. intros path Hpath. apply Hd.
    apply list_elem_of_fmap. exists (path, d).
    split; [done | by apply elem_of_map_to_list].
Qed.
End BuildFacts.


(** ** The builder on the sample corpora *)

Section BuildExamples.
Import Py Indexer IndexerSpec BuildSpec.
#[local] Existing Instance Sample.text.

(** X15 on the identifier string handed in twice: it stands for the
    second document. *)
Lemma X15_witness :
  documents (process_all init Sample.repeated).1 !! "a"
  = Some (Z.of_nat 1 + 1).
Proof.
  apply (X15_identifier_is_last_position Sample.repeated 1 "a");
    [reflexivity|].
  intros j Hj Hpath. apply lookup_lt_Some in Hpath. simpl in Hpath. lia.
Defined.

(** X17 on a document processed but not weighted. *)
Lemma X17_witness :
  calculate_document_lengths (process_all init Sample.single).1
  = Raise KeyError.
Proof.
  apply (X17_lengths_raise_iff_unweighted
           (process_all init Sample.single).1 KeyError).
  split; [done|].
  exists "a", 1, 1, {[1 := fresh 3]}, (fresh 3).
  split_and!; vm_compute; reflexivity.
Defined.

(** X18 on the two documents of the scenario. *)
Lemma X18_witness :
  ∃ self', finalize (process_all init Sample.corpus).1 = Ok self'
           ∧ finalize self' = Ok self'.
Proof.
  destruct (process_all_built Sample.corpus) as [Hb _].
  destruct (finalize_built _ _ Hb) as (self' & Hfin & _).
  exists self'. split; [exact Hfin|].
  exact (X18_finalize_is_idempotent _ self' Hfin).
Defined.
End BuildExamples.


(** ** Saving and loading an index *)

Section RecordFacts.
Import Py RoundTripSpec.

Lemma append_cons (c : ascii) (s1 s2 : string) :
  String c s1 +:+ s2 = String c (s1 +:+ s2).
Proof. reflexivity. Qed.

Lemma append_nil_l (s : string) : EmptyString +:+ s = s.
Proof. reflexivity. Qed.

Lemma append_nil_r (s : string) : s +:+ EmptyString = s.
Proof.
  induction s as [|c s IH]; [done|]. by rewrite append_cons, IH.
Qed.

Lemma append_nonempty (s1 s2 : string) :
  s2 ≠ EmptyString → s1 +:+ s2 ≠ EmptyString.
Proof. by destruct s1. Qed.

Lemma rstrip_solid (s : string) : solid s = true → rstrip s = s.
Proof.
  induction s as [|c s IH]; [done|]. simpl.
  intros [[Hc _]%andb_prop Hs]%andb_prop. rewrite (IH Hs).
  destruct s; [|done]. by destruct (is_space c).
Qed.

Lemma rstrip_newline (s : string) : rstrip (s +:+ newline) = rstrip s.
Proof.
  induction s as [|c s IH]; [done|]. rewrite append_cons. simpl.
  by rewrite IH.
Qed.

Lemma rstrip_append (s1 s2 : string) :
  rstrip s2 ≠ EmptyString → rstrip (s1 +:+ s2) = s1 +:+ rstrip s2.
Proof.
  intros Hne. induction s1 as [|c s1 IH]; [done|].
  rewrite !append_cons. simpl. rewrite IH.
  destruct (s1 +:+ rstrip s2) eqn:Happ; [|done].
  by destruct (append_nonempty s1 (rstrip s2) Hne).
Qed.

Lemma rstrip_comma (s : string) :
  rstrip s ≠ EmptyString → rstrip (String comma s) = String comma (rstrip s).
Proof. intros Hne. simpl. by destruct (rstrip s). Qed.

(** [rstrip] takes the line terminator from a record whose last field
    is plain. *)
Lemma rstrip_join (fs : list string) (last : string) :
  plain last →
  rstrip (join (fs ++ [last]) newline) = join (fs ++ [last]) EmptyString
  ∧ join (fs ++ [last]) EmptyString ≠ EmptyString.
Proof.
  intros [Hne Hsolid]. induction fs as [|f fs [IH1 IH2]].
  - cbn [app join].
    rewrite rstrip_newline, rstrip_solid, append_nil_r by done.
    done.
  - assert (∀ tail, join ((f :: fs) ++ [last]) tail
                    = f +:+ String comma (join (fs ++ [last]) tail)) as Hj.
    { intros tail. by destruct fs. }
    rewrite !Hj. split.
    + rewrite rstrip_append; rewrite rstrip_comma; rewrite IH1; done.
    + by apply append_nonempty.
Qed.

Lemma split_field (a b : string) :
  count_char comma a = 0%nat →
  split comma (a +:+ String comma b) = a :: split comma b.
Proof.
  induction a as [|c a IH].
  - intros _. rewrite append_nil_l. cbn [split]. by rewrite decide_True.
  - rewrite append_cons. simpl.
    destruct (decide (c = comma)) as [|Hne]; [done|]. simpl.
    intros Ha. by rewrite IH.
Qed.

Lemma split_last (b : string) :
  count_char comma b = 0%nat → split comma b = [b].
Proof.
  induction b as [|c b IH]; simpl; [done|].
  destruct (decide (c = comma)) as [|Hne]; [done|]. simpl.
  intros Hb. by rewrite IH.
Qed.

Lemma split_join (fs : list string) :
  fs ≠ [] → Forall (λ f, count_char comma f = 0%nat) fs →
  split comma (join fs EmptyString) = fs.
Proof.
  induction fs as [|f fs IH]; [done|]. intros _ Hfs.
  apply Forall_cons in Hfs as [Hf Hfs].
  destruct fs as [|f' fs].
  - cbn [join]. rewrite append_nil_r. by apply split_last.
  - change (join (f :: f' :: fs) EmptyString)
      with (f +:+ String comma (join (f' :: fs) EmptyString)).
    rewrite split_field by done. by rewrite IH.
Qed.

Lemma solid_no_comma (s : string) :
  solid s = true → count_char comma s = 0%nat.
Proof.
  induction s as [|c s IH]; [done|]. simpl.
  intros [[_ Hc]%andb_prop Hs]%andb_prop.
  rewrite decide_False; [by apply IH|].
  intros ->. by rewrite bool_decide_true in Hc.
Qed.

Lemma one_field_no_comma (s : string) :
  one_field s = true → count_char comma s = 0%nat.
Proof.
  induction s as [|c s IH]; [done|]. simpl.
  intros [[Hc _]%andb_prop Hs]%andb_prop.
  rewrite decide_False; [by apply IH|].
  intros ->. by rewrite bool_decide_true in Hc.
Qed.

(** What [line.strip().split(',')] makes of a record whose fields hold
    no comma, whose last field is plain and which does not begin with
    white space. *)
Lemma strip_split_join (fs : list string) (last : string) :
  Forall (λ f, count_char comma f = 0%nat) fs → plain last →
  lstrip (join (fs ++ [last]) EmptyString)
  = join (fs ++ [last]) EmptyString →
  split comma (strip (join (fs ++ [last]) newline)) = fs ++ [last].
Proof.
  intros Hfs Hlast Hfirst. unfold strip.
  destruct (rstrip_join fs last Hlast) as [-> _]. rewrite Hfirst.
  apply split_join; [by destruct fs|].
  apply Forall_app. split; [done|]. apply Forall_singleton.
  apply solid_no_comma, Hlast.
Qed.

Lemma lstrip_plain_first (f rest : string) :
  plain f → lstrip (f +:+ rest) = f +:+ rest.
Proof.
  intros [Hne Hsolid]. destruct f as [|c f]; [done|].
  rewrite append_cons. simpl in *.
  apply andb_prop in Hsolid as [[Hc _]%andb_prop _].
  by destruct (is_space c).
Qed.

Lemma lstrip_clean_first (f rest : string) :
  clean f → lstrip (f +:+ String comma rest) = f +:+ String comma rest.
Proof.
  intros [_ Hfirst]. destruct f as [|c f]; [done|].
  rewrite append_cons. simpl. by rewrite Hfirst.
Qed.
End RecordFacts.


Section SaveLoadFacts.
Import Py RoundTripSpec BuildSpec.
Context `{Builtins}.

Lemma read_lines_foldl {S A} (step : S → string → option S)
    (f : S → A → S) (line_of : A → string) (l : list A) (s : S) :
  (∀ s a, a ∈ l → step s (line_of a) = Some (f s a)) →
  Search.read_lines step s (line_of <$> l) = (foldl f s l, true).
Proof.
  revert s. induction l as [|a l IH]; intros s Hstep; [done|].
  rewrite fmap_cons. cbn [Search.read_lines foldl].
  rewrite Hstep by left. apply IH. intros s' a' Ha'. apply Hstep. by right.
Qed.

Lemma reread_Some (x : R) :
  float_ok x → float_of_str (format_6f x) = Some (reread x).
Proof. intros [_ [y Hy]]. unfold reread. by rewrite Hy. Qed.

(** *** One record of each file *)

Lemma load_pair_record (m : gmap string Z * gmap Z string) name id :
  clean name → int_ok id →
  Search.load_pair m (Indexer.document_line (name, id))
  = Some (<[name := id]> m.1, <[id := name]> m.2).
Proof.
  intros Hname [Hplain Hint]. unfold Search.load_pair.
  change (Indexer.document_line (name, id))
    with (join ([name] ++ [str_of_int id]) newline).
  rewrite strip_split_join.
  - cbn [app]. by rewrite Hint.
  - apply Forall_singleton, one_field_no_comma, Hname.
  - done.
  - cbn [app join]. by apply lstrip_clean_first.
Qed.

Lemma load_doc_length_record (m : gmap Z R) d x :
  int_ok d → float_ok x →
  Search.load_doc_length m (Indexer.doc_length_line (d, x))
  = Some (<[d := reread x]> m).
Proof.
  intros [Hplain Hint] Hx. unfold Search.load_doc_length.
  change (Indexer.doc_length_line (d, x))
    with (join ([str_of_int d] ++ [format_6f x]) newline).
  rewrite strip_split_join.
  - cbn [app]. by rewrite (reread_Some x Hx), Hint.
  - apply Forall_singleton, solid_no_comma, Hplain.
  - apply Hx.
  - cbn [app join]. by apply lstrip_plain_first.
Qed.

Lemma load_posting_record (ps : gmap Z (gmap Z Search.posting)) t d p :
  int_ok t → int_ok d → int_ok (Indexer.tf p) →
  int_ok (default 0 (Indexer.df p)) →
  float_ok (default 0%R (Indexer.tf_idf p)) →
  float_ok (default 0%R (Indexer.idf p)) →
  Search.load_posting ps (Indexer.posting_line t (d, p))
  = Some (<[t := <[d := reload p]> (default ∅ (ps !! t))]> ps).
Proof.
  intros [Pt Rt] [Pd Rd] [Ptf Rtf] [Pdf Rdf] Hw Hi.
  unfold Search.load_posting.
  change (Indexer.posting_line t (d, p))
    with (join ([str_of_int t; str_of_int d;
                 format_6f (default 0%R (Indexer.tf_idf p));
                 str_of_int (Indexer.tf p);
                 format_6f (default 0%R (Indexer.idf p))]
                ++ [str_of_int (default 0 (Indexer.df p))]) newline).
  rewrite strip_split_join.
  - cbn [app].
    rewrite Rt, Rd, (reread_Some _ Hw), Rtf, (reread_Some _ Hi), Rdf.
    simpl. unfold getitem_default.
    destruct (ps !! t) as [dp|]; simpl; [done|].
    by rewrite insert_insert_eq.
  - repeat apply Forall_cons_2; try apply Forall_nil_2;
      apply solid_no_comma; first [apply Pt | apply Pd | apply Hw
                                   | apply Ptf | apply Hi].
  - done.
  - cbn [app join]. by apply lstrip_plain_first.
Qed.

(** *** The tables that the records rebuild *)

Lemma foldl_pair_tables (l : list (string * Z)) (a : gmap string Z)
    (b : gmap Z string) :
  foldl (λ (acc : gmap string Z * gmap Z string) (item : string * Z),
           (<[item.1 := item.2]> acc.1, <[item.2 := item.1]> acc.2))
        (a, b) l
  = (foldl (λ m (item : string * Z), <[item.1 := item.2]> m) a l,
     foldl (λ m (item : string * Z), <[item.2 := item.1]> m) b l).
Proof.
  revert a b. induction l as [|item l IH]; intros a b; [done|].
  cbn [foldl fst snd]. apply IH.
Qed.

Lemma foldl_insert_map {K V W} `{Countable K} (g : V → W) (m : gmap K V)
    (l : list (K * V)) :
  (∀ k v, (k, v) ∈ l ↔ m !! k = Some v) →
  foldl (λ acc (item : K * V), <[item.1 := g item.2]> acc) ∅ l = g <$> m.
Proof.
  intros Hl. apply map_eq. intros k. rewrite lookup_fmap.
  pose proof (foldl_insert_lookup (fst : K * V → K) (λ item, g item.2)
                l ∅ k) as [H1 H2].
  { intros [k1 v1] [k2 v2] Hin1%Hl Hin2%Hl. simpl. intros <-. congruence. }
  destruct (m !! k) as [v|] eqn:Hk; simpl.
  - apply (H1 (k, v)); [by apply Hl | done].
  - rewrite H2; [done|].
    intros ([k' v'] & -> & Hin%Hl)%list_elem_of_fmap. simpl in Hk.
    congruence.
Qed.

Lemma foldl_insert_inverse (l : list (string * Z)) (b : gmap Z string) :
  let inv := foldl (λ m (item : string * Z), <[item.2 := item.1]> m) b l in
  (∀ id name, inv !! id = Some name →
     (name, id) ∈ l ∨ b !! id = Some name)
  ∧ (∀ name id, (name, id) ∈ l → is_Some (inv !! id)).
Proof.
  induction l as [|[name0 id0] l [IH1 IH2]] using rev_ind.
  - split; [by right | by intros ? ? ?%elem_of_nil].
  - cbn zeta in *. rewrite foldl_snoc. cbn [fst snd]. split.
    + intros id name. destruct (decide (id = id0)) as [->|Hne].
      * rewrite lookup_insert_eq. intros [= <-]. left.
        apply elem_of_app. right. by left.
      * rewrite lookup_insert_ne by done. intros [Hin|Hb]%IH1.
        -- left. apply elem_of_app. by left.
        -- by right.
    + intros name id [Hin|Hin%list_elem_of_singleton]%elem_of_app.
      * destruct (decide (id = id0)) as [->|Hne].
        -- rewrite lookup_insert_eq. by eexists.
        -- rewrite lookup_insert_ne by done. by apply (IH2 name).
      * injection Hin as -> ->. rewrite lookup_insert_eq. by eexists.
Qed.

Lemma foldl_entries {V W} (val : Z * (Z * V) → W)
    (l : list (Z * (Z * V))) (ps0 : gmap Z (gmap Z W)) (t d : Z) :
  (∀ x y, x ∈ l → y ∈ l → x.1 = y.1 → x.2.1 = y.2.1 → val x = val y) →
  let ps := foldl (λ ps x, <[x.1 := <[x.2.1 := val x]>
                                      (default ∅ (ps !! x.1))]> ps) ps0 l in
  (∀ x, x ∈ l → x.1 = t → x.2.1 = d → entry_at ps t d = Some (val x))
  ∧ ((∀ x, x ∈ l → ¬ (x.1 = t ∧ x.2.1 = d)) →
     entry_at ps t d = entry_at ps0 t d).
Proof.
  induction l as [|x l IH] using rev_ind; intros Hfun.
  - split; [by intros ? ?%elem_of_nil | done].
  - destruct IH as [IH1 IH2].
    { intros a b Ha Hb. apply Hfun; apply elem_of_app; by left. }
    cbn zeta in *. rewrite foldl_snoc, entry_at_insert.
    destruct (decide (t = x.1 ∧ d = x.2.1)) as [[-> ->]|Hne].
    + split.
      * intros y Hy Ht Hd. f_equal. apply Hfun; [|done|done|done].
        apply elem_of_app. right. by left.
      * intros Hnone. destruct (Hnone x); [|done].
        apply elem_of_app. right. by left.
    + split.
      * intros y [Hy|Hy%list_elem_of_singleton]%elem_of_app Ht Hd.
        -- by apply IH1.
        -- subst y. by destruct Hne.
      * intros Hnone. apply IH2. intros y Hy. apply Hnone.
        apply elem_of_app. by left.
Qed.

Lemma posting_lines_fmap (l : list (Z * gmap Z Indexer.posting)) :
  (l ≫= λ '(term_id, doc_postings),
          Indexer.posting_line term_id <$> map_to_list doc_postings)
  = (λ x, Indexer.posting_line x.1 x.2)
      <$> (l ≫= λ item, pair item.1 <$> map_to_list item.2).
Proof.
  induction l as [|[t dp] l IH]; [done|].
  cbn [mbind list_bind]. rewrite fmap_app, <- IH. f_equal.
  by rewrite <- list_fmap_compose.
Qed.

Lemma elem_of_posting_triples (ps : gmap Z (gmap Z Indexer.posting)) x :
  x ∈ (map_to_list ps ≫= λ item, pair item.1 <$> map_to_list item.2)
  ↔ entry_at ps x.1 x.2.1 = Some x.2.2.
Proof.
  rewrite list_elem_of_bind. unfold entry_at. split.
  - intros ([t dp] & Hx & Ht%elem_of_map_to_list). simpl in Hx.
    apply list_elem_of_fmap in Hx as ([d p] & -> & Hd%elem_of_map_to_list).
    simpl. by rewrite Ht.
  - destruct x as [t [d p]]. simpl.
    destruct (ps !! t) as [dp|] eqn:Ht; [|done]. simpl. intros Hd.
    exists (t, dp). split; [|by apply elem_of_map_to_list].
    simpl. apply list_elem_of_fmap. exists (d, p).
    split; [done | by apply elem_of_map_to_list].
Qed.

(** X19. An index whose strings and numbers are each written as one
    field is read back by [load_index] from what [save_index] wrote:
    the load returns [True], the document and term tables are the saved
    ones with inverse tables that list every identifier, each posting
    and each document length is the saved one with its weights as the
    six-digit records give them, and the statistics are the sizes of the
    two tables. *)
Theorem X19_saved_index_loads_back (e : Search.engine)
    (self : Indexer.indexer) :
  writable self →
  let r := Search.load_index e (Indexer.save_index self) in
  r.2 = true
  ∧ Search.documents r.1 = Indexer.documents self
  ∧ Search.terms r.1 = Indexer.terms self
  ∧ (∀ name id, Indexer.documents self !! name = Some id →
       is_Some (Search.documents_inv r.1 !! id))
  ∧ (∀ id name, Search.documents_inv r.1 !! id = Some name →
       Indexer.documents self !! name = Some id)
  ∧ (∀ term id, Indexer.terms self !! term = Some id →
       is_Some (Search.terms_inv r.1 !! id))
  ∧ (∀ id term, Search.terms_inv r.1 !! id = Some term →
       Indexer.terms self !! term = Some id)
  ∧ (∀ t d, entry_at (Search.postings r.1) t d
            = reload <$> entry_at (Indexer.postings self) t d)
  ∧ Search.doc_lengths r.1 = reread <$> Indexer.doc_lengths self
  ∧ Search.total_docs r.1 = Z.of_nat (size (Indexer.documents self))
  ∧ Search.total_terms r.1 = Z.of_nat (size (Indexer.terms self)).
Proof.
  intros [Hdocs Hterms Hps Hlens].
  unfold Search.load_index, Indexer.save_index.
  cbn [documents_dat terms_dat postings_dat doc_lengths_dat].
  rewrite (read_lines_foldl Search.load_pair
             (λ acc item, (<[item.1 := item.2]> acc.1,
                           <[item.2 := item.1]> acc.2))
             Indexer.document_line (map_to_list (Indexer.documents self))).
  2:{ intros m [name id] Hin%elem_of_map_to_list.
      destruct (Hdocs _ _ Hin). by apply load_pair_record. }
  rewrite foldl_pair_tables. cbn [negb].
  rewrite (read_lines_foldl Search.load_pair
             (λ acc item, (<[item.1 := item.2]> acc.1,
                           <[item.2 := item.1]> acc.2))
             Indexer.document_line (map_to_list (Indexer.terms self))).
  2:{ intros m [term id] Hin%elem_of_map_to_list.
      destruct (Hterms _ _ Hin). by apply load_pair_record. }
  rewrite foldl_pair_tables. cbn [negb].
  rewrite posting_lines_fmap.
  rewrite (read_lines_foldl Search.load_posting
             (λ ps x, <[x.1 := <[x.2.1 := reload x.2.2]>
                                 (default ∅ (ps !! x.1))]> ps)
             (λ x, Indexer.posting_line x.1 x.2)).
  2:{ intros ps [t [d p]] Hin%elem_of_posting_triples. simpl in Hin.
      unfold entry_at in Hin.
      destruct (Indexer.postings self !! t) as [dp|] eqn:Ht; [|done].
      simpl in Hin.
      destruct (Hps _ _ _ _ Ht Hin) as (? & ? & ? & ? & ? & ?).
      by apply load_posting_record. }
  cbn [negb].
  rewrite (read_lines_foldl Search.load_doc_length
             (λ m item, <[item.1 := reread item.2]> m)
             Indexer.doc_length_line
             (map_to_list (Indexer.doc_lengths self))).
  2:{ intros m [d x] Hin%elem_of_map_to_list.
      destruct (Hlens _ _ Hin). by apply load_doc_length_record. }
  cbn [negb fst snd Search.documents Search.documents_inv Search.terms
       Search.terms_inv Search.postings Search.doc_lengths
       Search.total_docs Search.total_terms Search.set_postings].
  assert (∀ m : gmap string Z,
            foldl (λ acc (item : string * Z), <[item.1 := item.2]> acc)
                  ∅ (map_to_list m) = m) as Htable.
  { intros m. etrans; [|apply (map_fmap_id m)].
    apply (foldl_insert_map (λ v, v) m). intros k v.
    apply elem_of_map_to_list. }
  rewrite !Htable.
  destruct (foldl_insert_inverse (map_to_list (Indexer.documents self)) ∅)
    as [Hdi1 Hdi2].
  destruct (foldl_insert_inverse (map_to_list (Indexer.terms self)) ∅)
    as [Hti1 Hti2].
  cbn zeta in *.
  split_and!; try done.
  - intros name id Hin. apply (Hdi2 name). by apply elem_of_map_to_list.
  - intros id name [Hin%elem_of_map_to_list|Hin]%Hdi1; [done|].
    by rewrite lookup_empty in Hin.
  - intros term id Hin. apply (Hti2 term). by apply elem_of_map_to_list.
  - intros id term [Hin%elem_of_map_to_list|Hin]%Hti1; [done|].
    by rewrite lookup_empty in Hin.
  - intros t d.
    pose proof (foldl_entries (λ x : Z * (Z * Indexer.posting), reload x.2.2)
                  (map_to_list (Indexer.postings self)
                     ≫= λ item, pair item.1 <$> map_to_list item.2)
                  ∅ t d) as [H1 H2].
    { intros [t1 [d1 p1]] [t2 [d2 p2]] Hx%elem_of_posting_triples
             Hy%elem_of_posting_triples. simpl in *. intros <- <-.
      congruence. }
    cbn zeta in *.
    destruct (entry_at (Indexer.postings self) t d) as [p|] eqn:Hentry.
    + simpl. apply (H1 (t, (d, p))); [|done|done].
      by apply elem_of_posting_triples.
    + simpl. rewrite H2; [done|].
      intros [t' [d' p']] Hx%elem_of_posting_triples [Ht Hd].
      simpl in *. subst. congruence.
  - apply (foldl_insert_map reread (Indexer.doc_lengths self)).
    intros k v. apply elem_of_map_to_list.
Qed.
End SaveLoadFacts.


(** ** Saving and loading the sample index *)

Section SaveLoadExamples.
Import Py RoundTripSpec BuildSpec.
#[local] Existing Instance Sample.builtins.

Lemma round_half_even_IZR (x : R) (z : Z) :
  x = IZR z → Sample.round_half_even x = z.
Proof.
  intros ->. unfold Sample.round_half_even.
  assert (Int_part (IZR z) = z) as Hint.
  { symmetry. apply Int_part_spec. lra. }
  assert (frac_part (IZR z) = 0%R) as Hfrac.
  { unfold frac_part. rewrite Hint. lra. }
  rewrite Hfrac, Hint. destruct (Rlt_dec 0 (1 / 2)); [done | lra].
Qed.

Lemma format_ln4 : Sample.format_6f Sample.ln4 = "1.386294".
Proof.
  unfold Sample.format_6f.
  rewrite (round_half_even_IZR _ 1386294) by (unfold Sample.ln4; lra).
  destruct (Rlt_dec Sample.ln4 0) as [Hneg|_]; [|by vm_compute].
  unfold Sample.ln4 in Hneg. lra.
Qed.

Lemma format_zero : Sample.format_6f Sample.zero = "0.000000".
Proof.
  unfold Sample.format_6f.
  rewrite (round_half_even_IZR _ 0) by (unfold Sample.zero; lra).
  destruct (Rlt_dec Sample.zero 0) as [Hneg|_]; [|by vm_compute].
  unfold Sample.zero in Hneg. lra.
Qed.

Lemma float_ok_ln4 : float_ok Sample.ln4.
Proof.
  unfold float_ok.
  change (format_6f Sample.ln4) with (Sample.format_6f Sample.ln4).
  rewrite format_ln4. split; [by split|]. eexists. vm_compute. reflexivity.
Qed.

Lemma float_ok_zero : float_ok Sample.zero.
Proof.
  unfold float_ok.
  change (format_6f Sample.zero) with (Sample.format_6f Sample.zero).
  rewrite format_zero. split; [by split|]. eexists. vm_compute. reflexivity.
Qed.

Lemma int_ok_small (z : Z) : 1 ≤ z ≤ 8 → int_ok z.
Proof.
  intros Hz.
  assert (z = 1 ∨ z = 2 ∨ z = 3 ∨ z = 4 ∨ z = 5 ∨ z = 6 ∨ z = 7 ∨ z = 8)
    as Hcases by lia.
  repeat destruct Hcases as [->|Hcases]; try subst z;
    (split; [by split | by vm_compute]).
Qed.

Lemma saved_writable : writable Cases3.saved.
Proof.
  split.
  - intros name id Hin%elem_of_map_to_list.
    remember (map_to_list (Indexer.documents Cases3.saved)) as l eqn:Hl.
    vm_compute in Hl. subst l.
    repeat (apply elem_of_cons in Hin as [[= -> ->]|Hin]);
      [split; [by split | by apply int_ok_small]..|].
    by apply elem_of_nil in Hin.
  - intros term id.
    change (Indexer.terms Cases3.saved) with ({["cat" := 1]} : gmap string Z).
    intros [<- <-]%lookup_singleton_Some.
    split; [by split | by apply int_ok_small].
  - intros t dp d p.
    change (Indexer.postings Cases3.saved)
      with ({[1 := <[1 := Cases3.cat_posting]> {[8 := Cases3.cat_posting]}]}
              : gmap Z (gmap Z Indexer.posting)).
    intros [<- <-]%lookup_singleton_Some Hd.
    assert (p = Cases3.cat_posting ∧ (d = 1 ∨ d = 8)) as [-> Hd'].
    { destruct (decide (d = 1)) as [->|Hne].
      - rewrite lookup_insert_eq in Hd. injection Hd as <-. by split; [|left].
      - rewrite lookup_insert_ne in Hd by done.
        apply lookup_singleton_Some in Hd as [<- <-]. by split; [|right]. }
    split_and!; try (apply int_ok_small; simpl; lia);
      apply float_ok_ln4.
  - intros d x Hin%elem_of_map_to_list.
    remember (map_to_list (Indexer.doc_lengths Cases3.saved)) as l eqn:Hl.
    vm_compute in Hl. subst l.
    repeat (apply elem_of_cons in Hin as [[= -> ->]|Hin]);
      [split; [by apply int_ok_small
              | first [apply float_ok_ln4 | apply float_ok_zero]]..|].
    by apply elem_of_nil in Hin.
Qed.

(** X19 on the sample index: what is loaded from the saved files is the
    engine state of the index of eight documents. *)
Lemma X19_witness :
  let r := Search.load_index Search.init (Indexer.save_index Cases3.saved) in
  r.2 = true
  ∧ Search.documents r.1 = Indexer.documents Cases3.saved
  ∧ entry_at (Search.postings r.1) 1 8
    = reload <$> entry_at (Indexer.postings Cases3.saved) 1 8
  ∧ Search.total_docs r.1 = 8.
Proof.
  destruct (X19_saved_index_loads_back Search.init Cases3.saved
              saved_writable)
    as (Hok & Hdocs & _ & _ & _ & _ & _ & Hps & _ & Hn & _).
  split_and!; [exact Hok | exact Hdocs | apply Hps | exact Hn].
Defined.
End SaveLoadExamples.


(** ** Cutting a corpus into documents *)

Section CorpusFacts.
Import Py Indexer IndexerSpec Corpus.
Context `{Builtins} `{Collaborators}.



















(** *** Identifier strings across the files of a corpus *)

Lemma hash_split (a b x y : string) :
  count_char "#"%char a = 0%nat → count_char "#"%char b = 0%nat →
  a +:+ String "#" x = b +:+ String "#" y → a = b ∧ x = y.
Proof.
  revert b. induction a as [|c a IH]; intros [|c' b] Ha Hb Heq.
  - rewrite !append_nil_l in Heq. by injection Heq as ->.
  - rewrite append_nil_l, append_cons in Heq. injection Heq as <- _.
    simpl in Hb. rewrite ?decide_True in Hb by done. done.
  - rewrite append_nil_l, append_cons in Heq. injection Heq as -> _.
    simpl in Ha. rewrite ?decide_True in Ha by done. done.
  - rewrite !append_cons in Heq. injection Heq as -> Heq.
    simpl in Ha, Hb. destruct (decide (c' = "#"%char)); [done|].
    by destruct (IH b Ha Hb Heq) as [-> ->].
Qed.

Lemma numbered_hash (doc_file : string) (k : Z) :
  (1 ≤ count_char "#"%char (numbered doc_file k))%nat.
Proof.
  unfold numbered. rewrite count_char_app.
  change ("#doc" +:+ str_of_int k)
    with (String "#" ("doc" +:+ str_of_int k)).
  simpl. rewrite ?decide_True by done. lia.
Qed.

Lemma numbered_inj (doc_file doc_file' : string) (k k' : Z) :
  Inj (=) (=) str_of_int →
  count_char "#"%char doc_file = 0%nat →
  count_char "#"%char doc_file' = 0%nat →
  numbered doc_file k = numbered doc_file' k' →
  doc_file = doc_file' ∧ k = k'.
Proof.
  intros Hinj Hf Hf' Heq. unfold numbered in Heq.
  change ("#doc" +:+ str_of_int k)
    with (String "#" ("doc" +:+ str_of_int k)) in Heq.
  change ("#doc" +:+ str_of_int k')
    with (String "#" ("doc" +:+ str_of_int k')) in Heq.
  apply hash_split in Heq as [-> Heq]; [|done..].
  split; [done|]. apply Hinj.
  change ("doc" +:+ str_of_int k)
    with (String "d" (String "o" (String "c" (str_of_int k)))) in Heq.
  change ("doc" +:+ str_of_int k')
    with (String "d" (String "o" (String "c" (str_of_int k')))) in Heq.
  by injection Heq.
Qed.

Lemma append_inj (s a b : string) : s +:+ a = s +:+ b → a = b.
Proof.
  induction s as [|c s IH]; [done|]. rewrite !append_cons.
  intros [= Heq]. by apply IH.
Qed.

Lemma cut_ids (doc_file : string) (l : list (Z * string)) (id : string) :
  id ∈ (omap (λ item : Z * string,
                if decide (strip item.2 = EmptyString) then None
                else Some (item.2, numbered doc_file item.1)) l).*2 →
  ∃ k, k ∈ l.*1 ∧ id = numbered doc_file k.
Proof.
  intros ([content id'] & -> & Hin)%list_elem_of_fmap.
  apply list_elem_of_omap in Hin as ([k piece] & Hin & Hsome).
  simpl in Hsome. case_decide; [done|]. injection Hsome as <- <-.
  exists k. split; [|done]. apply list_elem_of_fmap. by exists (k, piece).
Qed.

Lemma cut_NoDup (doc_file : string) (l : list (Z * string)) :
  Inj (=) (=) str_of_int → NoDup l.*1 →
  NoDup (omap (λ item : Z * string,
                 if decide (strip item.2 = EmptyString) then None
                 else Some (item.2, numbered doc_file item.1)) l).*2.
Proof.
  intros Hinj. induction l as [|[k piece] l IH]; [constructor|].
  rewrite fmap_cons. intros [Hk Hnd]%NoDup_cons.
  cbn [omap list_omap]. cbn [snd fst].
  case_decide; [by apply IH|].
  rewrite fmap_cons. apply NoDup_cons. split; [|by apply IH].
  intros (k' & Hk' & Heq)%cut_ids. simpl in Heq. unfold numbered in Heq.
  apply append_inj, append_inj, Hinj in Heq. by subst k'.
Qed.

Lemma documents_of_ids (doc_file content id : string) :
  id ∈ (documents_of doc_file content).*2 →
  id = doc_file ∨ ∃ k, id = numbered doc_file k.
Proof.
  unfold documents_of, cut.
  case_decide; [|by intros ->%list_elem_of_singleton; left].
  destruct (list_find _ separators) as [[i sep]|];
    [|by intros ->%list_elem_of_singleton; left].
  intros (k & _ & ->)%cut_ids. right. by exists k.
Qed.

Lemma documents_of_NoDup (doc_file content : string) :
  Inj (=) (=) str_of_int → NoDup (documents_of doc_file content).*2.
Proof.
  intros Hinj. unfold documents_of, cut.
  case_decide; [|apply NoDup_singleton].
  destruct (list_find _ separators) as [[i sep]|]; [|apply NoDup_singleton].
  apply cut_NoDup; [done|].
  rewrite fst_zip by (rewrite length_seqZ; lia). apply NoDup_seqZ.
Qed.

Lemma corpus_ids_NoDup (files : list (string * string)) :
  Inj (=) (=) str_of_int → NoDup files.*1 →
  (∀ path, path ∈ files.*1 → count_char "#"%char path = 0%nat) →
  NoDup (files ≫= λ file, documents_of file.1 file.2).*2.
Proof.
  intros Hinj. induction files as [|[path content] files IH];
    [constructor|].
  rewrite fmap_cons. cbn [fst]. intros [Hpath Hnd]%NoDup_cons Hhash.
  cbn [mbind list_bind]. cbn [fst snd]. rewrite fmap_app.
  apply NoDup_app. split_and!.
  - by apply documents_of_NoDup.
  - intros id Hid ([content' id'] & -> & Hin)%list_elem_of_fmap.
    apply list_elem_of_bind in Hin as ([path' content''] & Hin & Hfile).
    simpl in Hin.
    assert (path' ∈ files.*1) as Hpath'.
    { apply list_elem_of_fmap. by exists (path', content''). }
    assert (count_char "#"%char path = 0%nat) as Hp by (apply Hhash; by left).
    assert (count_char "#"%char path' = 0%nat) as Hp'
      by (apply Hhash; by right).
    assert (id' ∈ (documents_of path' content'').*2) as Hid'.
    { apply list_elem_of_fmap. by exists (content', id'). }
    simpl in Hid.
    apply documents_of_ids in Hid as [->|[k ->]];
      apply documents_of_ids in Hid' as [Heq|[k' Heq]].
    + by subst path'.
    + pose proof (numbered_hash path' k') as Hn. rewrite <- Heq in Hn. lia.
    + pose proof (numbered_hash path k) as Hn. rewrite Heq in Hn. lia.
    + apply numbered_inj in Heq as [-> _]; done.
  - apply IH; [done|]. intros p Hp. apply Hhash. by right.
Qed.

(** X21. In a corpus of files with distinct paths, none of which holds
    the character [#], every document cut from the files gets an
    identifier string of its own, so that no entry of the document
    table is overwritten: [build_index] returns, and [total_docs] is the
    number of documents handed to [process_document_content]. *)
Theorem X21_cut_documents_have_their_own_identifiers files :
  Inj (=) (=) str_of_int → NoDup files.*1 →
  (∀ path, path ∈ files.*1 → count_char "#"%char path = 0%nat) →
  let docs := files ≫= λ file, documents_of file.1 file.2 in
  NoDup docs.*2
  ∧ ∃ self, build_corpus files = Ok (self, bool_decide (docs ≠ []))
      ∧ total_docs self = Z.of_nat (length docs).
Proof.
  intros Hinj Hnd Hhash docs.
  pose proof (corpus_ids_NoDup files Hinj Hnd Hhash) as Hids.
  fold docs in Hids. split; [done|].
  unfold build_corpus. fold docs.
  destruct (decide (docs = [])) as [->|Hne]; [by exists init|].
  unfold build_index.
  destruct (process_all_built docs) as [Hb Hn].
  destruct (process_all init docs) as [self1 n]. simpl in Hb, Hn.
  subst n. case_decide as Hz.
  - destruct docs; [done | simpl in Hz; lia].
  - destruct (finalize_built _ _ Hb) as (self2 & Hfin & Hdocs & _).
    rewrite Hfin. cbn [bind]. eexists.
    rewrite bool_decide_true by done. split; [done|].
    cbn [total_docs]. rewrite Hdocs.
    by rewrite (built_size_documents _ _ Hb Hids), length_fmap.
Qed.
End CorpusFacts.


(** ** Cutting the sample corpus *)

Section CorpusExamples.
Import Py Indexer Corpus.
#[local] Existing Instance Sample.text.
#[local] Existing Instance Sample.builtins.


(** X21 on the corpus of two files. *)
Lemma X21_witness :
  let docs := Cases4.files ≫= λ file, documents_of file.1 file.2 in
  NoDup docs.*2
  ∧ ∃ self, build_corpus Cases4.files = Ok (self, bool_decide (docs ≠ []))
      ∧ total_docs self = Z.of_nat (length docs).
Proof.
  apply (X21_cut_documents_have_their_own_identifiers Cases4.files).
  - exact pretty_Z_inj.
  - apply NoDup_cons. split; [|apply NoDup_singleton].
    by intros ?%list_elem_of_singleton.
  - intros path [->|[->|[]%elem_of_nil]%elem_of_cons]%elem_of_cons;
      vm_compute; reflexivity.
Defined.
End CorpusExamples.


(** ** Printing the results of a query *)

Section ReportFacts.
Import Py Search SearchSpec QuerySpec Report ReportSpec.
Context `{Collaborators} `{Builtins} `{Formats}.






End ReportFacts.


(** ** What a query does to the state *)

Section StateFacts.
Import Py Search SearchSpec QuerySpec.
Context `{Collaborators} `{Builtins}.

Lemma parse_query_same_terms (a b : engine) (query : string) :
  terms a = terms b → parse_query a query = parse_query b query.
Proof. intros Hterms. unfold parse_query. by rewrite Hterms. Qed.

(** X24. Whether it returns a list or raises, [search] writes to the
    state in one case only: when the first parsed term of the query has
    no entry in the postings, the subscript [self.postings[first_term_id]]
    inserts an empty dictionary under its identifier. Every other field
    is left alone, and running the same query again changes nothing
    more. *)
Theorem X24_search_writes_one_empty_entry_at_most self query top_k :
  let st := (search self query top_k).1 in
  st = match parse_query self query with
       | [] => self
       | first :: _ =>
           match postings self !! term_id first with
           | Some _ => self
           | None =>
               set_postings self (<[term_id first := ∅]> (postings self))
           end
       end
  ∧ ∀ top_k', (search st query top_k').1 = st.
Proof.
  intros st. subst st.
  rewrite search_state, get_documents_with_all_terms_state.
  split; [done|]. intros top_k'.
  rewrite search_state, get_documents_with_all_terms_state.
  destruct (parse_query self query) as [|first rest] eqn:Hpts.
  - by rewrite Hpts.
  - destruct (postings self !! term_id first) as [dp|] eqn:Hfirst.
    + by rewrite Hpts, Hfirst.
    + rewrite (parse_query_same_terms _ self) by done. rewrite Hpts.
      cbn [postings set_postings]. by rewrite lookup_insert_eq.
Qed.
End StateFacts.

(** ** Printing on the sample index *)

Section ReportExamples.
Import Py Search SearchSpec QuerySpec Report ReportSpec.
#[local] Existing Instance Sample.text.
#[local] Existing Instance Sample.builtins.
#[local] Existing Instance Cases5.formats.




End ReportExamples.


(** ** The documents of a result list *)

Section HitFacts.
Import Py Search SearchSpec QuerySpec.
Context `{Collaborators} `{Builtins}.

(** X26. When the walk over a set visits no member twice, no document
    is listed twice in a result list, whatever the limit; and the path
    shown with a document is the one that the table from identifiers to
    paths holds for it. *)
Theorem X26_hits_are_distinct_documents self query top_k st hits :
  (∀ s : gset Z, NoDup (set_iter s)) →
  search self query top_k = (st, Ok hits) →
  NoDup (doc_id <$> hits)
  ∧ ∀ h, h ∈ hits → documents_inv self !! doc_id h = Some (doc_path h).
Proof.
  intros Hiter Hs. split.
  - destruct (decide (hits = [])) as [->|Hne]; [constructor|].
    destruct (search_hits _ _ _ _ _ Hs Hne)
      as (qv & results & _ & _ & Hsc & Hhits).
    destruct (scored_Ok _ _ _ _ Hsc) as [Hsub _].
    assert (NoDup (doc_id <$> results)) as Hnd.
    { eapply sublist_NoDup; [apply Hiter | exact Hsub]. }
    destruct (slice_to_prefix top_k (sort_desc similarity results))
      as [rest Hrest].
    rewrite <- Hhits in Hrest.
    assert (NoDup (doc_id <$> sort_desc similarity results)) as Hsorted.
    { by rewrite (sort_desc_perm similarity results). }
    rewrite Hrest, fmap_app in Hsorted.
    by apply NoDup_app in Hsorted as [? _].
  - intros h Hh.
    by destruct (search_hit _ _ _ _ _ h Hs Hh) as (_ & _ & _ & _ & _ & _ & _ & ?).
Qed.
End HitFacts.

Section HitExamples.
Import Py Search SearchSpec QuerySpec.
#[local] Existing Instance Sample.text.
#[local] Existing Instance Sample.builtins.

Lemma sample_iter_NoDup (s : gset Z) : NoDup (set_iter s).
Proof.
  unfold set_iter. simpl. rewrite merge_sort_Permutation.
  apply NoDup_elements.
Qed.

(** X26 on the query ["cat"] over the index of eight documents. *)
Lemma X26_witness :
  NoDup (doc_id <$> Sample.tied_hits)
  ∧ documents_inv Sample.tied !! 8 = Some "d8.txt".
Proof.
  destruct (X26_hits_are_distinct_documents Sample.tied "cat" 20
              Sample.tied Sample.tied_hits sample_iter_NoDup
              (search_tied 20)) as [Hnd Hpaths].
  split; [exact Hnd|].
  apply (Hpaths {| doc_id := 8; similarity := (Sample.ln4 / Sample.ln4)%R;
                   doc_path := "d8.txt" |}).
  by left.
Defined.
End HitExamples.
